(** * PCD-202502: similarity metrics, bounded top-N selection, recommenders
      and similarity matrices

    A shallow embedding of the Go packages [ml] (TF/internal/ml) and
    [algorithms] (TP/algorithms) and of the loader of the program TP, with
    the properties of their specification, and further properties of the
    code, stated and proved over it.

    Conventions of the embedding.
    - Go's [int] identifiers, counts and parameters are [Z]; positions in a
      slice are [nat].  The size of the channels of the concurrent builders,
      which a caller can drive out of the range of an [int] with the number
      of workers, is computed with the wrap-around of 64 bits ([wrap64]).
    - Go's [float64] is a type [F] with the operations the code uses (class
      [Float64]).  Two instances are given: [float], binary64, the
      arithmetic of the compiled program, which evaluates, and [R], exact
      arithmetic.  A statement is about the program when it is made for
      every [F] or for [float]; a statement made for [R] only says so.
    - A Go map is a [gomap]: the list of its entries in the order in which
      [range] visits them.  Go leaves that order unspecified, so a statement
      quantified over all gomaps speaks of every map under every order of
      visit.  A map that the code builds is visited in the order of its
      insertions, one of the orders Go allows.
    - A run-time panic is the [Panic] result of the [result] monad; a
      function without a [result] type has no operation that can panic.
      [make] panics on a size that the runtime refuses; an allocation that
      the runtime accepts succeeds, whatever the memory of the machine is.
    - The goroutines of the concurrent builders are a transition system:
      each step is one statement of one goroutine on a channel or on the
      wait group, and a property of a builder is one of all its schedules.
    - [container/heap] and [sort.Slice] of the Go standard library are
      embedded with the packages that call them. *)

From Stdlib Require Import ZArith List Lia Reals Lra Permutation Sorted.
From Stdlib Require Import Zify ZifyNat.
From Stdlib Require Floats.
From Stdlib Require Strings.Byte.
From stdpp Require Import base list relations.
Import ListNotations.
Open Scope Z_scope.

(** ** Results of code that can panic *)

Inductive go_panic : Type :=
| index_out_of_range
| slice_bounds_out_of_range
| integer_divide_by_zero
| makechan_size_out_of_range
| send_on_closed_channel.

(** [OutOfFuel] is the result of a loop of the embedding whose iteration
    bound was reached; the theorems show that it never is. *)
Inductive result (A : Type) : Type :=
| Ok (a : A)
| Panic (p : go_panic)
| OutOfFuel.

Arguments Ok {A} a.
Arguments Panic {A} p.
Arguments OutOfFuel {A}.

#[export] Instance result_ret : MRet result := λ A a, Ok a.

#[export] Instance result_bind : MBind result := λ A B k r,
  match r with
  | Ok a => k a
  | Panic p => Panic p
  | OutOfFuel => OutOfFuel
  end.

(** [s[i]] on a slice. *)
Definition index {A} (s : list A) (i : nat) : result A :=
  match s !! i with
  | Some x => Ok x
  | None => Panic index_out_of_range
  end.

(** [s[lo:hi]] on a slice whose capacity is its length. *)
Definition slice {A} (s : list A) (lo hi : Z) : result (list A) :=
  if (0 <=? lo) && (lo <=? hi) && (hi <=? Z.of_nat (length s))
  then Ok (take (Z.to_nat (hi - lo)) (drop (Z.to_nat lo) s))
  else Panic slice_bounds_out_of_range.

(** A sequential fold whose body can panic. *)
Fixpoint foldM {A B} (f : A → B → result A) (l : list B) (a : A) : result A :=
  match l with
  | [] => Ok a
  | b :: l' => a' ← f a b; foldM f l' a'
  end.

(** ** Go maps with integer keys *)

Abbreviation gomap V := (list (Z * V)).

(** [v, ok := m[k]] *)
Fixpoint mget {V} (m : gomap V) (k : Z) : option V :=
  match m with
  | [] => None
  | (k', v) :: m' => if Z.eqb k' k then Some v else mget m' k
  end.

(** [m[k] = v] *)
Fixpoint mset {V} (m : gomap V) (k : Z) (v : V) : gomap V :=
  match m with
  | [] => [(k, v)]
  | (k', v') :: m' =>
      if Z.eqb k' k then (k, v) :: m' else (k', v') :: mset m' k v
  end.

Definition mkeys {V} (m : gomap V) : list Z := fst <$> m.

(** [_, ok := m[k]] *)
Definition mhas {V} (m : gomap V) (k : Z) : bool :=
  match mget m k with Some _ => true | None => false end.

(** [len(m)] *)
Definition mlen {V} (m : gomap V) : Z := Z.of_nat (length m).

(** A gomap stands for a Go map when no key occurs twice. *)
Definition wf_map {V} (m : gomap V) : Prop := NoDup (mkeys m).

(** ** float64 *)

Class Float64 (F : Type) : Type := {
  fzero : F;                 (* 0, 0.0 *)
  fone : F;                  (* 1.0 *)
  fthreshold : F;            (* 0.05 *)
  fadd : F → F → F;          (* x + y *)
  fsub : F → F → F;          (* x - y *)
  fmul : F → F → F;          (* x * y *)
  fdiv : F → F → F;          (* x / y *)
  fneg : F → F;              (* -x *)
  fsqrt : F → F;             (* math.Sqrt(x) *)
  feq : F → F → bool;        (* x == y *)
  flt : F → F → bool;        (* x < y *)
  fof_int : Z → F            (* float64(n) *)
}.

(** [x > y] *)
Definition fgt {F} `{Float64 F} (x y : F) : bool := flt y x.

(** Binary64 arithmetic. *)
Module Binary64.
Import PrimFloat.
Definition threshold : float := 0x1.999999999999ap-5%float.
Definition half : float := 0.5%float.
Definition two : float := 2%float.
End Binary64.

Definition float_of_Z (n : Z) : PrimFloat.float :=
  if Z.ltb n 0
  then PrimFloat.opp (PrimFloat.of_uint63 (Uint63.of_Z (- n)))
  else PrimFloat.of_uint63 (Uint63.of_Z n).

#[export] Instance float_Float64 : Float64 PrimFloat.float := {
  fzero := PrimFloat.zero;
  fone := PrimFloat.one;
  fthreshold := Binary64.threshold;
  fadd := PrimFloat.add;
  fsub := PrimFloat.sub;
  fmul := PrimFloat.mul;
  fdiv := PrimFloat.div;
  fneg := PrimFloat.opp;
  fsqrt := PrimFloat.sqrt;
  feq := PrimFloat.eqb;
  flt := PrimFloat.ltb;
  fof_int := float_of_Z
}.

(** Exact arithmetic. *)
#[export] Instance R_Float64 : Float64 R := {
  fzero := 0%R;
  fone := 1%R;
  fthreshold := (5 / 100)%R;
  fadd := Rplus;
  fsub := Rminus;
  fmul := Rmult;
  fdiv := Rdiv;
  fneg := Ropp;
  fsqrt := sqrt;
  feq := λ x y, if Req_dec_T x y then true else false;
  flt := λ x y, if Rlt_dec x y then true else false;
  fof_int := IZR
}.

(** ** Package ml: similarity.go *)

Section Similarity.
Context {F : Type} `{Float64 F}.

(** First loop of [Cosine]: the state is [(dot, suma)]. *)
Definition Cosine_loop_a (b : gomap F) (st : F * F) (e : Z * F) : F * F :=
  let '(dot, suma) := st in
  let '(k, va) := e in
  let dot := match mget b k with
             | Some vb => fadd dot (fmul va vb)
             | None => dot
             end in
  (dot, fadd suma (fmul va va)).

Definition Cosine_loop_b (sumb : F) (e : Z * F) : F :=
  fadd sumb (fmul (snd e) (snd e)).

(** [(dot, suma, sumb)] after the two loops of [Cosine]. *)
Definition Cosine_sums (a b : gomap F) : F * F * F :=
  let '(dot, suma) := fold_left (Cosine_loop_a b) a (fzero, fzero) in
  let sumb := fold_left Cosine_loop_b b fzero in
  (dot, suma, sumb).

Definition Cosine (a b : gomap F) : F :=
  let '(dot, suma, sumb) := Cosine_sums a b in
  if feq suma fzero || feq sumb fzero then fzero
  else fdiv dot (fmul (fsqrt suma) (fsqrt sumb)).

(** [common] of [Pearson]: the keys of [a] found in [b]. *)
Definition Pearson_common (a b : gomap F) : Z :=
  fold_left (λ common e, if mhas b (fst e) then common + 1 else common) a 0.

(** [m[k]] as a value: an absent key reads as 0. *)
Definition mread (m : gomap F) (k : Z) : F :=
  match mget m k with Some v => v | None => fzero end.

(** Second loop of [Pearson]: the state is [(sumA, sumB)]. *)
Definition Pearson_loop_sum (a b : gomap F) (st : F * F) (e : Z * F) : F * F :=
  let '(sumA, sumB) := st in
  let k := fst e in
  if mhas b k then (fadd sumA (mread a k), fadd sumB (mread b k))
  else (sumA, sumB).

(** Third loop of [Pearson]: the state is [(num, denA, denB)]. *)
Definition Pearson_loop_corr (a b : gomap F) (meanA meanB : F)
    (st : F * F * F) (e : Z * F) : F * F * F :=
  let '(num, denA, denB) := st in
  let k := fst e in
  match mget b k with
  | None => (num, denA, denB)
  | Some vb =>
      let da := fsub (mread a k) meanA in
      let db := fsub vb meanB in
      (fadd num (fmul da db), fadd denA (fmul da da), fadd denB (fmul db db))
  end.

(** [(num, denA, denB)] after the loops of [Pearson] that follow the test
    on [common]. *)
Definition Pearson_sums (a b : gomap F) : F * F * F :=
  let common := Pearson_common a b in
  let '(sumA, sumB) := fold_left (Pearson_loop_sum a b) a (fzero, fzero) in
  let meanA := fdiv sumA (fof_int common) in
  let meanB := fdiv sumB (fof_int common) in
  fold_left (Pearson_loop_corr a b meanA meanB) a (fzero, fzero, fzero).

Definition Pearson (a b : gomap F) : F :=
  let common := Pearson_common a b in
  if Z.ltb common 2 then fzero
  else
    let '(num, denA, denB) := Pearson_sums a b in
    if feq denA fzero || feq denB fzero then fzero
    else fdiv num (fmul (fsqrt denA) (fsqrt denB)).

(** Loops of [Jaccard]: the state is [(inter, union)], [union] a set of
    keys kept as a map to [unit]. *)
Definition Jaccard_loop_a (b : gomap F) (st : Z * gomap unit) (e : Z * F)
    : Z * gomap unit :=
  let '(inter, union) := st in
  let k := fst e in
  let union := mset union k tt in
  if mhas b k then (inter + 1, union) else (inter, union).

Definition Jaccard_loop_b (union : gomap unit) (e : Z * F) : gomap unit :=
  mset union (fst e) tt.

(** [(inter, union)] after the two loops of [Jaccard]. *)
Definition Jaccard_counts (a b : gomap F) : Z * gomap unit :=
  let '(inter, union) := fold_left (Jaccard_loop_a b) a (0, []) in
  (inter, fold_left Jaccard_loop_b b union).

Definition Jaccard (a b : gomap F) : F :=
  if Z.eqb (mlen a) 0 && Z.eqb (mlen b) 0 then fzero
  else
    let '(inter, union) := Jaccard_counts a b in
    if Z.eqb (mlen union) 0 then fzero
    else fdiv (fof_int inter) (fof_int (mlen union)).

End Similarity.

(** ** Package algorithms: users and their games *)

Record GameInteraction (F : Type) : Type := {
  PlaytimeNorm : F;
  Rating : F
}.

Arguments PlaytimeNorm {F} g.
Arguments Rating {F} g.

Record User (F : Type) : Type := {
  SteamID : list Byte.byte;
  Games : gomap (GameInteraction F)    (* key: app_id *)
}.

Arguments SteamID {F} u.
Arguments Games {F} u.

Section Algorithms.
Context {F : Type} `{Float64 F}.

(** The vector [[]float64{g.PlaytimeNorm, g.Rating}]. *)
Definition features (g : GameInteraction F) : list F :=
  [PlaytimeNorm g; Rating g].

(** [for k := 0; k < len(v1); k++ { acc += v1[k] * v2[k] }], on two vectors
    of the same length. *)
Definition accumulate_products (acc : F) (v1 v2 : list F) : F :=
  fold_left (λ acc xy, fadd acc (fmul (fst xy) (snd xy))) (combine v1 v2) acc.

(** First loop of [cosineSimilarity]: the state is [(dotProduct, norm1)]. *)
Definition cosine_loop_1 (u2 : User F) (st : F * F)
    (e : Z * GameInteraction F) : F * F :=
  let '(dotProduct, norm1) := st in
  let '(appID, game1) := e in
  let v1 := features game1 in
  let dotProduct :=
    match mget (Games u2) appID with
    | Some game2 => accumulate_products dotProduct v1 (features game2)
    | None => dotProduct
    end in
  (dotProduct, accumulate_products norm1 v1 v1).

Definition cosine_loop_2 (norm2 : F) (e : Z * GameInteraction F) : F :=
  let v2 := features (snd e) in
  accumulate_products norm2 v2 v2.

(** [(dotProduct, norm1, norm2)] after the two loops of
    [cosineSimilarity], before the square roots. *)
Definition cosine_sums (u1 u2 : User F) : F * F * F :=
  let '(dotProduct, norm1) :=
    fold_left (cosine_loop_1 u2) (Games u1) (fzero, fzero) in
  let norm2 := fold_left cosine_loop_2 (Games u2) fzero in
  (dotProduct, norm1, norm2).

Definition cosineSimilarity (u1 u2 : User F) : F :=
  let '(dotProduct, norm1, norm2) := cosine_sums u1 u2 in
  let norm1 := fsqrt norm1 in
  let norm2 := fsqrt norm2 in
  if feq norm1 fzero || feq norm2 fzero then fzero
  else fdiv dotProduct (fmul norm1 norm2).

(** [commonGames] of [pearsonCorrelation]. *)
Definition commonGames (u1 u2 : User F) : list Z :=
  fold_left (λ common e, if mhas (Games u2) (fst e)
                         then common ++ [fst e] else common)
            (Games u1) [].

(** [u.Games[appID]] as a value: an absent game reads as the zero struct. *)
Definition game_read (u : User F) (appID : Z) : GameInteraction F :=
  match mget (Games u) appID with
  | Some g => g
  | None => {| PlaytimeNorm := fzero; Rating := fzero |}
  end.

(** The state is [(values1, values2)]. *)
Definition pearson_loop_values (u1 u2 : User F) (st : list F * list F)
    (appID : Z) : list F * list F :=
  let '(values1, values2) := st in
  let game1 := game_read u1 appID in
  let game2 := game_read u2 appID in
  (values1 ++ [PlaytimeNorm game1; Rating game1],
   values2 ++ [PlaytimeNorm game2; Rating game2]).

(** The state is [(sum1, sum2)]; [values1[i]] and [values2[i]] are slice
    accesses. *)
Definition pearson_loop_sums (values1 values2 : list F) (st : F * F)
    (i : nat) : result (F * F) :=
  let '(sum1, sum2) := st in
  x1 ← index values1 i;
  x2 ← index values2 i;
  Ok (fadd sum1 x1, fadd sum2 x2).

(** The state is [(numerator, denom1, denom2)]. *)
Definition pearson_loop_corr (values1 values2 : list F) (mean1 mean2 : F)
    (st : F * F * F) (i : nat) : result (F * F * F) :=
  let '(numerator, denom1, denom2) := st in
  x1 ← index values1 i;
  x2 ← index values2 i;
  let diff1 := fsub x1 mean1 in
  let diff2 := fsub x2 mean2 in
  Ok (fadd numerator (fmul diff1 diff2),
      fadd denom1 (fmul diff1 diff1),
      fadd denom2 (fmul diff2 diff2)).

(** [(values1, values2)] of [pearsonCorrelation]. *)
Definition pearson_values (u1 u2 : User F) : list F * list F :=
  fold_left (pearson_loop_values u1 u2) (commonGames u1 u2) ([], []).

(** [(numerator, denom1, denom2)] after the loops of [pearsonCorrelation]
    that follow the test on [n]. *)
Definition pearson_sums (u1 u2 : User F) : result (F * F * F) :=
  let '(values1, values2) := pearson_values u1 u2 in
  let n := length values1 in
  sums ← foldM (pearson_loop_sums values1 values2) (seq 0 n) (fzero, fzero);
  let '(sum1, sum2) := sums in
  let mean1 := fdiv sum1 (fof_int (Z.of_nat n)) in
  let mean2 := fdiv sum2 (fof_int (Z.of_nat n)) in
  foldM (pearson_loop_corr values1 values2 mean1 mean2) (seq 0 n)
        (fzero, fzero, fzero).

Definition pearsonCorrelation (u1 u2 : User F) : result F :=
  let common := commonGames u1 u2 in
  if Z.ltb (Z.of_nat (length common)) 2 then Ok fzero
  else
    let n := length (fst (pearson_values u1 u2)) in
    if Nat.eqb n 0 then Ok fzero
    else
      corr ← pearson_sums u1 u2;
      let '(numerator, denom1, denom2) := corr in
      if feq denom1 fzero || feq denom2 fzero then Ok fzero
      else
        let denominator := fsqrt (fmul denom1 denom2) in
        if feq denominator fzero then Ok fzero
        else Ok (fdiv numerator denominator).

(** [intersection] of [jaccardIndex]. *)
Definition jaccard_intersection (u1 u2 : User F) : Z :=
  fold_left (λ n e, if mhas (Games u2) (fst e) then n + 1 else n) (Games u1) 0.

Definition jaccardIndex (u1 u2 : User F) : F :=
  let intersection := jaccard_intersection u1 u2 in
  let union := mlen (Games u1) + mlen (Games u2) - intersection in
  if Z.eqb union 0 then fzero
  else fdiv (fof_int intersection) (fof_int union).

(** [allGames] of [JaccardWeighted]. *)
Definition allGames (u1 u2 : User F) : gomap bool :=
  let all := fold_left (λ all e, mset all (fst e) true) (Games u1) [] in
  fold_left (λ all e, mset all (fst e) true) (Games u2) all.

(** [val] of one user at one game: the sum of its two features, 0 when the
    user does not have the game. *)
Definition interaction_value (u : User F) (appID : Z) : F :=
  match mget (Games u) appID with
  | Some g => fadd (PlaytimeNorm g) (Rating g)
  | None => fzero
  end.

(** The state is [(minSum, maxSum)]. *)
Definition weighted_loop (u1 u2 : User F) (st : F * F) (e : Z * bool) : F * F :=
  let '(minSum, maxSum) := st in
  let val1 := interaction_value u1 (fst e) in
  let val2 := interaction_value u2 (fst e) in
  if flt val1 val2 then (fadd minSum val1, fadd maxSum val2)
  else (fadd minSum val2, fadd maxSum val1).

(** [(minSum, maxSum)] after the loop of [JaccardWeighted]. *)
Definition weighted_sums (u1 u2 : User F) : F * F :=
  fold_left (weighted_loop u1 u2) (allGames u1 u2) (fzero, fzero).

Definition JaccardWeighted (u1 u2 : User F) : F :=
  let '(minSum, maxSum) := weighted_sums u1 u2 in
  if feq maxSum fzero then fzero
  else fdiv minSum maxSum.

End Algorithms.

(** ** Package ml: the recommenders *)

Record Dataset (F : Type) : Type := {
  UserRatings : gomap (gomap F);
  Users : Z;
  Movies : Z
}.

Arguments UserRatings {F} d.
Arguments Users {F} d.
Arguments Movies {F} d.

(** [type SimMetric int] and its constants. *)
Definition SimMetric : Type := Z.
Definition CosineSim : SimMetric := 0.
Definition PearsonSim : SimMetric := 1.
Definition JaccardSim : SimMetric := 2.

Record ItemScore (F : Type) : Type := {
  MovieID : Z;
  Score : F
}.

Arguments MovieID {F} i.
Arguments Score {F} i.

Record neighbor (F : Type) : Type := {
  id : Z;
  score : F
}.

Arguments id {F} n.
Arguments score {F} n.

(** [type minHeap []neighbor] *)
Abbreviation minHeap F := (list (neighbor F)).

(** Insertion sort along [less], the comparator given to [sort.Slice].
    [sort.Slice] is not stable; this stand-in keeps equal elements in their
    order, one of the orders [sort.Slice] may produce. *)
Fixpoint sort_insert {A} (less : A → A → bool) (x : A) (l : list A) : list A :=
  match l with
  | [] => [x]
  | y :: l' => if less y x then y :: sort_insert less x l' else x :: l
  end.

Definition sort_Slice {A} (less : A → A → bool) (l : list A) : list A :=
  fold_right (sort_insert less) [] l.

Section Recommender.
Context {F : Type} `{Float64 F}.

(** [m[k]] for a map of maps: an absent key reads as the nil map. *)
Definition mread_map (m : gomap (gomap F)) (k : Z) : gomap F :=
  match mget m k with Some v => v | None => [] end.

(** Inner loop of [BuildItemIndex], for the items of user [u]. *)
Definition BuildItemIndex_item (u : Z) (itemIndex : gomap (gomap F))
    (e : Z * F) : gomap (gomap F) :=
  let '(itm, r) := e in
  let itemIndex := if mhas itemIndex itm then itemIndex
                   else mset itemIndex itm [] in
  mset itemIndex itm (mset (mread_map itemIndex itm) u r).

Definition BuildItemIndex (ds : Dataset F) : gomap (gomap F) :=
  fold_left (λ itemIndex e, fold_left (BuildItemIndex_item (fst e)) (snd e) itemIndex)
            (UserRatings ds) [].

Definition simBetween (a b : gomap F) (metric : SimMetric) : F :=
  if Z.eqb metric CosineSim then Cosine a b
  else if Z.eqb metric PearsonSim then Pearson a b
  else if Z.eqb metric JaccardSim then Jaccard a b
  else Cosine a b.

Definition topKFromMap (scores : gomap F) (k : Z) : result (list (ItemScore F)) :=
  let top := map (λ e, {| MovieID := fst e; Score := snd e |}) scores in
  let top := sort_Slice (λ x y, fgt (Score x) (Score y)) top in
  if Z.of_nat (length top) >? k then slice top 0 k else Ok top.

(** *** minHeap and container/heap *)

Definition Less (h : minHeap F) (i j : nat) : result bool :=
  x ← index h i;
  y ← index h j;
  Ok (flt (score x) (score y)).

Definition Swap (h : minHeap F) (i j : nat) : result (minHeap F) :=
  x ← index h i;
  y ← index h j;
  Ok (<[j := x]> (<[i := y]> h)).

(** The methods [Push] and [Pop] of [minHeap]. *)
Definition minHeap_Push (h : minHeap F) (x : neighbor F) : minHeap F :=
  h ++ [x].

Definition minHeap_Pop (h : minHeap F) : result (neighbor F * minHeap F) :=
  match length h with
  | O => Panic index_out_of_range
  | S n => x ← index h n; Ok (x, take n h)
  end.

(** [heap.up]: the loop runs at most [j + 1] times, since [i < j] when it
    goes on.  [(j - 1) / 2] is 0 at [j = 0] in Go as it is on [nat]. *)
Fixpoint up_loop (fuel : nat) (h : minHeap F) (j : nat) : result (minHeap F) :=
  match fuel with
  | O => OutOfFuel
  | S fuel =>
      let i := ((j - 1) / 2)%nat in            (* parent *)
      if Nat.eqb i j then Ok h
      else
        less ← Less h j i;
        if negb less then Ok h
        else h ← Swap h i j; up_loop fuel h i
  end.

Definition up (h : minHeap F) (j : nat) : result (minHeap F) :=
  up_loop (S j) h j.

(** [heap.down]; its boolean result is not used by [Init] and [Pop].  The
    loop runs at most [n] times. *)
Fixpoint down_loop (fuel : nat) (h : minHeap F) (i n : nat) : result (minHeap F) :=
  match fuel with
  | O => OutOfFuel
  | S fuel =>
      let j1 := (2 * i + 1)%nat in
      if Nat.leb n j1 then Ok h
      else
        let j2 := (j1 + 1)%nat in
        right ← (if Nat.ltb j2 n then Less h j2 j1 else Ok false);
        let j := if (right : bool) then j2 else j1 in
        less ← Less h j i;
        if negb less then Ok h
        else h ← Swap h i j; down_loop fuel h j n
  end.

Definition down (h : minHeap F) (i0 n : nat) : result (minHeap F) :=
  down_loop (S n) h i0 n.

(** [heap.Init]: [for i := n/2 - 1; i >= 0; i-- { down(h, i, n) }] *)
Definition heap_Init (h : minHeap F) : result (minHeap F) :=
  let n := length h in
  foldM (λ h i, down h i n) (rev (seq 0 (n / 2))) h.

Definition heap_Push (h : minHeap F) (x : neighbor F) : result (minHeap F) :=
  let h := minHeap_Push h x in
  up h (length h - 1).

(** [heap.Pop]: on the empty heap [n] is -1 and [h.Swap(0, n)] panics. *)
Definition heap_Pop (h : minHeap F) : result (neighbor F * minHeap F) :=
  match length h with
  | O => Panic index_out_of_range
  | S n =>
      h ← Swap h 0 n;
      h ← down h 0 n;
      minHeap_Pop h
  end.

(** Body of the loop of [topNneighborsFromScores] over [scores]. *)
Definition topN_offer (n : Z) (h : minHeap F) (e : Z * F) : result (minHeap F) :=
  let '(id, sc) := e in
  if Z.of_nat (length h) <? n
  then heap_Push h {| id := id; score := sc |}
  else
    top ← index h 0;
    if fgt sc (score top)
    then
      popped ← heap_Pop h;
      heap_Push (snd popped) {| id := id; score := sc |}
    else Ok h.

(** Body of the loop that fills [res] from its end: the state is
    [(h, res)]. *)
Definition topN_drain (st : minHeap F * list (neighbor F)) (i : nat)
    : result (minHeap F * list (neighbor F)) :=
  let '(h, res) := st in
  popped ← heap_Pop h;
  if Nat.ltb i (length res)
  then Ok (snd popped, <[i := fst popped]> res)
  else Panic index_out_of_range.

Definition topNneighborsFromScores (scores : gomap F) (n : Z)
    : result (list (neighbor F)) :=
  h ← heap_Init [];
  h ← foldM (topN_offer n) scores h;
  let res := replicate (length h) {| id := 0; score := fzero |} in
  st ← foldM topN_drain (rev (seq 0 (length res))) (h, res);
  Ok (snd st).

(** *** Item-based collaborative filtering *)

(** [candidates]: the items of the index that the user has not rated. *)
Definition candidates_of (userRatings : gomap F) (itemIndex : gomap (gomap F))
    : list Z :=
  fold_left (λ candidates e, if mhas userRatings (fst e) then candidates
                             else candidates ++ [fst e])
            itemIndex [].

(** [simScores]: the similarity of [itemV] to every item the user rated. *)
Definition simScores_of (userRatings : gomap F) (itemIndex : gomap (gomap F))
    (itemV : Z) (metric : SimMetric) : gomap F :=
  let vecB := mread_map itemIndex itemV in
  fold_left (λ simScores e,
               let itemU := fst e in
               let vecA := mread_map itemIndex itemU in
               mset simScores itemU (simBetween vecA vecB metric))
            userRatings [].

Definition abs (a : F) : F :=
  if flt a fzero then fneg a else a.

(** Body of the loop of [RecommendItemBased] over [candidates]. *)
Definition RecommendItemBased_candidate (userRatings : gomap F)
    (itemIndex : gomap (gomap F)) (metric : SimMetric) (neighborK : Z)
    (scores : gomap F) (itemV : Z) : result (gomap F) :=
  let simScores := simScores_of userRatings itemIndex itemV metric in
  neighbors ←
    (if neighborK >? 0 then topNneighborsFromScores simScores neighborK
     else Ok (fold_left (λ neighbors e,
                           neighbors ++ [{| id := fst e; score := snd e |}])
                        simScores []));
  let '(num, den) :=
    fold_left (λ st nb,
                 let r := mread userRatings (id nb) in
                 (fadd (fst st) (fmul (score nb) r),
                  fadd (snd st) (abs (score nb))))
              neighbors (fzero, fzero) in
  if negb (feq den fzero) then Ok (mset scores itemV (fdiv num den))
  else Ok (mset scores itemV fzero).

Definition RecommendItemBased (ds : Dataset F) (user : Z) (topK : Z)
    (metric : SimMetric) (neighborK : Z) : result (list (ItemScore F)) :=
  match mget (UserRatings ds) user with
  | None => Ok []
  | Some userRatings =>
      let itemIndex := BuildItemIndex ds in
      let candidates := candidates_of userRatings itemIndex in
      scores ← foldM (RecommendItemBased_candidate userRatings itemIndex
                        metric neighborK) candidates [];
      topKFromMap scores topK
  end.

(** *** User-based collaborative filtering *)

(** Body of the loop that fills [userSims]; both [continue] statements end
    the iteration with the state they find. *)
Definition RecommendUserBased_sims (user : Z) (targetRatings : gomap F)
    (metric : SimMetric) (userSims : gomap F) (e : Z * gomap F) : gomap F :=
  let '(other, ratings) := e in
  if Z.eqb other user then userSims
  else
    let userSims := mset userSims other (simBetween targetRatings ratings metric) in
    if flt (mread userSims other) fthreshold then userSims
    else userSims.

Definition candidatesMap_of (ds : Dataset F) (targetRatings : gomap F)
    (neighbors : list (neighbor F)) : gomap unit :=
  fold_left (λ candidatesMap nb,
               let other := id nb in
               fold_left (λ candidatesMap e,
                            if mhas targetRatings (fst e) then candidatesMap
                            else mset candidatesMap (fst e) tt)
                         (mread_map (UserRatings ds) other) candidatesMap)
            neighbors [].

(** Body of the loop of [RecommendUserBased] over [candidates]. *)
Definition RecommendUserBased_candidate (ds : Dataset F)
    (neighbors : list (neighbor F)) (scores : gomap F) (it : Z) : gomap F :=
  let '(num, den) :=
    fold_left (λ st nb,
                 let other := id nb in
                 let sim := score nb in
                 match mget (mread_map (UserRatings ds) other) it with
                 | Some r => (fadd (fst st) (fmul sim r), fadd (snd st) (abs sim))
                 | None => st
                 end)
              neighbors (fzero, fzero) in
  if negb (feq den fzero) then mset scores it (fdiv num den)
  else mset scores it fzero.

(** [RecommendUserBased] from the end of its first loop on. *)
Definition RecommendUserBased_rest (ds : Dataset F) (targetRatings : gomap F)
    (topK neighborK : Z) (userSims : gomap F) : result (list (ItemScore F)) :=
  neighbors ← topNneighborsFromScores userSims neighborK;
  if Nat.eqb (length neighbors) 0 then Ok []
  else
    let candidatesMap := candidatesMap_of ds targetRatings neighbors in
    let candidates := fold_left (λ c e, c ++ [fst e]) candidatesMap [] in
    let scores := fold_left (RecommendUserBased_candidate ds neighbors)
                            candidates [] in
    topKFromMap scores topK.

Definition RecommendUserBased (ds : Dataset F) (user : Z) (topK : Z)
    (metric : SimMetric) (neighborK : Z) : result (list (ItemScore F)) :=
  match mget (UserRatings ds) user with
  | None => Ok []
  | Some targetRatings =>
      let userSims := fold_left (RecommendUserBased_sims user targetRatings metric)
                                (UserRatings ds) [] in
      RecommendUserBased_rest ds targetRatings topK neighborK userSims
  end.

(** The variant of [RecommendUserBased] in which the test of the similarity
    against the threshold is removed from the first loop. *)
Definition RecommendUserBased_sims_no_threshold (user : Z)
    (targetRatings : gomap F) (metric : SimMetric) (userSims : gomap F)
    (e : Z * gomap F) : gomap F :=
  let '(other, ratings) := e in
  if Z.eqb other user then userSims
  else mset userSims other (simBetween targetRatings ratings metric).

Definition RecommendUserBased_no_threshold (ds : Dataset F) (user : Z)
    (topK : Z) (metric : SimMetric) (neighborK : Z)
    : result (list (ItemScore F)) :=
  match mget (UserRatings ds) user with
  | None => Ok []
  | Some targetRatings =>
      let userSims :=
        fold_left (RecommendUserBased_sims_no_threshold user targetRatings metric)
                  (UserRatings ds) [] in
      RecommendUserBased_rest ds targetRatings topK neighborK userSims
  end.

(** *** The parallel item-based recommender *)

Definition scoreItem (ds : Dataset F) (userRatings : gomap F)
    (itemIndex : gomap (gomap F)) (itemV : Z) (metric : SimMetric)
    (neighborK : Z) : result F :=
  let simScores := simScores_of userRatings itemIndex itemV metric in
  neighbors ← topNneighborsFromScores simScores neighborK;
  let '(num, den) :=
    fold_left (λ st nb,
                 let r := mread userRatings (id nb) in
                 (fadd (fst st) (fmul (score nb) r),
                  if flt (score nb) fzero then fsub (snd st) (score nb)
                  else fadd (snd st) (score nb)))
              neighbors (fzero, fzero) in
  if feq den fzero then Ok fzero
  else Ok (fdiv num den).

(** The slice handed to worker [w]. *)
Definition worker_slice (candidates : list Z) (chunk : Z) (w : Z)
    : result (list Z) :=
  let start := w * chunk in
  let end_ := start + chunk in
  let end_ := if end_ >? Z.of_nat (length candidates)
              then Z.of_nat (length candidates) else end_ in
  slice candidates start end_.

(** Body of the loop of a worker: [partial[itemV] = scoreItem(...)]. *)
Definition score_step (ds : Dataset F) (userRatings : gomap F)
    (itemIndex : gomap (gomap F)) (metric : SimMetric) (neighborK : Z)
    (partial : gomap F) (itemV : Z) : result (gomap F) :=
  sc ← scoreItem ds userRatings itemIndex itemV metric neighborK;
  Ok (mset partial itemV sc).

(** The goroutine of one worker: its [partial] map. *)
Definition worker_partial (ds : Dataset F) (userRatings : gomap F)
    (itemIndex : gomap (gomap F)) (metric : SimMetric) (neighborK : Z)
    (slice : list Z) : result (gomap F) :=
  foldM (score_step ds userRatings itemIndex metric neighborK) slice [].

(** [chunk := len(candidates) / workers; if chunk == 0 { chunk = 1 }], for
    [workers] other than 0. *)
Definition chunk_of (len workers : Z) : Z :=
  let chunk := Z.quot len workers in
  if Z.eqb chunk 0 then 1 else chunk.

(** The slices of the [workers] goroutines, in the order of their start.
    The division panics when [workers] is 0, and [make(chan ..., workers)]
    when it is negative. *)
Definition worker_slices (candidates : list Z) (workers : Z)
    : result (list (list Z)) :=
  if Z.eqb workers 0 then Panic integer_divide_by_zero
  else
    let chunk := chunk_of (Z.of_nat (length candidates)) workers in
    if workers <? 0 then Panic makechan_size_out_of_range
    else
      foldM (λ slices w, s ← worker_slice candidates chunk (Z.of_nat w);
                         Ok (slices ++ [s]))
            (seq 0 (Z.to_nat workers)) [].

(** The merge loop; the partial maps are received in the order of the
    workers, one of the orders in which they can arrive. *)
Definition merge_partials (partials : list (gomap F)) : gomap F :=
  fold_left (λ scores part,
               fold_left (λ scores e, mset scores (fst e) (snd e)) part scores)
            partials [].

Definition RecommendItemBasedParallel (ds : Dataset F) (user : Z) (topK : Z)
    (metric : SimMetric) (neighborK : Z) (workers : Z)
    : result (list (ItemScore F)) :=
  match mget (UserRatings ds) user with
  | None => Ok []
  | Some userRatings =>
      let itemIndex := BuildItemIndex ds in
      let candidates := candidates_of userRatings itemIndex in
      slices ← worker_slices candidates workers;
      partials ← foldM (λ partials s,
                          part ← worker_partial ds userRatings itemIndex
                                   metric neighborK s;
                          Ok (partials ++ [part]))
                       slices [];
      topKFromMap (merge_partials partials) topK
  end.

End Recommender.

(** ** Package algorithms: the similarity matrices

    The eight builders of the package are four copies of one sequential
    text and four copies of one concurrent text, which differ in the
    similarity function they call; the embedding has the two texts once,
    with that function as [sim]. *)

Section Matrices.
Context {F : Type} `{Float64 F}.

(** [[][]float64] *)
Abbreviation matrix := (list (list F)).

(** [M[i][j] = v] *)
Definition mat_set (M : matrix) (i j : nat) (v : F) : result matrix :=
  row ← index M i;
  if Nat.ltb j (length row) then Ok (<[i := <[j := v]> row]> M)
  else Panic index_out_of_range.

(** [M[i][j]] *)
Definition mat_get (M : matrix) (i j : nat) : result F :=
  row ← index M i;
  index row j.

(** [make([][]float64, n)] and the allocation of its rows. *)
Definition alloc_rows (n : nat) : matrix :=
  fold_left (λ M i, <[i := replicate n fzero]> M) (seq 0 n) (replicate n []).

(** One comparison and its two symmetric writes. *)
Definition write_pair (sim : User F → User F → result F) (users : list (User F))
    (M : matrix) (ij : nat * nat) : result matrix :=
  let '(i, j) := ij in
  ui ← index users i;
  uj ← index users j;
  s ← sim ui uj;
  M ← mat_set M i j s;
  mat_set M j i s.

(** Body of the outer loop of the sequential builders. *)
Definition sequential_row (sim : User F → User F → result F)
    (users : list (User F)) (n : nat) (M : matrix) (i : nat) : result matrix :=
  M ← mat_set M i i fone;
  foldM (λ M j, write_pair sim users M (i, j)) (seq (i + 1) (n - (i + 1))) M.

Definition similarity_sequential (sim : User F → User F → result F)
    (users : list (User F)) : result matrix :=
  let n := length users in
  foldM (sequential_row sim users n) (seq 0 n) (alloc_rows n).

(** [min] of cosine.go. *)
Definition min_int (a b : Z) : Z := if a <? b then a else b.

(** The jobs in the order in which they are sent. *)
Definition jobs (n : nat) : list (nat * nat) :=
  flat_map (λ i, map (pair i) (seq (i + 1) (n - (i + 1)))) (seq 0 n).

(** The first loop of the concurrent builders: a row is allocated and its
    diagonal entry set. *)
Definition concurrent_init (n : nat) : result matrix :=
  foldM (λ M i, mat_set (<[i := replicate n fzero]> M) i i fone)
        (seq 0 n) (replicate n []).

Definition CosineSequential (users : list (User F)) : result matrix :=
  similarity_sequential (λ u1 u2, Ok (cosineSimilarity u1 u2)) users.

Definition PearsonSequential (users : list (User F)) : result matrix :=
  similarity_sequential pearsonCorrelation users.

Definition JaccardSequential (users : list (User F)) : result matrix :=
  similarity_sequential (λ u1 u2, Ok (jaccardIndex u1 u2)) users.

Definition JaccardWeightedSequential (users : list (User F)) : result matrix :=
  similarity_sequential (λ u1 u2, Ok (JaccardWeighted u1 u2)) users.

End Matrices.

(** ** Package algorithms: the concurrent builders

    The four concurrent builders are copies of one text: the calling
    goroutine starts [numWorkers] workers, a goroutine that sends the jobs
    and closes their channel, and a goroutine that closes the channel of
    the results once the workers are done, and then stores the results as
    they arrive.  The goroutines are embedded as a transition system: a
    state of the builder, and the steps that its goroutines can take in it;
    a schedule is a sequence of such steps. *)

(** The value of an [int], 64 bits wide, after an operation whose exact
    result is [z]: the result wraps around. *)
Definition wrap64 (z : Z) : Z := (z + 2 ^ 63) mod 2 ^ 64 - 2 ^ 63.

(** [make(chan T, size)] for an element type of [elem] bytes, as [makechan]
    of the runtime (chan.go) does it on a 64-bit platform whose heap has 48
    address bits: the size is not negative, and the buffer fits
    [maxAlloc - hchanSize]. *)
Definition maxAlloc : Z := 2 ^ 48.
Definition hchanSize : Z := 96.

Definition makechan (elem size : Z) : result unit :=
  if (size <? 0) || (maxAlloc - hchanSize <? elem * size)
  then Panic makechan_size_out_of_range
  else Ok tt.

(** A channel: its buffer, oldest element first, and whether it is
    closed. *)
Record chan (A : Type) : Type := { buf : list A; closed : bool }.
Arguments buf {A} c.
Arguments closed {A} c.

(** A worker goroutine: at the head of its loop [for j := range jobs], at
    the statement [results <- result{j.i, j.j, sim}], or after its
    [wg.Done()]. *)
Inductive worker (F : Type) : Type :=
| Receiving
| Sending (i j : nat) (sim : F)
| Exited.

Arguments Receiving {F}.
Arguments Sending {F} i j sim.
Arguments Exited {F}.

(** The calling goroutine: in the loop of [w] that starts the workers, at
    the [go] statement of the sender of the jobs, at the [go] statement of
    the goroutine that closes the results, in the loop that collects the
    results, and after it. *)
Inductive caller : Type :=
| StartWorkers (w : Z)
| StartSender
| StartCloser
| Collecting
| Returned.

(** The state of a concurrent builder after its channels are made.
    [sender] is the list of the jobs that the sender has still to send,
    once it is started; [closer] tells whether the goroutine of
    [wg.Wait(); close(results)] is started. *)
Record builder (F : Type) : Type := {
  main : caller;
  workers : list (worker F);
  wg : Z;
  sender : option (list (nat * nat));
  closer : bool;
  jobs_chan : chan (nat * nat);
  results_chan : chan (nat * nat * F);
  similarity : list (list F)
}.

Arguments main {F} b.
Arguments workers {F} b.
Arguments wg {F} b.
Arguments sender {F} b.
Arguments closer {F} b.
Arguments jobs_chan {F} b.
Arguments results_chan {F} b.
Arguments similarity {F} b.

Section Concurrent.
Context {F : Type} `{Float64 F}.

(** [bufferSize := min(totalComparisons, numWorkers*100)] *)
Definition bufferSize (n : nat) (numWorkers : Z) : Z :=
  let totalComparisons := Z.quot (wrap64 (Z.of_nat n * (Z.of_nat n - 1))) 2 in
  min_int totalComparisons (wrap64 (numWorkers * 100)).

Definition set_main (m : caller) (s : builder F) : builder F :=
  {| main := m; workers := workers s; wg := wg s; sender := sender s;
     closer := closer s; jobs_chan := jobs_chan s;
     results_chan := results_chan s; similarity := similarity s |}.

Definition set_workers (ws : list (worker F)) (g : Z) (s : builder F) : builder F :=
  {| main := main s; workers := ws; wg := g; sender := sender s;
     closer := closer s; jobs_chan := jobs_chan s;
     results_chan := results_chan s; similarity := similarity s |}.

Definition set_sender (l : list (nat * nat)) (s : builder F) : builder F :=
  {| main := main s; workers := workers s; wg := wg s; sender := Some l;
     closer := closer s; jobs_chan := jobs_chan s;
     results_chan := results_chan s; similarity := similarity s |}.

Definition set_closer (s : builder F) : builder F :=
  {| main := main s; workers := workers s; wg := wg s; sender := sender s;
     closer := true; jobs_chan := jobs_chan s;
     results_chan := results_chan s; similarity := similarity s |}.

Definition set_jobs (c : chan (nat * nat)) (s : builder F) : builder F :=
  {| main := main s; workers := workers s; wg := wg s; sender := sender s;
     closer := closer s; jobs_chan := c;
     results_chan := results_chan s; similarity := similarity s |}.

Definition set_results (c : chan (nat * nat * F)) (s : builder F) : builder F :=
  {| main := main s; workers := workers s; wg := wg s; sender := sender s;
     closer := closer s; jobs_chan := jobs_chan s;
     results_chan := c; similarity := similarity s |}.

Definition set_similarity (M : list (list F)) (s : builder F) : builder F :=
  {| main := main s; workers := workers s; wg := wg s; sender := sender s;
     closer := closer s; jobs_chan := jobs_chan s;
     results_chan := results_chan s; similarity := M |}.

(** What a goroutine does next.  A send into a buffer with room and a
    receive from a buffer that is not empty are steps of one goroutine; on
    an empty buffer a sender hands its value to a goroutine that is
    receiving, in one step of the two.  A send on a closed channel
    panics. *)
Inductive action : Type :=
| Call                    (* the calling goroutine *)
| CallTakes (k : nat)     (* it receives the result that worker [k] sends *)
| Send                    (* the sender of the jobs *)
| SendTo (k : nat)        (* it hands a job to worker [k] *)
| Work (k : nat)          (* worker [k] *)
| Close.                  (* [wg.Wait(); close(results)] *)

Variable sim : User F → User F → result F.
Variable users : list (User F).
Variable numWorkers : Z.

(** [sim := f(users[j.i], users[j.j])] in a worker. *)
Definition compute (i j : nat) : result F :=
  ui ← index users i;
  uj ← index users j;
  sim ui uj.

(** [similarity[res.i][res.j] = res.sim; similarity[res.j][res.i] = res.sim] *)
Definition store (M : list (list F)) (i j : nat) (v : F) : result (list (list F)) :=
  M ← mat_set M i j v;
  mat_set M j i v.

(** The steps of the goroutines of a concurrent builder; [None] when the
    goroutine cannot take the step in the state, [Some (Panic _)] when the
    step panics, which ends the program. *)
Definition concurrent_exec (a : action) (s : builder F)
    : option (result (builder F)) :=
  let cap := bufferSize (length users) numWorkers in
  match a with
  | Call =>
      match main s with
      | StartWorkers w =>
          if w <? numWorkers
          then Some (Ok (set_main (StartWorkers (w + 1))
                           (set_workers (workers s ++ [Receiving]) (wg s + 1) s)))
          else Some (Ok (set_main StartSender s))
      | StartSender =>
          Some (Ok (set_main StartCloser (set_sender (jobs (length users)) s)))
      | StartCloser => Some (Ok (set_main Collecting (set_closer s)))
      | Collecting =>
          match buf (results_chan s) with
          | (i, j, v) :: rest =>
              Some (M ← store (similarity s) i j v;
                    Ok (set_similarity M
                          (set_results {| buf := rest;
                                          closed := closed (results_chan s) |} s)))
          | [] => if closed (results_chan s)
                  then Some (Ok (set_main Returned s)) else None
          end
      | Returned => None
      end
  | CallTakes k =>
      match main s, buf (results_chan s), workers s !! k with
      | Collecting, [], Some (Sending i j v) =>
          if closed (results_chan s) then None
          else Some (M ← store (similarity s) i j v;
                     Ok (set_similarity M
                           (set_workers (<[k := Receiving]> (workers s)) (wg s) s)))
      | _, _, _ => None
      end
  | Send =>
      match sender s with
      | Some (job :: rest) =>
          if closed (jobs_chan s) then Some (Panic send_on_closed_channel)
          else if Z.of_nat (length (buf (jobs_chan s))) <? cap
          then Some (Ok (set_sender rest
                           (set_jobs {| buf := buf (jobs_chan s) ++ [job];
                                        closed := closed (jobs_chan s) |} s)))
          else None
      | Some [] =>
          if closed (jobs_chan s) then None
          else Some (Ok (set_jobs {| buf := buf (jobs_chan s); closed := true |} s))
      | None => None
      end
  | SendTo k =>
      match sender s, buf (jobs_chan s), workers s !! k with
      | Some ((i, j) :: rest), [], Some Receiving =>
          if closed (jobs_chan s) then None
          else Some (v ← compute i j;
                     Ok (set_sender rest
                           (set_workers (<[k := Sending i j v]> (workers s)) (wg s) s)))
      | _, _, _ => None
      end
  | Work k =>
      match workers s !! k with
      | Some Receiving =>
          match buf (jobs_chan s) with
          | (i, j) :: rest =>
              Some (v ← compute i j;
                    Ok (set_workers (<[k := Sending i j v]> (workers s)) (wg s)
                          (set_jobs {| buf := rest;
                                       closed := closed (jobs_chan s) |} s)))
          | [] =>
              if closed (jobs_chan s)
              then Some (Ok (set_workers (<[k := Exited]> (workers s)) (wg s - 1) s))
              else None
          end
      | Some (Sending i j v) =>
          if closed (results_chan s) then Some (Panic send_on_closed_channel)
          else if Z.of_nat (length (buf (results_chan s))) <? cap
          then Some (Ok (set_workers (<[k := Receiving]> (workers s)) (wg s)
                           (set_results {| buf := buf (results_chan s) ++ [(i, j, v)];
                                           closed := closed (results_chan s) |} s)))
          else None
      | _ => None
      end
  | Close =>
      if closer s && (wg s =? 0) && negb (closed (results_chan s))
      then Some (Ok (set_results {| buf := buf (results_chan s); closed := true |} s))
      else None
  end.

(** The statements of a concurrent builder before its first [go]: the
    matrix and its diagonal, and the two channels, of jobs of 16 bytes and
    of results of 24 bytes. *)
Definition concurrent_start : result (builder F) :=
  M ← concurrent_init (length users);
  let cap := bufferSize (length users) numWorkers in
  _ ← makechan 16 cap;
  _ ← makechan 24 cap;
  Ok {| main := StartWorkers 0; workers := []; wg := 0; sender := None;
        closer := false;
        jobs_chan := {| buf := []; closed := false |};
        results_chan := {| buf := []; closed := false |};
        similarity := M |}.

End Concurrent.

(** A program of several goroutines: the state in which it starts, if
    its first statements do not panic, and the steps of its goroutines. *)
Record program (S A : Type) : Type := {
  start : result S;
  next : A → S → option (result S)
}.
Arguments start {S A} p.
Arguments next {S A} p.

(** One step of a goroutine under some schedule; a program that has
    panicked has no step. *)
Definition step {S A : Type} (p : program S A) : relation (result S) :=
  λ c c', ∃ a s, c = Ok s ∧ next p a s = Some c'.

(** The outcome of the steps [schedule], if they can be taken in this
    order. *)
Fixpoint run {S A : Type} (p : program S A) (schedule : list A) (c : result S)
    : option (result S) :=
  match schedule, c with
  | [], _ => Some c
  | a :: schedule, Ok s =>
      match next p a s with
      | Some c' => run p schedule c'
      | None => None
      end
  | _ :: _, _ => None
  end.

Section Builders.
Context {F : Type} `{Float64 F}.

Definition similarity_concurrent (sim : User F → User F → result F)
    (users : list (User F)) (numWorkers : Z) : program (builder F) action :=
  {| start := concurrent_start users numWorkers;
     next := concurrent_exec sim users numWorkers |}.

Definition CosineConcurrent (users : list (User F)) (numWorkers : Z) :=
  similarity_concurrent (λ u1 u2, Ok (cosineSimilarity u1 u2)) users numWorkers.

Definition PearsonConcurrent (users : list (User F)) (numWorkers : Z) :=
  similarity_concurrent pearsonCorrelation users numWorkers.

Definition JaccardConcurrent (users : list (User F)) (numWorkers : Z) :=
  similarity_concurrent (λ u1 u2, Ok (jaccardIndex u1 u2)) users numWorkers.

Definition JaccardWeightedConcurrent (users : list (User F)) (numWorkers : Z) :=
  similarity_concurrent (λ u1 u2, Ok (JaccardWeighted u1 u2)) users numWorkers.

End Builders.

(** The target has no observed rating: it has no entry in the dataset, or
    its entry is empty. *)
Definition rated_nothing {F} (ds : Dataset F) (user : Z) : Prop :=
  match mget (UserRatings ds) user with
  | None => True
  | Some userRatings => userRatings = []
  end.

(** ** Notions used by the statements *)



(** What the statements on vectors of zeros and on vectors without entries
    use of the arithmetic: [0 == 0], the square root of 0 is 0, and adding
    the square of a zero to 0 gives 0.  Binary64 and exact arithmetic have
    the three. *)
Class ZeroLaws (F : Type) `{Float64 F} : Prop := {
  feq_zero : feq fzero fzero = true;
  fsqrt_zero : fsqrt fzero = fzero;
  square_zero : ∀ x, feq x fzero = true → fadd fzero (fmul x x) = fzero
}.

(** No two distinct keys occur in both key lists. *)
Definition fewer_than_two_common (ka kb : list Z) : Prop :=
  ∀ k1 k2, k1 ∈ ka → k1 ∈ kb → k2 ∈ ka → k2 ∈ kb → k1 = k2.


(** The entry of [M] at row [i] and column [j], if there is one. *)
Definition cell {F} (M : list (list F)) (i j : nat) : option F :=
  match M !! i with
  | Some row => row !! j
  | None => None
  end.

Definition shaped {F} (n : nat) (M : list (list F)) : Prop :=
  length M = n ∧ ∀ i row, M !! i = Some row → length row = n.

Definition symmetric {F} (M : list (list F)) : Prop :=
  ∀ i j, cell M i j = cell M j i.

Definition unit_diagonal {F} `{Float64 F} (k : nat) (M : list (list F)) : Prop :=
  ∀ i, (i < k)%nat → cell M i i = Some fone.

(** The three properties, kept by the writes of the builders. *)
Definition matrix_inv {F} `{Float64 F} (n k : nat) (M : list (list F)) : Prop :=
  shaped n M ∧ symmetric M ∧ unit_diagonal k M.

(** The state of the first loop of the concurrent builders before its
    iteration [k]. *)
Definition init_inv {F} `{Float64 F} (n k : nat) (M : list (list F)) : Prop :=
  length M = n
  ∧ (∀ i, (i < k)%nat → M !! i = Some (<[i := fone]> (replicate n fzero)))
  ∧ (∀ i, (k ≤ i < n)%nat → M !! i = Some []).

(** The builder returns under every schedule, and the matrix that it
    returns satisfies [P]: the runs are of bounded length, none of them
    panics, before the calling goroutine returns some goroutine can always
    take a step, and [P] holds of the matrix at the return. *)
Definition always_returns {F} `{Float64 F} (p : program (builder F) action)
    (P : list (list F) → Prop) : Prop :=
  (∃ N, ∀ k c, nsteps (step p) k (start p) c → (k ≤ N)%nat)
  ∧ ∀ c, rtc (step p) (start p) c →
      ∃ s, c = Ok s
           ∧ (main s = Returned → P (similarity s))
           ∧ (main s ≠ Returned → ∃ c', step p c c').

(** A size that [make] accepts for the two channels of a builder. *)
Definition chan_size_ok (size : Z) : Prop :=
  0 ≤ size ∧ 24 * size ≤ maxAlloc - hchanSize.

(** The matrix of the first loop of a concurrent builder: 1 on the
    diagonal and 0 elsewhere. *)
Definition unit_matrix {F} `{Float64 F} (n : nat) (M : list (list F)) : Prop :=
  length M = n
  ∧ ∀ i j, (i < n)%nat → (j < n)%nat →
           mat_get M i j = Ok (if decide (i = j) then fone else fzero).

Section ConcurrentNotions.
Context {F : Type} `{Float64 F}.
Variable sim : User F → User F → result F.
Variable users : list (User F).
Variable numWorkers : Z.

(** The job that a worker holds. *)
Definition job_of (w : worker F) : list (nat * nat) :=
  match w with Sending i j _ => [(i, j)] | _ => [] end.

Definition held (ws : list (worker F)) : list (nat * nat) := ws ≫= job_of.

Definition alive (w : worker F) : nat :=
  match w with Exited => 0 | _ => 1 end.

(** The workers that have not called [wg.Done()]. *)
Definition live (ws : list (worker F)) : nat := sum_list_with alive ws.

(** The jobs that the sender has not sent. *)
Definition unsent (s : builder F) : list (nat * nat) :=
  match sender s with None => jobs (length users) | Some l => l end.

(** The jobs on their way from the sender to the matrix. *)
Definition in_flight (s : builder F) : list (nat * nat) :=
  (fst <$> buf (results_chan s)) ++ held (workers s)
  ++ buf (jobs_chan s) ++ unsent s.

Definition computed (w : worker F) : Prop :=
  match w with Sending i j v => compute sim users i j = Ok v | _ => True end.

Definition not_exited (w : worker F) : Prop :=
  match w with Exited => False | _ => True end.

Definition exited (w : worker F) : Prop :=
  match w with Exited => True | _ => False end.

(** The number of workers that the builder starts. *)
Definition started : Z := Z.max 0 numWorkers.

Definition phase (s : builder F) : Prop :=
  match main s with
  | StartWorkers w =>
      0 ≤ w ≤ started ∧ Z.of_nat (length (workers s)) = w
      ∧ sender s = None ∧ closer s = false
  | StartSender =>
      Z.of_nat (length (workers s)) = started
      ∧ sender s = None ∧ closer s = false
  | StartCloser =>
      Z.of_nat (length (workers s)) = started
      ∧ sender s ≠ None ∧ closer s = false
  | Collecting =>
      Z.of_nat (length (workers s)) = started
      ∧ sender s ≠ None ∧ closer s = true
  | Returned =>
      Z.of_nat (length (workers s)) = started
      ∧ sender s ≠ None ∧ closer s = true
      ∧ closed (results_chan s) = true ∧ buf (results_chan s) = []
  end.

(** What holds of every state of a builder: [applied] are the jobs whose
    results the calling goroutine has stored, in the order in which it
    received them. *)
Record builder_inv (M0 : list (list F)) (applied : list (nat * nat))
    (s : builder F) : Prop := {
  inv_matrix : foldM (write_pair sim users) applied M0 = Ok (similarity s);
  inv_jobs : jobs (length users) ≡ₚ applied ++ in_flight s;
  inv_results : Forall (λ r, compute sim users r.1.1 r.1.2 = Ok r.2) (buf (results_chan s));
  inv_workers : Forall computed (workers s);
  inv_wg : wg s = Z.of_nat (live (workers s));
  inv_phase : phase s;
  inv_sender : closed (jobs_chan s) = true → sender s = Some [];
  inv_exit : (closed (jobs_chan s) = true ∧ buf (jobs_chan s) = [])
             ∨ Forall not_exited (workers s);
  inv_close : closed (results_chan s) = true →
              closer s = true ∧ Forall exited (workers s);
  inv_none : workers s = [] → applied = [] ∧ buf (results_chan s) = []
}.

(** The work that is left. *)
Definition caller_weight (m : caller) : nat :=
  match m with
  | StartWorkers w => 2 * Z.to_nat (started - w) + 4
  | StartSender => 3
  | StartCloser => 2
  | Collecting => 1
  | Returned => 0
  end.

Definition open_weight {A} (c : chan A) : nat := if closed c then 0 else 1.

Definition weight (s : builder F) : nat :=
  caller_weight (main s)
  + 4 * length (unsent s) + 3 * length (buf (jobs_chan s))
  + 2 * length (held (workers s)) + length (buf (results_chan s))
  + open_weight (jobs_chan s) + open_weight (results_chan s)
  + live (workers s).

End ConcurrentNotions.

(** The order of the scores: among the values of [valid], [<] is a strict
    weak order.  It is one on every real number, and on every float64 that
    is not a NaN. *)
Class ScoreOrder (F : Type) `{Float64 F} (valid : F → Prop) : Prop := {
  flt_asym : ∀ x y, valid x → valid y → flt x y = true → flt y x = false;
  flt_negtrans : ∀ x y z, valid x → valid y → valid z →
    flt x y = false → flt y z = false → flt x z = false
}.

(** [x == x], which fails of the NaN only. *)
Definition not_nan (x : PrimFloat.float) : Prop := PrimFloat.eqb x x = true.

(** [x] is not above [y]: the score of [y] is not less than that of [x]. *)
Definition nle {F} `{Float64 F} (x y : neighbor F) : Prop :=
  flt (score y) (score x) = false.

(** The heap order at the positions below [n]: no element is less than its
    parent. *)
Definition heap_upto {F} `{Float64 F} (n : nat) (h : minHeap F) : Prop :=
  ∀ k x y, (0 < k < n)%nat → h !! k = Some x → h !! ((k - 1) / 2)%nat = Some y →
           nle y x.

Definition is_heap {F} `{Float64 F} (h : minHeap F) : Prop :=
  heap_upto (length h) h.

(** The state of [up] at position [j]: the heap order holds except between
    [j] and its parent, and the children of [j] are not less than the
    parent of [j]. *)
Definition up_inv {F} `{Float64 F} (j : nat) (h : minHeap F) : Prop :=
  (∀ k x y, (0 < k)%nat → k ≠ j →
            h !! k = Some x → h !! ((k - 1) / 2)%nat = Some y → nle y x)
  ∧ (∀ k x y, (0 < j)%nat → (0 < k)%nat → ((k - 1) / 2)%nat = j →
              h !! k = Some x → h !! ((j - 1) / 2)%nat = Some y → nle y x).

(** The state of [down] at position [i]: below [n] the heap order holds
    except between [i] and its children, which are not less than the parent
    of [i]. *)
Definition down_inv {F} `{Float64 F} (i n : nat) (h : minHeap F) : Prop :=
  (∀ k x y, (0 < k < n)%nat → ((k - 1) / 2)%nat ≠ i →
            h !! k = Some x → h !! ((k - 1) / 2)%nat = Some y → nle y x)
  ∧ (∀ k x y, (0 < i)%nat → (0 < k < n)%nat → ((k - 1) / 2)%nat = i →
              h !! k = Some x → h !! ((i - 1) / 2)%nat = Some y → nle y x).

(** The candidates of a score map, as the selector sees them. *)
Definition neighbors_of {F} (scores : gomap F) : list (neighbor F) :=
  (λ e, {| id := fst e; score := snd e |}) <$> scores.

(** A sequence of neighbours in descending order of score: no element is
    less than one that comes after it. *)
Definition sorted_desc {F} `{Float64 F} (l : list (neighbor F)) : Prop :=
  StronglySorted (λ x y, flt (score x) (score y) = false) l.

(** [top] holds the best of [all]: [all] is [top] and a remainder, and no
    element of the remainder has a score greater than one of [top]. *)
Definition best_of {F} `{Float64 F} (all top : list (neighbor F)) : Prop :=
  ∃ rest, all ≡ₚ top ++ rest
          ∧ ∀ r c, r ∈ top → c ∈ rest → flt (score r) (score c) = false.

(** A neighbour whose score is among the values that [<] orders. *)
Definition nvalid {F} (valid : F → Prop) (x : neighbor F) : Prop :=
  valid (score x).

(** The heap of the selector after the candidates [seen] have been
    offered. *)
Definition topN_inv {F} `{Float64 F} (valid : F → Prop) (n : Z)
    (seen : list (neighbor F)) (h : minHeap F) : Prop :=
  is_heap h ∧ Forall (nvalid valid) h
  ∧ length h = Nat.min (Z.to_nat n) (length seen)
  ∧ best_of seen h.

(** The state of the draining loop when [m] elements are left in the
    heap: the positions of [res] from [m] on are filled. *)
Definition drain_inv {F} `{Float64 F} (valid : F → Prop)
    (all : list (neighbor F)) (m : nat)
    (st : minHeap F * list (neighbor F)) : Prop :=
  is_heap (fst st) ∧ Forall (nvalid valid) (fst st)
  ∧ length (fst st) = m ∧ (m ≤ length (snd st))%nat
  ∧ sorted_desc (drop m (snd st))
  ∧ all ≡ₚ fst st ++ drop m (snd st)
  ∧ ∀ x d, x ∈ fst st → d ∈ drop m (snd st) → nle d x.

(** ** Package ml: dataset.go *)

(** Go strings, as their bytes. *)
Abbreviation gostring := (list Byte.byte).

(** [csv.Reader.Read] returns a record or an error; the end of the file is
    the error [io.EOF].  A file is read as the list of the results of the
    successive reads before its end: [Some record], or [None] for a read
    that fails. *)
Abbreviation csv_reads := (list (option (list gostring))).

(** The records that a loop of reads gets before it breaks on the first
    error. *)
Fixpoint records_until_error (reads : csv_reads) : list (list gostring) :=
  match reads with
  | Some record :: reads' => record :: records_until_error reads'
  | _ => []
  end.

Section LoadDataset.
Context {F : Type} `{Float64 F}.

(** The values that [strconv.Atoi] and [strconv.ParseFloat] return; the
    loader drops their errors. *)
Variable Atoi : gostring → Z.
Variable ParseFloat : gostring → F.

(** Body of the loop of [LoadDataset] for a record that was read. *)
Definition LoadDataset_row (ds : Dataset F) (row : list gostring) : Dataset F :=
  match row with
  | r0 :: r1 :: r2 :: _ =>
      let uid := Atoi r0 in
      let mid := Atoi r1 in
      let raw := ParseFloat r2 in
      let rating := fdiv raw (fof_int 5) in
      let userRatings :=
        if mhas (UserRatings ds) uid then UserRatings ds
        else mset (UserRatings ds) uid [] in
      let userRatings :=
        mset userRatings uid (mset (mread_map userRatings uid) mid rating) in
      {| UserRatings := userRatings;
         Users := if uid >? Users ds then uid else Users ds;
         Movies := if mid >? Movies ds then mid else Movies ds |}
  | _ => ds                                   (* len(row) < 3 *)
  end.

(** The dataset after the loop over the records [rows]. *)
Definition LoadDataset_rows (rows : list (list gostring)) : Dataset F :=
  fold_left LoadDataset_row rows {| UserRatings := []; Users := 0; Movies := 0 |}.

(** [LoadDataset]; [file] is [None] when the file cannot be opened, and the
    call returns the error.  The result of the first read, the header, is
    dropped, a record or not. *)
Definition LoadDataset (file : option csv_reads) : option (Dataset F) :=
  match file with
  | None => None
  | Some reads => Some (LoadDataset_rows (records_until_error (drop 1 reads)))
  end.

End LoadDataset.

(** ** Program TP: main.go, loadDataset *)

#[export] Instance byte_eq_dec : EqDecision Byte.byte := Strings.Byte.byte_eq_dec.

(** [map[string]*User]: the entries in the order of [range], the users
    pointed to in place of the pointers. *)
Abbreviation userMap F := (list (gostring * User F)).

(** [user, exists := userMap[steamID]] *)
Fixpoint userMap_get {F} (m : userMap F) (k : gostring) : option (User F) :=
  match m with
  | [] => None
  | (k', u) :: m' => if decide (k' = k) then Some u else userMap_get m' k
  end.

(** [userMap[steamID] = &User{...}], and the update of the user that
    [userMap[steamID]] points to. *)
Fixpoint userMap_set {F} (m : userMap F) (k : gostring) (u : User F) : userMap F :=
  match m with
  | [] => [(k, u)]
  | (k', u') :: m' =>
      if decide (k' = k) then (k, u) :: m' else (k', u') :: userMap_set m' k u
  end.

Section loadDataset.
Context {F : Type} `{Float64 F}.

(** [strconv.Atoi] and [strconv.ParseFloat]: [None] when they return an
    error. *)
Variable Atoi : gostring → option Z.
Variable ParseFloat : gostring → option F.

(** Body of the loop of [loadDataset] for a record that was read. *)
Definition loadDataset_record (m : userMap F) (record : list gostring) : userMap F :=
  match record with
  | r0 :: r1 :: r2 :: r3 :: _ =>
      match Atoi r0 with
      | None => m
      | Some appID =>
          let steamID := r1 in
          match ParseFloat r2 with
          | None => m
          | Some playtimeNorm =>
              match ParseFloat r3 with
              | None => m
              | Some rating =>
                  let g := {| PlaytimeNorm := playtimeNorm; Rating := rating |} in
                  match userMap_get m steamID with
                  | Some user =>
                      userMap_set m steamID
                        {| SteamID := SteamID user;
                           Games := mset (Games user) appID g |}
                  | None =>
                      userMap_set m steamID
                        {| SteamID := steamID; Games := [(appID, g)] |}
                  end
              end
          end
      end
  | _ => m                                    (* len(record) < 4 *)
  end.

(** [loadDataset]; [file] is [None] when the file cannot be opened.  The
    three errors are one [None]. *)
Definition loadDataset (file : option csv_reads) : option (list (User F)) :=
  match file with
  | None => None
  | Some [] => None                           (* io.EOF *)
  | Some (None :: _) => None
  | Some (Some header :: reads) =>
      if Z.of_nat (length header) <? 4 then None
      else
        let userMap :=
          fold_left loadDataset_record (records_until_error reads) [] in
        Some (fold_left (λ users e, users ++ [snd e]) userMap [])
  end.

End loadDataset.

(** ** Program TP: main.go, the worker counts

    The worker counts of the benchmark of [main]: those of [2, 4, 8] that
    are not above twice the number of CPUs, and twice that number. *)
Definition adjustedWorkers (numCPU : Z) : list Z :=
  let workerCounts := [2; 4; 8] in
  let maxWorkers := numCPU * 2 in
  let adjustedWorkers :=
    fold_left (λ adjusted w, if w <=? maxWorkers then adjusted ++ [w] else adjusted)
              workerCounts [] in
  adjustedWorkers ++ [maxWorkers].

(** ** Notions used by the further properties *)

(** The items of a ranking in descending order of score. *)
Definition ranked {F} `{Float64 F} (l : list (ItemScore F)) : Prop :=
  StronglySorted (λ x y, flt (Score x) (Score y) = false) l.

(** The items of a score map. *)
Definition items_of {F} (scores : gomap F) : list (ItemScore F) :=
  (λ e, {| MovieID := fst e; Score := snd e |}) <$> scores.

(** [itemIndex[itm][u]], if there is one. *)
Definition index_entry {F} (itemIndex : gomap (gomap F)) (itm u : Z) : option F :=
  mget (mread_map itemIndex itm) u.

(** A dataset stands for the Go value when its maps have no key twice. *)
Definition wf_dataset {F} (ds : Dataset F) : Prop :=
  wf_map (UserRatings ds) ∧ Forall (λ e, wf_map (snd e)) (UserRatings ds).

(** The rating of the last record of [rows] for the user [uid] and the
    item [mid]. *)
Definition last_rating {F} `{Float64 F} (Atoi : gostring → Z)
    (ParseFloat : gostring → F) (rows : list (list gostring)) (uid mid : Z)
    : option F :=
  fold_left (λ found row,
               match row with
               | r0 :: r1 :: r2 :: _ =>
                   if Z.eqb (Atoi r0) uid && Z.eqb (Atoi r1) mid
                   then Some (fdiv (ParseFloat r2) (fof_int 5))
                   else found
               | _ => found
               end) rows None.

(** What the loader establishes: no key twice, no user without a rating,
    and [Users] and [Movies] not below an identifier of the dataset. *)
Definition loaded {F} (ds : Dataset F) : Prop :=
  wf_dataset ds
  ∧ Forall (λ e, snd e ≠ [] ∧ fst e ≤ Users ds
                 ∧ Forall (λ m, m ≤ Movies ds) (mkeys (snd e))) (UserRatings ds)
  ∧ 0 ≤ Users ds ∧ 0 ≤ Movies ds.

(** What the loader establishes for its users: every steam id once, and
    for every user at least one game and no game twice. *)
Definition users_loaded {F} (users : list (User F)) : Prop :=
  NoDup (SteamID <$> users)
  ∧ Forall (λ u, Games u ≠ [] ∧ wf_map (Games u)) users.

(** The state of the loop of [loadDataset]. *)
Definition userMap_inv {F} (m : userMap F) : Prop :=
  NoDup (fst <$> m)
  ∧ Forall (λ e, SteamID (snd e) = fst e ∧ Games (snd e) ≠ []
                 ∧ wf_map (Games (snd e))) m.

(** The matrix holds at [(i, j)] and at [(j, i)] the similarity of the
    users [i] and [j], computed with the user [i] first. *)
Definition pair_written {F} (sim : User F → User F → result F)
    (users : list (User F)) (M : list (list F)) (i j : nat) : Prop :=
  ∀ ui uj s, users !! i = Some ui → users !! j = Some uj → sim ui uj = Ok s →
             cell M i j = Some s ∧ cell M j i = Some s.

(** The matrix that the builders are to return: [n] by [n], with unit
    diagonal, holding the similarity of every pair of users at its two
    places. *)
Definition holds_similarities {F} `{Float64 F} (sim : User F → User F → result F)
    (users : list (User F)) (M : list (list F)) : Prop :=
  matrix_inv (length users) (length users) M
  ∧ ∀ a b, (a < b < length users)%nat → pair_written sim users M a b.

(** For every pair of users [i < j], the entries [(i, j)] and [(j, i)] are
    the similarity of the user [i] and the user [j], in this order. *)
Definition similarity_entries {F} (sim : User F → User F → result F)
    (users : list (User F)) (M : list (list F)) : Prop :=
  ∀ i j ui uj s, (i < j)%nat → users !! i = Some ui → users !! j = Some uj →
                 sim ui uj = Ok s →
                 mat_get M i j = Ok s ∧ mat_get M j i = Ok s.

(** The largest size that [make] accepts for a channel of maps on a 64-bit
    platform: the buffer, of 8 bytes for an element, is to fit the
    runtime's [maxAlloc - hchanSize], which is [2^48 - 96]. *)
Definition max_chan_of_maps : Z := 35184372088820.

(** The number of keys of [a] that are keys of [b]. *)
Definition common_count {V W} (a : gomap V) (b : gomap W) : Z :=
  Z.of_nat (length (filter (λ e, mhas b (fst e) = true) a)).

(** The index of Jaccard of two key sets with [i] common keys. *)
Definition jaccard_of {F} `{Float64 F} (la lb i : Z) : F :=
  if Z.eqb (la + lb - i) 0 then fzero
  else fdiv (fof_int i) (fof_int (la + lb - i)).

(** ** Concrete inputs

    Vectors, users and datasets on which the functions are evaluated, in
    binary64 where no other arithmetic is named. *)

Module Inputs.

Definition f025 : PrimFloat.float := Eval cbv in PrimFloat.div Binary64.half Binary64.two.

(** Two vectors with the single common key 2. *)
Definition vec_a : gomap PrimFloat.float :=
  [(1, PrimFloat.one); (2, Binary64.half)].
Definition vec_b : gomap PrimFloat.float :=
  [(2, PrimFloat.one); (3, Binary64.two)].

Definition game (p r : PrimFloat.float) : GameInteraction PrimFloat.float :=
  {| PlaytimeNorm := p; Rating := r |}.

(** Two users with the single common game 20. *)
Definition user_a : User PrimFloat.float :=
  {| SteamID := []; Games := [(10, game PrimFloat.one Binary64.half);
                              (20, game Binary64.half Binary64.half)] |}.
Definition user_b : User PrimFloat.float :=
  {| SteamID := []; Games := [(20, game PrimFloat.one PrimFloat.one);
                              (30, game Binary64.half PrimFloat.one)] |}.

(** A target with an entry and no rating, and one other user. *)
Definition ds_ratingless : Dataset PrimFloat.float :=
  {| UserRatings := [(1, []); (2, [(10, PrimFloat.one)])];
     Users := 2; Movies := 10 |}.

(** Two users, one item each. *)
Definition ds_two : Dataset PrimFloat.float :=
  {| UserRatings := [(1, [(10, PrimFloat.one)]); (2, [(20, PrimFloat.one)])];
     Users := 2; Movies := 20 |}.

(** The target 1 has rated the items 10 and 11; the items 20, 30 and 40
    are its candidates, with three different predicted scores. *)
Definition ds_three : Dataset PrimFloat.float :=
  {| UserRatings :=
       [(1, [(10, PrimFloat.one); (11, Binary64.half)]);
        (2, [(10, PrimFloat.one); (20, PrimFloat.one)]);
        (3, [(11, PrimFloat.one); (30, PrimFloat.one)]);
        (4, [(10, PrimFloat.one); (11, PrimFloat.one); (40, PrimFloat.one)])];
     Users := 4; Movies := 40 |}.

Definition item (m : Z) (s : PrimFloat.float) : ItemScore PrimFloat.float :=
  {| MovieID := m; Score := s |}.



(** A vector and a user in exact arithmetic. *)
Definition vec_r : gomap R := [(1, 2%R); (2, 0%R)].
Definition user_r : User R :=
  {| SteamID := [];
     Games := [(10, {| PlaytimeNorm := 1%R; Rating := 0%R |});
               (20, {| PlaytimeNorm := 0%R; Rating := 0%R |})] |}.
Definition two_users : list (User PrimFloat.float) := [user_a; user_b].

(** Five candidates, two of them with the same score. *)
Definition five_scores : gomap PrimFloat.float :=
  [(1, Binary64.half); (2, Binary64.two); (3, PrimFloat.one);
   (4, Binary64.two); (5, f025)].

Definition vec_r2 : gomap R := [(3, 1%R)].
Definition user_r2 : User R :=
  {| SteamID := [];
     Games := [(30, {| PlaytimeNorm := 1%R; Rating := 1%R |})] |}.

(** Four candidates, the first of them with a NaN score. *)
Definition nan_first : gomap PrimFloat.float :=
  [(1, PrimFloat.nan); (2, Binary64.half); (3, PrimFloat.one); (4, Binary64.two)].

(** Three candidates, one of them with a NaN score. *)
Definition nan_scores : gomap PrimFloat.float :=
  [(1, Binary64.half); (2, PrimFloat.nan); (3, PrimFloat.one)].

(** The ratings of the target 1 of [ds_three]. *)
Definition ratings_1 : gomap PrimFloat.float :=
  [(10, PrimFloat.one); (11, Binary64.half)].

(** Two vectors with the games of [user_a] and of [user_b] as keys. *)
Definition weights_a : gomap PrimFloat.float :=
  [(10, PrimFloat.one); (20, Binary64.half)].
Definition weights_b : gomap PrimFloat.float :=
  [(20, Binary64.half); (30, PrimFloat.one)].



End Inputs.

(** * Properties *)

(** ** Results and loops *)

Lemma bind_Ok {A B} (a : A) (k : A → result B) : (Ok a ≫= k) = k a.
Proof. reflexivity. Qed.

Ltac ok_step := rewrite bind_Ok; cbv beta.

(** A loop that keeps an invariant and does not panic on the elements it
    visits returns, and its result satisfies the invariant. *)
Lemma foldM_invariant {A B} (I : A → Prop) (P : B → Prop)
    (f : A → B → result A) (l : list B) (a : A) :
  Forall P l →
  (∀ a b, P b → I a → ∃ a', f a b = Ok a' ∧ I a') →
  I a → ∃ a', foldM f l a = Ok a' ∧ I a'.
Proof.
  intros Hl Hstep. revert a. induction Hl as [|b l Hb Hl IH]; intros a Ha; simpl.
  - by exists a.
  - destruct (Hstep a b Hb Ha) as (a' & -> & Ha'). simpl. by apply IH.
Qed.

(** The same for a counting loop whose invariant depends on the counter. *)
Lemma foldM_seq_invariant {A} (I : nat → A → Prop) (f : A → nat → result A)
    (s len : nat) (a : A) :
  (∀ k a, (s ≤ k < s + len)%nat → I k a → ∃ a', f a k = Ok a' ∧ I (S k) a') →
  I s a → ∃ a', foldM f (seq s len) a = Ok a' ∧ I (s + len)%nat a'.
Proof.
  revert s a. induction len as [|len IH]; intros s a Hstep Ha; simpl.
  - exists a. by rewrite Nat.add_0_r.
  - destruct (Hstep s a ltac:(lia) Ha) as (a' & -> & Ha'). simpl.
    replace (s + S len)%nat with (S s + len)%nat by lia.
    apply IH; [|done]. intros k a0 Hk. apply Hstep. lia.
Qed.

Lemma foldM_app {A B} (f : A → B → result A) (l1 l2 : list B) (a a' : A) :
  foldM f l1 a = Ok a' → foldM f (l1 ++ l2) a = foldM f l2 a'.
Proof.
  revert a. induction l1 as [|b l1 IH]; intros a; simpl.
  - by intros [= ->].
  - destruct (f a b) as [a1| |]; simpl; [apply IH | done | done].
Qed.

Lemma foldM_ext {A B} (f g : A → B → result A) (l : list B) (a : A) :
  (∀ a b, f a b = g a b) → foldM f l a = foldM g l a.
Proof.
  intros Hfg. revert a. induction l as [|b l IH]; intros a; simpl; [done|].
  rewrite Hfg. destruct (g a b); simpl; [apply IH | done | done].
Qed.


Lemma index_lt {A} (s : list A) (i : nat) :
  (i < length s)%nat → ∃ x, index s i = Ok x.
Proof.
  intros Hi. unfold index. destruct (lookup_lt_is_Some_2 s i Hi) as [x ->].
  by exists x.
Qed.

Lemma seq_below (n : nat) : Forall (λ i, (i < n)%nat) (seq 0 n).
Proof. apply Forall_forall. intros i Hi. apply list_elem_of_In, in_seq in Hi. lia. Qed.

(** ** Go maps *)

Lemma mget_None_iff {V} (m : gomap V) (k : Z) :
  mget m k = None ↔ k ∉ mkeys m.
Proof.
  induction m as [|[k' v] m IH]; simpl.
  - split; [intros _; apply not_elem_of_nil | done].
  - rewrite not_elem_of_cons. destruct (Z.eqb_spec k' k) as [->|Hne].
    + split; [done | intros [? _]; done].
    + rewrite IH. split; [intros ?; split; [congruence | done] | intros [_ ?]; done].
Qed.

Lemma mget_Some_elem {V} (m : gomap V) (k : Z) (v : V) :
  mget m k = Some v → (k, v) ∈ m.
Proof.
  induction m as [|[k' v'] m IH]; simpl; [done|].
  destruct (Z.eqb_spec k' k) as [->|Hne].
  - intros [= ->]. apply list_elem_of_here.
  - intros Hg. apply list_elem_of_further, IH, Hg.
Qed.

Lemma mget_elem {V} (m : gomap V) (k : Z) (v : V) :
  wf_map m → (k, v) ∈ m → mget m k = Some v.
Proof.
  unfold wf_map, mkeys. induction m as [|[k' v'] m IH]; simpl.
  - intros _ Hin. by apply elem_of_nil in Hin.
  - rewrite NoDup_cons. intros [Hk' Hnd] Hin.
    apply elem_of_cons in Hin as [[= -> ->]|Hin].
    + by rewrite Z.eqb_refl.
    + destruct (Z.eqb_spec k' k) as [->|Hne]; [|by apply IH].
      exfalso. apply Hk'. apply list_elem_of_fmap. by exists (k, v).
Qed.

Lemma mhas_true_iff {V} (m : gomap V) (k : Z) :
  mhas m k = true ↔ k ∈ mkeys m.
Proof.
  unfold mhas. pose proof (mget_None_iff m k) as Hn.
  destruct (mget m k); split; try done.
  - intros _. destruct (decide (k ∈ mkeys m)); [done|].
    by apply Hn in n.
  - intros Hin. exfalso. by apply (proj1 Hn).
Qed.

Lemma mset_not_nil {V} (m : gomap V) (k : Z) (v : V) : mset m k v ≠ [].
Proof. destruct m as [|[k' v'] m]; simpl; [done|]. by destruct (Z.eqb k' k). Qed.

Lemma mset_fresh {V} (m : gomap V) (k : Z) (v : V) :
  k ∉ mkeys m → mset m k v = m ++ [(k, v)].
Proof.
  induction m as [|[k' v'] m IH]; simpl; [done|].
  rewrite not_elem_of_cons. intros [Hne Hk].
  destruct (Z.eqb_spec k' k); [congruence|]. by rewrite IH.
Qed.

Lemma mkeys_mset {V} (m : gomap V) (k : Z) (v : V) :
  mkeys (mset m k v) = if decide (k ∈ mkeys m) then mkeys m else mkeys m ++ [k].
Proof.
  unfold mkeys. induction m as [|[k' v'] m IH]; cbn [mset].
  - destruct (decide (k ∈ fst <$> ([] : gomap V))) as [Hin|Hin];
      [by apply elem_of_nil in Hin | done].
  - destruct (Z.eqb_spec k' k) as [->|Hne]; rewrite !fmap_cons; cbn [fst].
    + destruct (decide (k ∈ k :: (fst <$> m))) as [Hin|Hin]; [done|].
      exfalso. apply Hin, list_elem_of_here.
    + rewrite IH.
      destruct (decide (k ∈ fst <$> m)) as [Hin|Hin],
               (decide (k ∈ k' :: (fst <$> m))) as [Hin'|Hin']; try done.
      * exfalso. apply Hin'. by apply list_elem_of_further.
      * exfalso. apply elem_of_cons in Hin' as [Hin'|Hin']; [congruence | done].
Qed.

Lemma mset_wf {V} (m : gomap V) (k : Z) (v : V) :
  wf_map m → wf_map (mset m k v).
Proof.
  unfold wf_map. intros Hwf. rewrite mkeys_mset.
  destruct (decide (k ∈ mkeys m)); [done|].
  apply NoDup_app. split; [done|]. split.
  - intros x Hx Hx'. apply list_elem_of_singleton in Hx'. by subst.
  - apply NoDup_singleton.
Qed.

(** A list without repetition whose elements are all equal has at most one
    element. *)
Lemma NoDup_all_equal_length {A} (l : list A) :
  NoDup l → (∀ x y, x ∈ l → y ∈ l → x = y) → (length l ≤ 1)%nat.
Proof.
  destruct l as [|x [|y l]]; simpl; [lia | lia |].
  intros Hnd Heq. exfalso.
  apply NoDup_cons in Hnd as [Hx _]. apply Hx.
  rewrite (Heq x y); [apply list_elem_of_here | apply list_elem_of_here |].
  apply list_elem_of_further, list_elem_of_here.
Qed.

(** A counting loop counts the entries that pass its test. *)
Lemma fold_left_count {A} (test : A → bool) (l : list A) (n : Z) :
  fold_left (λ c e, if test e then c + 1 else c) l n
  = n + Z.of_nat (length (filter (λ e, test e = true) l)).
Proof.
  revert n. induction l as [|e l IH]; intros n; simpl; [lia|].
  rewrite IH. rewrite filter_cons. destruct (test e) eqn:Ht.
  - rewrite decide_True by done. simpl. lia.
  - rewrite decide_False by done. lia.
Qed.

(** A collecting loop collects the entries that pass its test. *)
Lemma fold_left_collect {A B} (test : A → bool) (f : A → B) (l : list A)
    (acc : list B) :
  fold_left (λ c e, if test e then c ++ [f e] else c) l acc
  = acc ++ map f (filter (λ e, test e = true) l).
Proof.
  revert acc. induction l as [|e l IH]; intros acc; simpl.
  - by rewrite app_nil_r.
  - rewrite IH, filter_cons. destruct (test e) eqn:Ht.
    + rewrite decide_True by done. simpl. by rewrite <- app_assoc.
    + by rewrite decide_False by done.
Qed.

Lemma fold_left_not_nil {A B} (f : list A → B → list A) (l : list B)
    (acc : list A) :
  (∀ a b, a ≠ [] → f a b ≠ []) → acc ≠ [] → fold_left f l acc ≠ [].
Proof.
  intros Hf. revert acc. induction l as [|b l IH]; intros acc Hacc; simpl; [done|].
  by apply IH, Hf.
Qed.

(** Membership in a list that is written out. *)
Ltac elem_cases :=
  repeat match goal with
    | H : _ ∈ [] |- _ => by apply elem_of_nil in H
    | H : _ ∈ _ :: _ |- _ =>
        apply elem_of_cons in H as [H|H]; [try discriminate H; try subst|]
    end.

(** ** Two vectors with fewer than two common keys *)

Lemma common_entries_length {V W} (a : gomap V) (b : gomap W) :
  wf_map a → fewer_than_two_common (mkeys a) (mkeys b) →
  (length (filter (λ e, mhas b (fst e) = true) a) ≤ 1)%nat.
Proof.
  intros Hwf Hfew.
  rewrite <- (length_map fst).
  apply NoDup_all_equal_length.
  - pose proof (sublist_filter (λ e : Z * V, mhas b (fst e) = true) a) as Hsub.
    eapply sublist_NoDup; [exact Hwf|].
    by apply fmap_sublist.
  - intros x y Hx Hy.
    apply list_elem_of_fmap in Hx as [[kx vx] [-> Hx]].
    apply list_elem_of_fmap in Hy as [[ky vy] [-> Hy]].
    apply list_elem_of_filter in Hx as [Hbx Hax].
    apply list_elem_of_filter in Hy as [Hby Hay].
    simpl in *. apply Hfew.
    + apply list_elem_of_fmap. by exists (kx, vx).
    + by apply mhas_true_iff.
    + apply list_elem_of_fmap. by exists (ky, vy).
    + by apply mhas_true_iff.
Qed.

Lemma Pearson_common_count {F} `{Float64 F} (a b : gomap F) :
  Pearson_common a b
  = Z.of_nat (length (filter (λ e, mhas b (fst e) = true) a)).
Proof. unfold Pearson_common. by rewrite fold_left_count. Qed.

Lemma commonGames_filter {F} `{Float64 F} (u1 u2 : User F) :
  commonGames u1 u2
  = map fst (filter (λ e, mhas (Games u2) (fst e) = true) (Games u1)).
Proof. unfold commonGames. by rewrite fold_left_collect. Qed.

(** C6: when two vectors share fewer than two keys, [Pearson] returns
    exactly 0 whatever the weights are, and so does [pearsonCorrelation]
    for two users who share fewer than two games. *)
Theorem Pearson_fewer_than_two_common {F} `{Float64 F}
    (a b : gomap F) (u1 u2 : User F) :
  wf_map a → fewer_than_two_common (mkeys a) (mkeys b) →
  wf_map (Games u1) →
  fewer_than_two_common (mkeys (Games u1)) (mkeys (Games u2)) →
  Pearson a b = fzero ∧ pearsonCorrelation u1 u2 = Ok fzero.
Proof.
  intros Hwa Hab Hw1 H12. split.
  - unfold Pearson. rewrite Pearson_common_count.
    pose proof (common_entries_length a b Hwa Hab).
    destruct (Z.ltb_spec (Z.of_nat (length (filter (λ e, mhas b (fst e) = true) a))) 2);
      [done | lia].
  - unfold pearsonCorrelation. rewrite commonGames_filter, length_map.
    pose proof (common_entries_length (Games u1) (Games u2) Hw1 H12).
    destruct (Z.ltb_spec (Z.of_nat (length
      (filter (λ e, mhas (Games u2) (fst e) = true) (Games u1)))) 2); [done | lia].
Qed.

Lemma Pearson_fewer_than_two_common_witness :
  Pearson Inputs.vec_a Inputs.vec_b = fzero
  ∧ pearsonCorrelation Inputs.user_a Inputs.user_b = Ok fzero.
Proof.
  apply (Pearson_fewer_than_two_common Inputs.vec_a Inputs.vec_b
           Inputs.user_a Inputs.user_b).
  - apply (bool_decide_unpack _). vm_compute. reflexivity.
  - intros k1 k2 H1 H2 H3 H4. simpl in *. elem_cases; done.
  - apply (bool_decide_unpack _). vm_compute. reflexivity.
  - intros k1 k2 H1 H2 H3 H4. simpl in *. elem_cases; done.
Defined.

(** ** The similarity of a vector with itself *)

(** The operations of the instance [R], unfolded. *)
Ltac unfold_R := cbn [fzero fone fadd fsub fmul fdiv fneg fsqrt feq flt fof_int R_Float64] in *.

Lemma feq_R (x y : R) : feq x y = true ↔ x = y.
Proof. unfold_R. destruct (Req_dec_T x y); split; congruence. Qed.










(** The laws of zero in binary64 and in exact arithmetic. *)

Module FloatZero.
Import SpecFloat.

Lemma eqb_zero (x : PrimFloat.float) :
  PrimFloat.eqb x PrimFloat.zero = true →
  x = PrimFloat.zero ∨ x = PrimFloat.neg_zero.
Proof.
  rewrite FloatAxioms.eqb_spec. intros Heq.
  rewrite <- (FloatAxioms.SF2Prim_Prim2SF x).
  destruct (FloatOps.Prim2SF x) as [[]| | |]; try discriminate Heq.
  - right. reflexivity.
  - left. reflexivity.
  - destruct s; discriminate Heq.
  - destruct s; discriminate Heq.
Qed.

#[global] Instance float_ZeroLaws : ZeroLaws PrimFloat.float.
Proof.
  split.
  - reflexivity.
  - reflexivity.
  - intros x Hx. apply eqb_zero in Hx as [-> | ->]; reflexivity.
Qed.

End FloatZero.

#[export] Instance R_ZeroLaws : ZeroLaws R.
Proof.
  split.
  - by apply feq_R.
  - apply sqrt_0.
  - intros x Hx. apply feq_R in Hx. subst x. unfold_R. lra.
Qed.



Section SelfSimilarity.
Context {F : Type} `{Float64 F}.



Context `{!ZeroLaws F}.



End SelfSimilarity.






Lemma pearson_loop_values_length {F} `{Float64 F} (u1 u2 : User F) l v1 v2 :
  length v1 = length v2 →
  let r := fold_left (pearson_loop_values u1 u2) l (v1, v2) in
  length r.1 = length r.2.
Proof.
  revert v1 v2. induction l as [|k l IH]; intros v1 v2 Hlen; simpl; [done|].
  apply IH. rewrite !length_app. simpl. lia.
Qed.

Lemma pearson_loop_sums_total {F} `{Float64 F} (v1 v2 : list F) l st :
  length v1 = length v2 → Forall (λ i, (i < length v1)%nat) l →
  ∃ r, foldM (pearson_loop_sums v1 v2) l st = Ok r.
Proof.
  intros Hlen Hl. revert st. induction Hl as [|i l Hi Hl IH]; intros [s1 s2]; simpl.
  - by eexists.
  - destruct (index_lt v1 i Hi) as [x1 ->].
    destruct (index_lt v2 i ltac:(lia)) as [x2 ->]. simpl. apply IH.
Qed.

Lemma pearson_loop_corr_total {F} `{Float64 F} (v1 v2 : list F) (m1 m2 : F) l st :
  length v1 = length v2 → Forall (λ i, (i < length v1)%nat) l →
  ∃ r, foldM (pearson_loop_corr v1 v2 m1 m2) l st = Ok r.
Proof.
  intros Hlen Hl. revert st. induction Hl as [|i l Hi Hl IH]; intros [[n d1] d2]; simpl.
  - by eexists.
  - destruct (index_lt v1 i Hi) as [x1 ->].
    destruct (index_lt v2 i ltac:(lia)) as [x2 ->]. simpl. apply IH.
Qed.

Lemma pearson_sums_total {F} `{Float64 F} (u1 u2 : User F) :
  ∃ r, pearson_sums u1 u2 = Ok r.
Proof.
  unfold pearson_sums, pearson_values.
  pose proof (pearson_loop_values_length u1 u2 (commonGames u1 u2) [] [] eq_refl) as Hlen.
  destruct (fold_left (pearson_loop_values u1 u2) (commonGames u1 u2) ([], []))
    as [values1 values2]. simpl in Hlen.
  destruct (pearson_loop_sums_total values1 values2 (seq 0 (length values1))
              (fzero, fzero) Hlen (seq_below _)) as [[sum1 sum2] ->]. simpl.
  apply pearson_loop_corr_total; [done | apply seq_below].
Qed.

Lemma pearsonCorrelation_total {F} `{Float64 F} (u1 u2 : User F) :
  ∃ r, pearsonCorrelation u1 u2 = Ok r.
Proof.
  unfold pearsonCorrelation.
  destruct (Z.ltb _ 2); [by eexists|].
  destruct (Nat.eqb _ 0); [by eexists|].
  destruct (pearson_sums_total u1 u2) as [[[num d1] d2] ->]. simpl.
  destruct (_ || _); [by eexists|].
  destruct (feq _ fzero); by eexists.
Qed.

(** ** The tests before the divisions *)

Section Guards.
Context {F : Type} `{Float64 F}.








Lemma mhas_nil {V} (k : Z) : mhas ([] : gomap V) k = false.
Proof. reflexivity. Qed.


Context `{!ZeroLaws F}.


End Guards.




(** ** The order of the scores *)

Module FloatOrder.
Import SpecFloat.

(** Comparisons of exponents and mantissas, by cases. *)
Ltac compare_cases :=
  change (Pos.compare_cont Eq) with Pos.compare in *;
  repeat match goal with
    | H : context [Z.compare ?a ?b] |- _ =>
        destruct (Z.compare_spec a b); subst
    | |- context [Z.compare ?a ?b] =>
        destruct (Z.compare_spec a b); subst
    | H : context [Pos.compare ?a ?b] |- _ =>
        destruct (Pos.compare_spec a b); subst
    | |- context [Pos.compare ?a ?b] =>
        destruct (Pos.compare_spec a b); subst
    end;
  simpl in *; try done; try lia.

Lemma SFltb_asym (a b : spec_float) : SFltb a b = true → SFltb b a = false.
Proof.
  unfold SFltb, SFcompare.
  destruct a as [[]|[]| |[] m1 e1], b as [[]|[]| |[] m2 e2]; try done; compare_cases.
Qed.

Lemma SFltb_negtrans (a b c : spec_float) :
  b ≠ S754_nan →
  SFltb a b = false → SFltb b c = false → SFltb a c = false.
Proof.
  unfold SFltb, SFcompare.
  destruct a as [[]|[]| |[] m1 e1], b as [[]|[]| |[] m2 e2], c as [[]|[]| |[] m3 e3];
    try done; intros _; compare_cases.
Qed.

Lemma not_nan_spec (x : PrimFloat.float) :
  not_nan x → FloatOps.Prim2SF x ≠ S754_nan.
Proof.
  unfold not_nan. rewrite FloatAxioms.eqb_spec. intros Heq Hn.
  rewrite Hn in Heq. discriminate Heq.
Qed.

#[export] Instance float_ScoreOrder : ScoreOrder PrimFloat.float not_nan.
Proof.
  split.
  - intros x y _ _. cbn [flt float_Float64]. rewrite !FloatAxioms.ltb_spec. apply SFltb_asym.
  - intros x y z _ Hy _. cbn [flt float_Float64]. rewrite !FloatAxioms.ltb_spec.
    apply SFltb_negtrans. by apply not_nan_spec.
Qed.

End FloatOrder.

(** ** The heap of the selector *)

(** Arithmetic with the division by 2 of the parent position. *)
Ltac lia_div := zify; Z.to_euclidean_division_equations; lia.

Lemma insert_Permutation_cons {A} (l : list A) (j : nat) (y a : A) :
  l !! j = Some y → y :: <[j := a]> l ≡ₚ a :: l.
Proof.
  revert j. induction l as [|b l IH]; intros [|j]; simpl; try done.
  - intros [= ->]. apply perm_swap.
  - intros Hj. rewrite perm_swap. rewrite (IH j Hj). apply perm_swap.
Qed.

Lemma swap_Permutation {A} (h : list A) (i j : nat) (x y : A) :
  h !! i = Some x → h !! j = Some y → <[j := x]> (<[i := y]> h) ≡ₚ h.
Proof.
  revert i j. induction h as [|a h IH]; intros [|i] [|j]; simpl; try done.
  - by intros [= ->] [= ->].
  - intros [= ->] Hj. by apply insert_Permutation_cons.
  - intros Hi [= ->]. by apply insert_Permutation_cons.
  - intros Hi Hj. apply perm_skip. by apply IH.
Qed.

Lemma swap_lookup {A} (h : list A) (i j k : nat) (x y : A) :
  h !! i = Some x → h !! j = Some y →
  <[j := x]> (<[i := y]> h) !! k
  = if decide (k = j) then Some x else if decide (k = i) then Some y else h !! k.
Proof.
  intros Hi Hj.
  assert (i < length h)%nat by (by eapply lookup_lt_Some).
  assert (j < length h)%nat by (by eapply lookup_lt_Some).
  destruct (decide (k = j)) as [->|Hkj].
  - rewrite list_lookup_insert_eq; [done|]. by rewrite length_insert.
  - rewrite list_lookup_insert_ne by done.
    destruct (decide (k = i)) as [->|Hki].
    + by rewrite list_lookup_insert_eq.
    + by rewrite list_lookup_insert_ne.
Qed.

Section HeapFacts.
Context {F : Type} `{Float64 F} (valid : F → Prop) `{!ScoreOrder F valid}.

Lemma nle_trans (x y z : neighbor F) :
  nvalid valid x → nvalid valid y → nvalid valid z → nle x y → nle y z → nle x z.
Proof. unfold nle, nvalid. intros Hx Hy Hz Hxy Hyz. by apply (flt_negtrans _ (score y)). Qed.

Lemma lt_nle (x y : neighbor F) :
  nvalid valid x → nvalid valid y → flt (score x) (score y) = true → nle x y.
Proof. unfold nle, nvalid. intros. by apply flt_asym. Qed.

Lemma nle_refl (x : neighbor F) : nvalid valid x → nle x x.
Proof.
  unfold nle, nvalid. intros Hx. destruct (flt (score x) (score x)) eqn:Hlt; [|done].
  by rewrite (flt_asym _ _ Hx Hx Hlt) in Hlt.
Qed.

Lemma Less_spec (h : minHeap F) (i j : nat) (x y : neighbor F) :
  h !! i = Some x → h !! j = Some y →
  Less h i j = Ok (flt (score x) (score y)).
Proof. intros Hi Hj. unfold Less, index. by rewrite Hi, Hj. Qed.

Lemma Swap_spec (h : minHeap F) (i j : nat) (x y : neighbor F) :
  h !! i = Some x → h !! j = Some y →
  Swap h i j = Ok (<[j := x]> (<[i := y]> h)).
Proof. intros Hi Hj. unfold Swap, index. by rewrite Hi, Hj. Qed.

Lemma nvalid_lookup (h : minHeap F) (k : nat) (x : neighbor F) :
  Forall (nvalid valid) h → h !! k = Some x → nvalid valid x.
Proof. intros Hv Hk. by eapply Forall_lookup_1. Qed.

Lemma up_loop_S (fuel : nat) (h : minHeap F) (j : nat) :
  up_loop (S fuel) h j
  = if Nat.eqb ((j - 1) / 2) j then Ok h
    else less ← Less h j ((j - 1) / 2)%nat;
         if negb less then Ok h
         else h ← Swap h ((j - 1) / 2)%nat j; up_loop fuel h ((j - 1) / 2)%nat.
Proof. reflexivity. Qed.

Lemma up_loop_spec (fuel : nat) (h : minHeap F) (j : nat) :
  (j < fuel)%nat → (j < length h)%nat → Forall (nvalid valid) h → up_inv j h →
  ∃ h', up_loop fuel h j = Ok h' ∧ is_heap h' ∧ h' ≡ₚ h.
Proof.
  revert h j. induction fuel as [|fuel IH]; intros h j Hfuel Hj Hv [Hord Hgrand]; [lia|].
  rewrite up_loop_S. destruct (Nat.eqb_spec ((j - 1) / 2) j) as [Heq|Hne].
  { exists h. split; [done|]. split; [|done].
    intros k x y Hk Hx Hy. apply (Hord k); [lia | lia_div | done | done]. }
  assert (Hpj : ((j - 1) / 2 < j)%nat) by lia_div.
  destruct (lookup_lt_is_Some_2 h j Hj) as [x Hx].
  destruct (lookup_lt_is_Some_2 h ((j - 1) / 2) ltac:(lia)) as [y Hy].
  rewrite (Less_spec h j _ x y Hx Hy). rewrite bind_Ok; cbv beta.
  pose proof (nvalid_lookup h _ _ Hv Hx) as Hvx.
  pose proof (nvalid_lookup h _ _ Hv Hy) as Hvy.
  destruct (flt (score x) (score y)) eqn:Hlt; cbn [negb].
  2:{ exists h. split; [done|]. split; [|done].
      intros k a b Hk Ha Hb. destruct (decide (k = j)) as [->|Hkj].
      - rewrite Hx in Ha. rewrite Hy in Hb. injection Ha as <-. injection Hb as <-.
        exact Hlt.
      - by apply (Hord k); [lia | | |]. }
  rewrite (Swap_spec h _ j y x Hy Hx). rewrite bind_Ok; cbv beta.
  set (h' := <[j := y]> (<[((j - 1) / 2)%nat := x]> h)).
  assert (Hperm : h' ≡ₚ h) by (by apply swap_Permutation).
  assert (Hlook : ∀ k, h' !! k = if decide (k = j) then Some y
                                 else if decide (k = ((j - 1) / 2)%nat) then Some x
                                 else h !! k).
  { intros k. by apply swap_lookup. }
  destruct (IH h' ((j - 1) / 2)%nat) as (h'' & Hup & Hheap & Hperm'').
  - lia.
  - rewrite (Permutation_length Hperm). lia.
  - by rewrite Hperm.
  - split.
    + intros k a b Hk Hki. rewrite !Hlook.
      destruct (decide (k = j)) as [->|Hkj].
      * rewrite decide_False by lia. rewrite decide_True by done.
        intros [= <-] [= <-]. by apply lt_nle.
      * rewrite decide_False by done. intros Ha.
        pose proof (nvalid_lookup h _ _ Hv Ha) as Hva.
        destruct (decide ((k - 1) / 2 = j)%nat) as [Hpk|Hpk].
        -- intros [= <-]. apply (Hgrand k); [lia | lia | done | done | done].
        -- destruct (decide ((k - 1) / 2 = (j - 1) / 2)%nat) as [Hpk'|Hpk'].
           ++ intros [= <-]. apply (nle_trans _ y); [done | done | done | by apply lt_nle |].
              apply (Hord k); [lia | done | done | by rewrite Hpk'].
           ++ intros Hb. by apply (Hord k).
    + intros k a b Hi Hk Hpk. rewrite !Hlook.
      rewrite (decide_False (P := ((j - 1) / 2 - 1) / 2 = j)%nat) by lia_div.
      rewrite (decide_False (P := ((j - 1) / 2 - 1) / 2 = (j - 1) / 2)%nat) by lia_div.
      intros Ha Hb. pose proof (nvalid_lookup h _ _ Hv Hb) as Hvb.
      assert (Hyb : nle b y) by (apply (Hord ((j - 1) / 2)%nat); [lia | lia | done | done]).
      destruct (decide (k = j)) as [->|Hkj].
      * by injection Ha as <-.
      * rewrite decide_False in Ha by lia_div.
        pose proof (nvalid_lookup h _ _ Hv Ha) as Hva.
        apply (nle_trans _ y); [done | done | done | done |].
        apply (Hord k); [lia | done | done | by rewrite Hpk].
  - exists h''. split; [done|]. split; [done|]. by rewrite Hperm''.
Qed.

Lemma down_loop_S (fuel : nat) (h : minHeap F) (i n : nat) :
  down_loop (S fuel) h i n
  = if Nat.leb n (2 * i + 1) then Ok h
    else
      right ← (if Nat.ltb (2 * i + 1 + 1) n then Less h (2 * i + 1 + 1) (2 * i + 1)
               else Ok false);
      less ← Less h (if (right : bool) then 2 * i + 1 + 1 else 2 * i + 1)%nat i;
      if negb less then Ok h
      else h ← Swap h i (if (right : bool) then 2 * i + 1 + 1 else 2 * i + 1)%nat;
           down_loop fuel h (if (right : bool) then 2 * i + 1 + 1 else 2 * i + 1)%nat n.
Proof. reflexivity. Qed.

Lemma down_loop_spec (fuel : nat) (h : minHeap F) (i n : nat) :
  (n - i < fuel)%nat → (n ≤ length h)%nat → Forall (nvalid valid) h → down_inv i n h →
  ∃ h', down_loop fuel h i n = Ok h' ∧ heap_upto n h' ∧ h' ≡ₚ h
        ∧ ∀ k, (n ≤ k)%nat → h' !! k = h !! k.
Proof.
  revert h i. induction fuel as [|fuel IH]; intros h i Hfuel Hn Hv [Hord Hgrand]; [lia|].
  rewrite down_loop_S. destruct (Nat.leb_spec n (2 * i + 1)) as [Hleaf|Hchild].
  { exists h. split; [done|]. split; [|done].
    intros k x y Hk Hx Hy. apply (Hord k); [done | lia_div | done | done]. }
  destruct (lookup_lt_is_Some_2 h i ltac:(lia)) as [hi Hhi].
  destruct (lookup_lt_is_Some_2 h (2 * i + 1) ltac:(lia)) as [c1 Hc1].
  pose proof (nvalid_lookup h _ _ Hv Hhi) as Hvi.
  pose proof (nvalid_lookup h _ _ Hv Hc1) as Hv1.
  (* the smaller child, at position [j] *)
  assert (Hsel : ∃ (right : bool) (cj : neighbor F),
            (if Nat.ltb (2 * i + 1 + 1) n then Less h (2 * i + 1 + 1) (2 * i + 1)
             else Ok false) = Ok right
            ∧ h !! (if right then 2 * i + 1 + 1 else 2 * i + 1)%nat = Some cj
            ∧ ((if right then 2 * i + 1 + 1 else 2 * i + 1) < n)%nat
            ∧ ∀ k c, (0 < k < n)%nat → ((k - 1) / 2)%nat = i → h !! k = Some c →
                     nle cj c).
  { destruct (Nat.ltb_spec (2 * i + 1 + 1) n) as [Hj2|Hj2].
    - destruct (lookup_lt_is_Some_2 h (2 * i + 1 + 1) ltac:(lia)) as [c2 Hc2].
      pose proof (nvalid_lookup h _ _ Hv Hc2) as Hv2.
      rewrite (Less_spec h _ _ c2 c1 Hc2 Hc1).
      destruct (flt (score c2) (score c1)) eqn:Hlt.
      + exists true, c2. split; [done|]. split; [done|]. split; [done|].
        intros k c Hk Hpk Hc.
        assert (k = 2 * i + 1 ∨ k = 2 * i + 1 + 1)%nat as [->| ->] by lia_div.
        * rewrite Hc1 in Hc. injection Hc as <-. by apply lt_nle.
        * rewrite Hc2 in Hc. injection Hc as <-. by apply nle_refl.
      + exists false, c1. split; [done|]. split; [done|]. split; [done|].
        intros k c Hk Hpk Hc.
        assert (k = 2 * i + 1 ∨ k = 2 * i + 1 + 1)%nat as [->| ->] by lia_div.
        * rewrite Hc1 in Hc. injection Hc as <-. by apply nle_refl.
        * rewrite Hc2 in Hc. injection Hc as <-. exact Hlt.
    - exists false, c1. split; [done|]. split; [done|]. split; [done|].
      intros k c Hk Hpk Hc.
      assert (k = 2 * i + 1)%nat as -> by lia_div.
      rewrite Hc1 in Hc. injection Hc as <-. by apply nle_refl. }
  destruct Hsel as (right & cj & -> & Hcj & Hjn & Hmin). rewrite bind_Ok; cbv beta.
  set (j := (if right then 2 * i + 1 + 1 else 2 * i + 1)%nat) in *.
  assert (Hj : (i < j ∧ (j - 1) / 2 = i)%nat) by (subst j; destruct right; lia_div).
  pose proof (nvalid_lookup h _ _ Hv Hcj) as Hvj.
  rewrite (Less_spec h j i cj hi Hcj Hhi). rewrite bind_Ok; cbv beta.
  destruct (flt (score cj) (score hi)) eqn:Hlt; cbn [negb].
  2:{ exists h. split; [done|]. split; [|done].
      intros k a b Hk Ha Hb.
      destruct (decide ((k - 1) / 2 = i)%nat) as [Hpk|Hpk].
      - rewrite Hpk, Hhi in Hb. injection Hb as <-.
        pose proof (nvalid_lookup h _ _ Hv Ha) as Hva.
        apply (nle_trans _ cj); [done | done | done | exact Hlt | by apply (Hmin k)].
      - by apply (Hord k). }
  rewrite (Swap_spec h i j hi cj Hhi Hcj). rewrite bind_Ok; cbv beta.
  set (h' := <[j := hi]> (<[i := cj]> h)).
  assert (Hperm : h' ≡ₚ h) by (by apply swap_Permutation).
  assert (Hlook : ∀ k, h' !! k = if decide (k = j) then Some hi
                                 else if decide (k = i) then Some cj
                                 else h !! k).
  { intros k. by apply swap_lookup. }
  destruct (IH h' j) as (h'' & Hdown & Hheap & Hperm'' & Hrest).
  - lia.
  - rewrite (Permutation_length Hperm). lia.
  - by rewrite Hperm.
  - split.
    + intros k a b Hk Hpk. rewrite !Hlook.
      destruct (decide (k = j)) as [->|Hkj].
      * rewrite (decide_False (P := ((j - 1) / 2)%nat = j)) by lia.
        rewrite (decide_True (P := ((j - 1) / 2)%nat = i)) by lia.
        intros [= <-] [= <-]. by apply lt_nle.
      * rewrite (decide_False (P := ((k - 1) / 2)%nat = j)) by done.
        destruct (decide (k = i)) as [->|Hki].
        -- rewrite (decide_False (P := ((i - 1) / 2)%nat = i)) by lia_div.
           intros [= <-] Hb. apply (Hgrand j); [lia | lia | lia | done | done].
        -- intros Ha. destruct (decide ((k - 1) / 2 = i)%nat) as [Hpi|Hpi].
           ++ intros [= <-]. by apply (Hmin k).
           ++ intros Hb. by apply (Hord k).
    + intros k a b Hj0 Hk Hpk. rewrite !Hlook.
      rewrite (decide_False (P := k = j)) by lia_div.
      rewrite (decide_False (P := k = i)) by lia_div.
      rewrite (decide_False (P := ((j - 1) / 2)%nat = j)) by lia.
      rewrite (decide_True (P := ((j - 1) / 2)%nat = i)) by lia.
      intros Ha [= <-]. apply (Hord k); [done | lia | done |].
      by rewrite Hpk.
  - exists h''. split; [done|]. split; [done|]. split; [by rewrite Hperm''|].
    intros k Hk. rewrite (Hrest k Hk), Hlook.
    rewrite decide_False by lia. by rewrite decide_False by lia.
Qed.

Lemma up_spec (h : minHeap F) (j : nat) :
  (j < length h)%nat → Forall (nvalid valid) h → up_inv j h →
  ∃ h', up h j = Ok h' ∧ is_heap h' ∧ h' ≡ₚ h.
Proof. intros. apply up_loop_spec; [lia | done | done | done]. Qed.

Lemma down_spec (h : minHeap F) (i n : nat) :
  (n ≤ length h)%nat → Forall (nvalid valid) h → down_inv i n h →
  ∃ h', down h i n = Ok h' ∧ heap_upto n h' ∧ h' ≡ₚ h
        ∧ ∀ k, (n ≤ k)%nat → h' !! k = h !! k.
Proof. intros. apply down_loop_spec; [lia | done | done | done]. Qed.

Lemma heap_Push_spec (h : minHeap F) (x : neighbor F) :
  is_heap h → Forall (nvalid valid) h → nvalid valid x →
  ∃ h', heap_Push h x = Ok h' ∧ is_heap h' ∧ h' ≡ₚ x :: h.
Proof.
  intros Hheap Hv Hx. unfold heap_Push, minHeap_Push.
  destruct (up_spec (h ++ [x]) (length (h ++ [x]) - 1)) as (h' & Hup & Hheap' & Hperm).
  - rewrite length_app. simpl. lia.
  - apply Forall_app. split; [done|]. by apply Forall_singleton.
  - rewrite length_app. simpl. replace (length h + 1 - 1)%nat with (length h) by lia.
    split.
    + intros k a b Hk Hne Ha Hb.
      assert (Hkl : (k < length h)%nat).
      { apply lookup_lt_Some in Ha. rewrite length_app in Ha. simpl in Ha. lia. }
      rewrite lookup_app_l in Ha by done.
      rewrite lookup_app_l in Hb by lia_div.
      by apply (Hheap k).
    + intros k a b _ Hk Hpk Ha. apply lookup_lt_Some in Ha.
      rewrite length_app in Ha. simpl in Ha. lia_div.
  - exists h'. split; [done|]. split; [done|].
    rewrite Hperm. by rewrite Permutation_app_comm.
Qed.

Lemma heap_root_min (h : minHeap F) (r : neighbor F) :
  is_heap h → Forall (nvalid valid) h → h !! 0%nat = Some r →
  ∀ y, y ∈ h → nle r y.
Proof.
  intros Hheap Hv Hr.
  assert (Hk : ∀ k y, h !! k = Some y → nle r y).
  { intros k. induction k as [k IH] using lt_wf_ind. intros y Hy.
    pose proof (nvalid_lookup h _ _ Hv Hr) as Hvr.
    pose proof (nvalid_lookup h _ _ Hv Hy) as Hvy.
    destruct (decide (k = 0)%nat) as [->|Hk0].
    - rewrite Hr in Hy. injection Hy as <-. by apply nle_refl.
    - pose proof (lookup_lt_Some _ _ _ Hy) as Hlt.
      destruct (lookup_lt_is_Some_2 h ((k - 1) / 2) ltac:(lia_div)) as [p Hp].
      pose proof (nvalid_lookup h _ _ Hv Hp) as Hvp.
      apply (nle_trans _ p); [done | done | done | |].
      + apply (IH ((k - 1) / 2)%nat); [lia_div | done].
      + apply (Hheap k); [lia | done | done]. }
  intros y Hy. apply list_elem_of_lookup in Hy as [k Hy]. by apply (Hk k).
Qed.

Lemma heap_Pop_spec (h : minHeap F) :
  h ≠ [] → is_heap h → Forall (nvalid valid) h →
  ∃ r h', heap_Pop h = Ok (r, h') ∧ h !! 0%nat = Some r ∧ is_heap h'
          ∧ h ≡ₚ r :: h'.
Proof.
  intros Hne Hheap Hv. unfold heap_Pop.
  destruct (length h) as [|n] eqn:Hlen; [by destruct h|].
  destruct (lookup_lt_is_Some_2 h 0 ltac:(lia)) as [r Hr].
  destruct (lookup_lt_is_Some_2 h n ltac:(lia)) as [l Hl].
  rewrite (Swap_spec h 0 n r l Hr Hl). rewrite bind_Ok; cbv beta.
  set (h1 := <[n := r]> (<[0%nat := l]> h)).
  assert (Hperm1 : h1 ≡ₚ h) by (by apply swap_Permutation).
  assert (Hlook : ∀ k, h1 !! k = if decide (k = n) then Some r
                                 else if decide (k = 0%nat) then Some l
                                 else h !! k).
  { intros k. by apply swap_lookup. }
  destruct (down_spec h1 0 n) as (h2 & -> & Hheap2 & Hperm2 & Hrest).
  - rewrite (Permutation_length Hperm1). lia.
  - by rewrite Hperm1.
  - split; [|intros; lia].
    intros k a b Hk Hpk. rewrite !Hlook.
    rewrite (decide_False (P := k = n)) by lia.
    rewrite (decide_False (P := k = 0%nat)) by lia.
    rewrite (decide_False (P := ((k - 1) / 2)%nat = n)) by lia_div.
    rewrite (decide_False (P := ((k - 1) / 2)%nat = 0%nat)) by done.
    intros Ha Hb. apply (Hheap k); [lia | done | done].
  - rewrite bind_Ok; cbv beta. unfold minHeap_Pop.
    assert (Hlen2 : length h2 = S n).
    { by rewrite (Permutation_length Hperm2), (Permutation_length Hperm1). }
    rewrite Hlen2. unfold index.
    assert (Hn2 : h2 !! n = Some r).
    { rewrite Hrest by lia. rewrite Hlook. by rewrite decide_True. }
    rewrite Hn2. rewrite bind_Ok; cbv beta.
    exists r, (take n h2). split; [done|]. split; [done|]. split.
    + unfold is_heap. rewrite length_take, Hlen2.
      replace (n `min` S n)%nat with n by lia.
      intros k a b Hk. rewrite !lookup_take_lt by lia_div.
      by apply Hheap2.
    + rewrite <- Hperm1, <- Hperm2.
      rewrite <- (take_drop n h2) at 1.
      rewrite (drop_S h2 r n Hn2).
      rewrite drop_ge by lia. by rewrite Permutation_app_comm.
Qed.

Lemma topN_offer_spec (n : Z) (seen : list (neighbor F)) (h : minHeap F)
    (e : Z * F) :
  1 ≤ n → valid (snd e) → Forall (nvalid valid) seen → topN_inv valid n seen h →
  ∃ h', topN_offer n h e = Ok h'
        ∧ topN_inv valid n (seen ++ [{| id := fst e; score := snd e |}]) h'.
Proof.
  intros Hn He Hvseen (Hheap & Hv & Hlen & rest & Hperm & Hbest).
  destruct e as [k sc]. simpl in He. unfold topN_offer. cbn [fst snd].
  set (x := {| id := k; score := sc |}).
  assert (Hvx : nvalid valid x) by done.
  assert (Hvrest : Forall (nvalid valid) rest).
  { rewrite Hperm in Hvseen. by apply Forall_app in Hvseen as [_ ?]. }
  pose proof (Permutation_length Hperm) as Hlens. rewrite length_app in Hlens.
  destruct (Z.ltb_spec (Z.of_nat (length h)) n) as [Hroom|Hfull].
  - destruct (heap_Push_spec h x Hheap Hv Hvx) as (h' & -> & Hheap' & Hperm').
    exists h'. split; [done|].
    assert (Hrest : rest = []) by (apply length_zero_iff_nil; lia).
    subst rest. rewrite app_nil_r in Hperm.
    split; [done|]. split; [by rewrite Hperm'; apply Forall_cons|]. split.
    + rewrite (Permutation_length Hperm'), length_app. simpl. lia.
    + exists []. split.
      * rewrite app_nil_r, Hperm', Hperm. by rewrite Permutation_app_comm.
      * intros r c _ Hc. by apply elem_of_nil in Hc.
  - destruct (lookup_lt_is_Some_2 h 0 ltac:(lia)) as [top Htop].
    unfold index. rewrite Htop. rewrite bind_Ok; cbv beta.
    assert (Hroot : ∀ y, y ∈ h → nle top y) by (by eapply heap_root_min).
    pose proof (nvalid_lookup h _ _ Hv Htop) as Hvtop.
    assert (Htoph : top ∈ h) by (by eapply list_elem_of_lookup_2).
    unfold fgt. destruct (flt (score top) sc) eqn:Hlt.
    + destruct (heap_Pop_spec h) as (r & h1 & -> & Hr & Hheap1 & Hperm1);
        [by intros -> | done | done |].
      rewrite Hr in Htop. injection Htop as ->.
      rewrite bind_Ok; cbv beta. cbn [snd].
      assert (Hv1 : Forall (nvalid valid) h1).
      { rewrite Hperm1 in Hv. by apply Forall_cons in Hv as [_ ?]. }
      destruct (heap_Push_spec h1 x Hheap1 Hv1 Hvx) as (h2 & -> & Hheap2 & Hperm2).
      exists h2. split; [done|]. split; [done|].
      split; [by rewrite Hperm2; apply Forall_cons|]. split.
      * rewrite (Permutation_length Hperm2), length_app. simpl.
        pose proof (Permutation_length Hperm1) as Hl1. simpl in Hl1. lia.
      * exists (top :: rest). split.
        -- rewrite Hperm2, Hperm, Hperm1. solve_Permutation.
        -- intros r c Hrin Hc. rewrite Hperm2 in Hrin.
           apply elem_of_cons in Hrin as [->|Hrin]; apply elem_of_cons in Hc as [->|Hc].
           ++ by apply lt_nle.
           ++ apply (nle_trans _ top); [| done | done | | by apply lt_nle].
              ** by eapply Forall_forall in Hvrest.
              ** by apply Hbest.
           ++ apply Hroot. rewrite Hperm1. by apply list_elem_of_further.
           ++ apply Hbest; [|done]. rewrite Hperm1. by apply list_elem_of_further.
    + exists h. split; [done|]. split; [done|]. split; [done|]. split.
      * rewrite length_app. simpl. lia.
      * exists (x :: rest). split.
        -- rewrite Hperm. solve_Permutation.
        -- intros r c Hrin Hc. apply elem_of_cons in Hc as [->|Hc]; [|by apply Hbest].
           apply (nle_trans _ top); [done | done | | exact Hlt | by apply Hroot].
           by eapply Forall_forall in Hv.
Qed.

Lemma topN_loop_spec (n : Z) (scores : gomap F) (seen : list (neighbor F))
    (h : minHeap F) :
  1 ≤ n → Forall (λ e, valid (snd e)) scores → Forall (nvalid valid) seen →
  topN_inv valid n seen h →
  ∃ h', foldM (topN_offer n) scores h = Ok h'
        ∧ topN_inv valid n (seen ++ neighbors_of scores) h'.
Proof.
  intros Hn Hsc. revert seen h.
  induction Hsc as [|e scores He Hsc IH]; intros seen h Hvseen Hinv; simpl.
  - exists h. split; [done|]. by rewrite app_nil_r.
  - destruct (topN_offer_spec n seen h e Hn He Hvseen Hinv) as (h1 & -> & Hinv1).
    rewrite bind_Ok; cbv beta.
    destruct (IH (seen ++ [{| id := fst e; score := snd e |}]) h1) as (h' & -> & Hinv');
      [|done|].
    + apply Forall_app. split; [done|]. by apply Forall_singleton.
    + exists h'. split; [done|]. by rewrite <- app_assoc in Hinv'.
Qed.

Lemma topN_drain_spec (all : list (neighbor F)) (m : nat)
    (st : minHeap F * list (neighbor F)) :
  drain_inv valid all (S m) st →
  ∃ st', topN_drain st m = Ok st' ∧ drain_inv valid all m st'.
Proof.
  destruct st as [h res]. unfold drain_inv. cbn [fst snd].
  intros (Hheap & Hv & Hlen & Hres & Hsorted & Hperm & Hord).
  unfold topN_drain.
  destruct (heap_Pop_spec h) as (r & h1 & -> & Hr & Hheap1 & Hperm1);
    [by intros -> | done | done |].
  rewrite bind_Ok; cbv beta. cbn [fst snd].
  destruct (Nat.ltb_spec m (length res)); [|lia].
  eexists. split; [reflexivity|]. cbn [fst snd].
  assert (Hrh : r ∈ h) by (by eapply list_elem_of_lookup_2).
  assert (Hdrop : drop m (<[m := r]> res) = r :: drop (S m) res).
  { rewrite (drop_S _ r m) by (by apply list_lookup_insert_eq).
    by rewrite drop_insert_lt by lia. }
  rewrite Hdrop.
  split; [done|]. split.
  { rewrite Hperm1 in Hv. by apply Forall_cons in Hv as [_ ?]. }
  split.
  { pose proof (Permutation_length Hperm1) as Hl. simpl in Hl. lia. }
  split; [rewrite length_insert; lia|]. split.
  { apply SSorted_cons; [exact Hsorted|]. apply Forall_forall. intros d Hd. by apply Hord. }
  split.
  { rewrite Hperm, Hperm1. solve_Permutation. }
  intros x d Hx Hd. apply elem_of_cons in Hd as [->|Hd].
  - apply (heap_root_min h r Hheap Hv Hr).
    rewrite Hperm1. by apply list_elem_of_further.
  - apply Hord; [|done]. rewrite Hperm1. by apply list_elem_of_further.
Qed.

Lemma topN_drain_loop_spec (all : list (neighbor F)) (m : nat)
    (st : minHeap F * list (neighbor F)) :
  drain_inv valid all m st →
  ∃ st', foldM topN_drain (rev (seq 0 m)) st = Ok st' ∧ drain_inv valid all 0 st'.
Proof.
  revert st. induction m as [|m IH]; intros st Hinv.
  - exists st. by split.
  - rewrite seq_S, rev_app_distr. cbn [rev app foldM Nat.add].
    destruct (topN_drain_spec all m st Hinv) as (st1 & -> & Hinv1).
    rewrite bind_Ok; cbv beta. by apply IH.
Qed.

Lemma topN_spec (scores : gomap F) (n : Z) :
  1 ≤ n → Forall (λ e, valid (snd e)) scores →
  ∃ res, topNneighborsFromScores scores n = Ok res
         ∧ length res = Nat.min (Z.to_nat n) (length scores)
         ∧ sorted_desc res
         ∧ best_of (neighbors_of scores) res.
Proof.
  intros Hn Hsc. unfold topNneighborsFromScores.
  assert (Hinit : heap_Init ([] : minHeap F) = Ok []) by reflexivity.
  rewrite Hinit. rewrite bind_Ok; cbv beta.
  destruct (topN_loop_spec n scores [] [] Hn Hsc) as (h & -> & Hinv).
  { apply Forall_nil_2. }
  { split; [|split; [apply Forall_nil_2|split; [simpl; lia|]]].
    - intros k x y Hk. simpl in Hk. lia.
    - exists []. split; [done|]. intros r c Hr. by apply elem_of_nil in Hr. }
  rewrite bind_Ok; cbv beta. rewrite app_nil_l in Hinv.
  destruct Hinv as (Hheap & Hv & Hlen & rest & Hperm & Hbest).
  rewrite length_replicate.
  destruct (topN_drain_loop_spec h (length h)
              (h, replicate (length h) {| id := 0; score := fzero |}))
    as ([h' res] & -> & Hfin).
  { unfold drain_inv. cbn [fst snd].
    rewrite drop_ge by (rewrite length_replicate; lia).
    split; [done|]. split; [done|]. split; [done|].
    split; [rewrite length_replicate; lia|].
    split; [apply SSorted_nil|]. split; [by rewrite app_nil_r|].
    intros x d _ Hd. by apply elem_of_nil in Hd. }
  rewrite bind_Ok; cbv beta. cbn [snd].
  destruct Hfin as (_ & _ & Hlen' & _ & Hsorted & Hperm' & _). cbn [fst snd] in *.
  apply length_zero_iff_nil in Hlen'. subst h'. rewrite drop_0 in *.
  rewrite app_nil_l in Hperm'.
  exists res. split; [done|]. split.
  { rewrite <- (Permutation_length Hperm'), Hlen.
    unfold neighbors_of. by rewrite length_fmap. }
  split; [done|].
  exists rest. split; [by rewrite <- Hperm'|].
  intros r c Hr Hc. apply Hbest; [|done]. by rewrite Hperm'.
Qed.

End HeapFacts.

#[export] Instance R_ScoreOrder : ScoreOrder R (λ _, True).
Proof.
  split.
  - intros x y _ _. cbn [flt R_Float64].
    destruct (Rlt_dec x y), (Rlt_dec y x); try done. lra.
  - intros x y z _ _ _. cbn [flt R_Float64].
    destruct (Rlt_dec x y), (Rlt_dec y z), (Rlt_dec x z); try done. lra.
Qed.

(** C4, as stated, fails on a map with a score that is not a number: no
    comparison with a NaN succeeds, so a NaN that enters the heap first
    stays at its root and no later candidate replaces anything.  Of the
    candidates 1 (NaN), 2 (0.5), 3 (1.0) and 4 (2.0) the selector returns,
    for [N = 2], the candidates 2 and 1, and leaves out the candidate 4,
    whose score is greater than that of the candidate 2. *)
Lemma topNneighborsFromScores_nan_counterexample :
  ¬ (∀ (scores : gomap PrimFloat.float) (n : Z), 1 ≤ n →
       ∃ res, topNneighborsFromScores scores n = Ok res
              ∧ length res = Nat.min (Z.to_nat n) (length scores)
              ∧ sorted_desc res
              ∧ best_of (neighbors_of scores) res).
Proof.
  intros Hall.
  destruct (Hall Inputs.nan_first 2 ltac:(lia)) as (res & Hres & _ & _ & rest & Hperm & Hbest).
  vm_compute in Hres. injection Hres as <-.
  set (top := {| id := 2; score := Binary64.half |} : neighbor PrimFloat.float) in *.
  set (out := {| id := 4; score := Binary64.two |} : neighbor PrimFloat.float).
  assert (Hout : out ∈ rest).
  { assert (Hin : out ∈ neighbors_of Inputs.nan_first).
    { do 3 apply list_elem_of_further. apply list_elem_of_here. }
    rewrite Hperm in Hin. apply elem_of_app in Hin as [Hin|Hin]; [|done].
    apply elem_of_cons in Hin as [Hin|Hin]; [discriminate Hin|].
    apply elem_of_cons in Hin as [Hin|Hin]; [discriminate Hin|].
    by apply elem_of_nil in Hin. }
  specialize (Hbest top out (list_elem_of_here _ _) Hout).
  vm_compute in Hbest. discriminate Hbest.
Qed.

(** C4, amended: for every map of scores that [<] orders (no score is a
    NaN) and every [N >= 1],
    [topNneighborsFromScores] returns, whatever the order is in which the
    map is visited, a sequence of exactly [min(N, number of candidates)]
    entries, in descending order of score, which is a top-N of the
    candidates: the candidates are the returned entries and a remainder, and
    no candidate of the remainder has a score greater than a returned
    one. *)
Theorem topNneighborsFromScores_top_N {F} `{Float64 F} (valid : F → Prop)
    (order : ScoreOrder F valid) (scores : gomap F) (n : Z) :
  1 ≤ n → Forall (λ e, valid (snd e)) scores →
  ∃ res, topNneighborsFromScores scores n = Ok res
         ∧ length res = Nat.min (Z.to_nat n) (length scores)
         ∧ sorted_desc res
         ∧ best_of (neighbors_of scores) res.
Proof. intros Hn Hvalid. by apply (topN_spec valid). Qed.

Lemma topNneighborsFromScores_top_N_witness :
  ∃ res, topNneighborsFromScores Inputs.five_scores 3 = Ok res
         ∧ length res = Nat.min (Z.to_nat 3) (length Inputs.five_scores)
         ∧ sorted_desc res
         ∧ best_of (neighbors_of Inputs.five_scores) res.
Proof.
  apply (topNneighborsFromScores_top_N not_nan FloatOrder.float_ScoreOrder
           Inputs.five_scores 3).
  - lia.
  - repeat (apply Forall_cons_2 || apply Forall_nil_2); vm_compute; reflexivity.
Defined.

(** ** The recommenders *)

(** C10, as stated, fails: a target whose entry in the dataset is empty gets
    every item as a candidate, each with score 0. *)
Lemma RecommendItemBased_ratingless_counterexample :
  ¬ (∀ (ds : Dataset PrimFloat.float) (user topK : Z) (metric : SimMetric)
       (neighborK : Z),
       rated_nothing ds user →
       RecommendItemBased ds user topK metric neighborK = Ok []).
Proof.
  intros Hall.
  specialize (Hall Inputs.ds_ratingless 1 1 CosineSim 0 eq_refl).
  vm_compute in Hall. discriminate Hall.
Qed.

(** C10, amended: for a target that has no entry in the dataset,
    [RecommendItemBased] returns the empty sequence, whatever [topK], the
    metric and [neighborK] are. *)
Theorem RecommendItemBased_missing_target {F} `{Float64 F} (ds : Dataset F)
    (user topK : Z) (metric : SimMetric) (neighborK : Z) :
  user ∉ mkeys (UserRatings ds) →
  RecommendItemBased ds user topK metric neighborK = Ok [].
Proof.
  intros Hmiss. apply mget_None_iff in Hmiss.
  unfold RecommendItemBased. by rewrite Hmiss.
Qed.

Lemma RecommendItemBased_missing_target_witness :
  (5 ∉ mkeys (UserRatings Inputs.ds_three))
  ∧ RecommendItemBased Inputs.ds_three 5 10 PearsonSim 3 = Ok [].
Proof.
  assert (Hmiss : 5 ∉ mkeys (UserRatings Inputs.ds_three)).
  { intros Hin. simpl in Hin. elem_cases. }
  split; [exact Hmiss|].
  exact (RecommendItemBased_missing_target Inputs.ds_three 5 10 PearsonSim 3 Hmiss).
Defined.

(** C5: the test of the similarity against 0.05 in the first loop of
    [RecommendUserBased] changes nothing: the function and its variant
    without the test return the same result on every input. *)
Theorem RecommendUserBased_threshold_no_effect {F} `{Float64 F}
    (ds : Dataset F) (user topK : Z) (metric : SimMetric) (neighborK : Z) :
  RecommendUserBased ds user topK metric neighborK
  = RecommendUserBased_no_threshold ds user topK metric neighborK.
Proof.
  unfold RecommendUserBased, RecommendUserBased_no_threshold.
  destruct (mget (UserRatings ds) user) as [targetRatings|]; [|reflexivity].
  f_equal. generalize (@nil (Z * F)) as userSims.
  induction (UserRatings ds) as [|[other ratings] l IH]; intros userSims; simpl;
    [reflexivity|].
  rewrite <- IH. f_equal.
  destruct (Z.eqb other user); [reflexivity|].
  by destruct (flt _ fthreshold).
Qed.

(** The selector applied with a bound that is not positive panics on its
    first candidate: the heap is empty and its element 0 is read. *)
Lemma topN_nonpositive_panics {F} `{Float64 F} (scores : gomap F) (n : Z) :
  n ≤ 0 → scores ≠ [] →
  topNneighborsFromScores scores n = Panic index_out_of_range.
Proof.
  intros Hn Hne. destruct scores as [|[k sc] scores]; [done|].
  unfold topNneighborsFromScores. simpl.
  assert (Hlt : (Z.of_nat 0 <? n) = false) by (apply Z.ltb_ge; lia).
  by rewrite Hlt.
Qed.

(** A target with a rating has a similarity score for every candidate. *)
Lemma simScores_of_not_nil {F} `{Float64 F} (userRatings : gomap F)
    (itemIndex : gomap (gomap F)) (itemV : Z) (metric : SimMetric) :
  userRatings ≠ [] → simScores_of userRatings itemIndex itemV metric ≠ [].
Proof.
  intros Hne. unfold simScores_of.
  destruct userRatings as [|e l]; [done|]. cbn [fold_left].
  apply fold_left_not_nil; [|apply mset_not_nil].
  intros acc e' _. apply mset_not_nil.
Qed.

(** [scoreItem] panics when [neighborK] is not positive, for every target
    that has rated an item. *)
Lemma scoreItem_nonpositive_panics {F} `{Float64 F} (ds : Dataset F)
    (userRatings : gomap F) (itemIndex : gomap (gomap F)) (itemV : Z)
    (metric : SimMetric) (neighborK : Z) :
  neighborK ≤ 0 → userRatings ≠ [] →
  scoreItem ds userRatings itemIndex itemV metric neighborK
  = Panic index_out_of_range.
Proof.
  intros HK Hne. unfold scoreItem.
  rewrite topN_nonpositive_panics; [done | done |].
  by apply simScores_of_not_nil.
Qed.

Lemma RecommendUserBased_sims_not_nil {F} `{Float64 F} (user : Z)
    (targetRatings : gomap F) (metric : SimMetric) (l : gomap (gomap F))
    (acc : gomap F) (other : Z) :
  other ∈ mkeys l → other ≠ user →
  fold_left (RecommendUserBased_sims user targetRatings metric) l acc ≠ [].
Proof.
  intros Hother Hne. revert acc.
  assert (Hstep : ∀ (acc : gomap F) (e : Z * gomap F), fst e ≠ user →
            RecommendUserBased_sims user targetRatings metric acc e ≠ []).
  { intros acc [o r] Ho. simpl in *. destruct (Z.eqb_spec o user); [done|].
    destruct (flt _ fthreshold); apply mset_not_nil. }
  assert (Hkeep : ∀ (acc : gomap F) (e : Z * gomap F), acc ≠ [] →
            RecommendUserBased_sims user targetRatings metric acc e ≠ []).
  { intros acc [o r] Hacc. simpl. destruct (Z.eqb o user); [done|].
    destruct (flt _ fthreshold); apply mset_not_nil. }
  unfold mkeys in Hother. apply list_elem_of_fmap in Hother as (e & -> & Hin).
  induction l as [|e' l IH]; intros acc.
  - by apply elem_of_nil in Hin.
  - cbn [fold_left]. apply elem_of_cons in Hin as [<-|Hin].
    + apply fold_left_not_nil; [exact Hkeep | by apply Hstep].
    + by apply IH.
Qed.

(** [RecommendUserBased] panics when [neighborK] is not positive, for every
    target of a dataset that has another user. *)
Lemma RecommendUserBased_nonpositive_panics {F} `{Float64 F} (ds : Dataset F)
    (user topK : Z) (metric : SimMetric) (neighborK : Z) :
  neighborK ≤ 0 → user ∈ mkeys (UserRatings ds) →
  (∃ other, other ∈ mkeys (UserRatings ds) ∧ other ≠ user) →
  RecommendUserBased ds user topK metric neighborK = Panic index_out_of_range.
Proof.
  intros HK Huser (other & Hother & Hne). unfold RecommendUserBased.
  destruct (mget (UserRatings ds) user) as [targetRatings|] eqn:Hget.
  2:{ by apply mget_None_iff in Hget. }
  unfold RecommendUserBased_rest.
  rewrite topN_nonpositive_panics; [done | done |].
  by apply (RecommendUserBased_sims_not_nil _ _ _ _ _ other).
Qed.

Lemma RecommendUserBased_nonpositive_panics_witness :
  RecommendUserBased Inputs.ds_two 1 10 CosineSim 0 = Panic index_out_of_range.
Proof.
  apply (RecommendUserBased_nonpositive_panics Inputs.ds_two 1 10 CosineSim 0).
  - lia.
  - apply list_elem_of_here.
  - exists 2. split; [|discriminate].
    apply list_elem_of_further, list_elem_of_here.
Defined.

(** C3 fails on the code: with [neighborK = 0] the sequential item-based
    recommender takes every rated item as a neighbour, and the parallel
    item-based and the user-based recommenders panic. *)
Theorem neighborK_zero_panics :
  RecommendItemBased Inputs.ds_two 1 10 CosineSim 0
    = Ok [Inputs.item 20 PrimFloat.zero]
  ∧ RecommendItemBasedParallel Inputs.ds_two 1 10 CosineSim 0 1
    = Panic index_out_of_range
  ∧ RecommendUserBased Inputs.ds_two 1 10 CosineSim 0
    = Panic index_out_of_range.
Proof. repeat split; vm_compute; reflexivity. Qed.

(** ** The slices of the parallel recommender *)

Lemma slice_spec {A} (s : list A) (lo hi : Z) :
  0 ≤ lo ≤ hi → hi ≤ Z.of_nat (length s) →
  slice s lo hi = Ok (take (Z.to_nat (hi - lo)) (drop (Z.to_nat lo) s)).
Proof.
  intros Hlo Hhi. unfold slice.
  destruct (Z.leb_spec 0 lo); [|lia]. destruct (Z.leb_spec lo hi); [|lia].
  destruct (Z.leb_spec hi (Z.of_nat (length s))); [|lia]. done.
Qed.

Lemma worker_slice_spec (candidates : list Z) (chunk : Z) (w : nat) :
  1 ≤ chunk → Z.of_nat w * chunk ≤ Z.of_nat (length candidates) →
  worker_slice candidates chunk (Z.of_nat w)
  = Ok (take (Z.to_nat chunk) (drop (w * Z.to_nat chunk) candidates)).
Proof.
  intros Hc Hw. unfold worker_slice.
  set (len := Z.of_nat (length candidates)) in *.
  set (start := Z.of_nat w * chunk) in *.
  assert (Hstart : Z.to_nat start = (w * Z.to_nat chunk)%nat) by (subst start; nia).
  destruct (Z.gtb_spec (start + chunk) len) as [Hclip|Hfit].
  - rewrite slice_spec by lia. rewrite Hstart. f_equal.
    rewrite take_ge; [|rewrite length_drop; lia].
    rewrite take_ge; [done|rewrite length_drop; lia].
  - rewrite slice_spec by lia. rewrite Hstart. do 2 f_equal. lia.
Qed.

Lemma worker_slice_panics (candidates : list Z) (chunk : Z) (w : nat) :
  1 ≤ chunk → Z.of_nat (length candidates) < Z.of_nat w * chunk →
  worker_slice candidates chunk (Z.of_nat w) = Panic slice_bounds_out_of_range.
Proof.
  intros Hc Hw. unfold worker_slice, slice.
  destruct (Z.gtb_spec (Z.of_nat w * chunk + chunk) (Z.of_nat (length candidates)));
    [|lia].
  destruct (Z.leb_spec 0 (Z.of_nat w * chunk)); [|lia].
  destruct (Z.leb_spec (Z.of_nat w * chunk) (Z.of_nat (length candidates))); [lia|].
  done.
Qed.

(** The slices of the first [k] workers are the first [k * chunk]
    candidates, cut into pieces. *)
Lemma worker_slices_loop (candidates : list Z) (chunk : Z) (k : nat)
    (slices : list (list Z)) :
  1 ≤ chunk → (Z.of_nat k - 1) * chunk ≤ Z.of_nat (length candidates) →
  ∃ slices',
    foldM (λ slices w, s ← worker_slice candidates chunk (Z.of_nat w);
                       Ok (slices ++ [s])) (seq 0 k) slices = Ok (slices ++ slices')
    ∧ length slices' = k
    ∧ concat slices' = take (k * Z.to_nat chunk) candidates.
Proof.
  intros Hc. revert slices. induction k as [|k IH]; intros slices Hk.
  - exists []. by rewrite app_nil_r.
  - rewrite seq_S. cbn [Nat.add].
    destruct (IH slices ltac:(lia)) as (s1 & Hs1 & Hlen1 & Hcat1).
    rewrite (foldM_app _ _ _ _ _ Hs1). simpl.
    rewrite worker_slice_spec by lia. rewrite bind_Ok; cbv beta.
    eexists (s1 ++ [_]). split; [by rewrite app_assoc|]. split.
    + rewrite length_app. simpl. lia.
    + rewrite concat_app, Hcat1. simpl. rewrite app_nil_r.
      rewrite take_take_drop. f_equal. lia.
Qed.

Lemma worker_slices_spec (candidates : list Z) (workers : Z) :
  1 ≤ workers →
  (workers - 1) * chunk_of (Z.of_nat (length candidates)) workers
    ≤ Z.of_nat (length candidates) →
  ∃ slices, worker_slices candidates workers = Ok slices
    ∧ length slices = Z.to_nat workers
    ∧ concat slices
      = take (Z.to_nat (workers * chunk_of (Z.of_nat (length candidates)) workers))
             candidates.
Proof.
  intros HW Hfit. unfold worker_slices.
  destruct (Z.eqb_spec workers 0); [lia|].
  set (chunk := chunk_of (Z.of_nat (length candidates)) workers) in *.
  assert (Hchunk : 1 ≤ chunk).
  { subst chunk. unfold chunk_of.
    destruct (Z.eqb_spec (Z.quot (Z.of_nat (length candidates)) workers) 0); [lia|].
    pose proof (Z.quot_pos (Z.of_nat (length candidates)) workers). lia. }
  destruct (Z.ltb_spec workers 0); [lia|].
  destruct (worker_slices_loop candidates chunk (Z.to_nat workers) [] Hchunk)
    as (slices & Hs & Hlen & Hcat); [lia|].
  exists slices. split; [done|]. split; [done|]. rewrite Hcat. f_equal. nia.
Qed.

(** When the number of candidates is at least the number of workers and
    is not a multiple of it, the slices are the candidates without the last
    [len % workers] of them. *)
Lemma worker_slices_miss_remainder (candidates : list Z) (workers : Z) :
  1 ≤ workers → workers ≤ Z.of_nat (length candidates) →
  Z.rem (Z.of_nat (length candidates)) workers ≠ 0 →
  ∃ slices, worker_slices candidates workers = Ok slices
    ∧ concat slices
      = take (length candidates
              - Z.to_nat (Z.rem (Z.of_nat (length candidates)) workers))
             candidates
    ∧ (length (concat slices) < length candidates)%nat.
Proof.
  intros HW Hlen Hrem.
  set (len := Z.of_nat (length candidates)) in *.
  pose proof (Z.quot_rem' len workers) as Hqr.
  pose proof (Z.rem_bound_pos len workers ltac:(lia) ltac:(lia)) as Hb.
  assert (Hq : 1 ≤ Z.quot len workers).
  { pose proof (Z.quot_pos len workers ltac:(lia) ltac:(lia)). nia. }
  assert (Hchunk : chunk_of len workers = Z.quot len workers).
  { unfold chunk_of. destruct (Z.eqb_spec (Z.quot len workers) 0); [lia|done]. }
  destruct (worker_slices_spec candidates workers HW) as (slices & Hs & _ & Hcat).
  { fold len. rewrite Hchunk. nia. }
  fold len in Hcat. rewrite Hchunk in Hcat.
  exists slices. split; [done|].
  assert (Hn : Z.to_nat (workers * Z.quot len workers)
               = (length candidates - Z.to_nat (Z.rem len workers))%nat) by lia.
  rewrite Hn in Hcat. split; [done|].
  rewrite Hcat, length_take. lia.
Qed.

(** When the number of candidates is a multiple of the number of workers,
    the slices are all the candidates. *)
Lemma worker_slices_cover_multiple (candidates : list Z) (workers : Z) :
  1 ≤ workers → workers ≤ Z.of_nat (length candidates) →
  Z.rem (Z.of_nat (length candidates)) workers = 0 →
  ∃ slices, worker_slices candidates workers = Ok slices
            ∧ concat slices = candidates.
Proof.
  intros HW Hlen Hrem.
  set (len := Z.of_nat (length candidates)) in *.
  pose proof (Z.quot_rem' len workers) as Hqr.
  assert (Hq : 1 ≤ Z.quot len workers).
  { pose proof (Z.quot_pos len workers ltac:(lia) ltac:(lia)). nia. }
  assert (Hchunk : chunk_of len workers = Z.quot len workers).
  { unfold chunk_of. destruct (Z.eqb_spec (Z.quot len workers) 0); [lia|done]. }
  destruct (worker_slices_spec candidates workers HW) as (slices & Hs & _ & Hcat).
  { fold len. rewrite Hchunk. nia. }
  fold len in Hcat. rewrite Hchunk in Hcat.
  exists slices. split; [done|]. rewrite Hcat. apply take_ge. lia.
Qed.

(** With at least two workers more than candidates, the slice of the
    worker [len + 1] starts beyond the candidates, and the call panics. *)
Lemma worker_slices_too_many_workers (candidates : list Z) (workers : Z) :
  Z.of_nat (length candidates) + 2 ≤ workers →
  worker_slices candidates workers = Panic slice_bounds_out_of_range.
Proof.
  intros HW. unfold worker_slices.
  destruct (Z.eqb_spec workers 0); [lia|].
  set (len := Z.of_nat (length candidates)) in *.
  assert (Hchunk : chunk_of len workers = 1).
  { unfold chunk_of. rewrite Z.quot_small by lia. done. }
  rewrite Hchunk. destruct (Z.ltb_spec workers 0); [lia|].
  replace (Z.to_nat workers) with (S (length candidates) + S (Z.to_nat workers - length candidates - 2))%nat by lia.
  rewrite seq_app.
  destruct (worker_slices_loop candidates 1 (S (length candidates)) []) as (s1 & Hs1 & _);
    [lia | lia |].
  rewrite (foldM_app _ _ _ _ _ Hs1). cbn [seq foldM Nat.add].
  rewrite worker_slice_panics by lia. done.
Qed.

(** ** The parallel recommender where its slices cover the candidates *)

Lemma BuildItemIndex_wf {F} `{Float64 F} (ds : Dataset F) :
  wf_map (BuildItemIndex ds).
Proof.
  unfold BuildItemIndex.
  assert (Hinner : ∀ (u : Z) (items : gomap F) (idx : gomap (gomap F)),
            wf_map idx → wf_map (fold_left (BuildItemIndex_item u) items idx)).
  { intros u items. induction items as [|[itm r] items IH]; intros idx Hwf; simpl;
      [done|].
    apply IH. apply mset_wf. destruct (mhas idx itm); [done|]. by apply mset_wf. }
  assert (Hwf0 : wf_map ([] : gomap (gomap F))) by apply NoDup_nil_2.
  revert Hwf0. generalize ([] : gomap (gomap F)).
  induction (UserRatings ds) as [|[u items] l IH]; intros idx Hwf; simpl; [done|].
  apply IH. by apply Hinner.
Qed.

Lemma candidates_of_NoDup {F} `{Float64 F} (userRatings : gomap F)
    (itemIndex : gomap (gomap F)) :
  wf_map itemIndex → NoDup (candidates_of userRatings itemIndex).
Proof.
  unfold candidates_of, wf_map, mkeys. intros Hwf.
  assert (Hgen : ∀ acc,
    fold_left (λ candidates e, if mhas userRatings (fst e) then candidates
                               else candidates ++ [fst e]) itemIndex acc
    = acc ++ filter (λ k, mhas userRatings k = false) (fst <$> itemIndex)).
  { induction itemIndex as [|[k v] idx IH]; intros acc; simpl.
    - by rewrite app_nil_r.
    - apply NoDup_cons in Hwf as [_ Hwf]. rewrite (IH Hwf), filter_cons. simpl.
      destruct (mhas userRatings k).
      + by rewrite decide_False.
      + rewrite decide_True by done. by rewrite <- app_assoc. }
  rewrite Hgen. simpl. by apply NoDup_filter.
Qed.

Section Agreement.
Context {F : Type} `{Float64 F}.
Hypothesis sub_add_neg : ∀ x y : F, fsub x y = fadd x (fneg y).
Variables (ds : Dataset F) (userRatings : gomap F) (itemIndex : gomap (gomap F)).
Variables (metric : SimMetric) (neighborK : Z).

Local Abbreviation step :=
  (score_step ds userRatings itemIndex metric neighborK).

Lemma candidate_score_step (scores : gomap F) (itemV : Z) :
  0 < neighborK →
  RecommendItemBased_candidate userRatings itemIndex metric neighborK scores itemV
  = step scores itemV.
Proof using sub_add_neg.
  intros HK. unfold RecommendItemBased_candidate, step, scoreItem.
  destruct (Z.gtb_spec neighborK 0); [|lia].
  destruct (topNneighborsFromScores _ neighborK) as [neighbors| |]; [|done|done].
  rewrite !bind_Ok; cbv beta.
  assert (Hloop : ∀ st,
    fold_left (λ st nb, (fadd (fst st) (fmul (score nb) (mread userRatings (id nb))),
                         fadd (snd st) (abs (score nb)))) neighbors st
    = fold_left (λ st nb, (fadd (fst st) (fmul (score nb) (mread userRatings (id nb))),
                           if flt (score nb) fzero then fsub (snd st) (score nb)
                           else fadd (snd st) (score nb))) neighbors st).
  { induction neighbors as [|nb l IH]; intros st; simpl; [done|].
    rewrite IH. do 2 f_equal. unfold abs. destruct (flt (score nb) fzero); [|done].
    by rewrite sub_add_neg. }
  rewrite Hloop.
  destruct (fold_left _ neighbors (fzero, fzero)) as [num den].
  by destruct (feq den fzero).
Qed.

Lemma score_step_cons (c : Z) (s : list Z) (m : gomap F) :
  foldM step (c :: s) m
  = (sc ← scoreItem ds userRatings itemIndex c metric neighborK;
     foldM step s (mset m c sc)).
Proof.
  cbn [foldM].
  change (step m c)
    with (sc ← scoreItem ds userRatings itemIndex c metric neighborK;
          Ok (mset m c sc)).
  destruct (scoreItem ds userRatings itemIndex c metric neighborK); reflexivity.
Qed.

Lemma not_elem_of_singleton_keys (c c' : Z) (sc : F) :
  c ≠ c' → c' ∉ mkeys [(c, sc)].
Proof.
  intros Hne Hin. apply list_elem_of_singleton in Hin. simpl in Hin. congruence.
Qed.

(** Scoring candidates that the map does not hold yet appends to it what
    scoring them from the empty map gives. *)
Lemma score_step_fresh (s : list Z) (m0 : gomap F) :
  NoDup s → (∀ c, c ∈ s → c ∉ mkeys m0) →
  foldM step s m0 = (r ← foldM step s []; Ok (m0 ++ r)).
Proof.
  revert m0. induction s as [|c s IH]; intros m0 Hnd Hfresh.
  - cbn [foldM]. rewrite bind_Ok; cbv beta. by rewrite app_nil_r.
  - apply NoDup_cons in Hnd as [Hc Hnd]. rewrite !score_step_cons.
    destruct (scoreItem ds userRatings itemIndex c metric neighborK) as [sc| |];
      [|reflexivity|reflexivity].
    rewrite !bind_Ok; cbv beta. cbn [mset].
    rewrite mset_fresh by (apply Hfresh, list_elem_of_here).
    rewrite (IH (m0 ++ [(c, sc)])); [|done|].
    + rewrite (IH [(c, sc)]); [|done|].
      * destruct (foldM step s []) as [r| |]; [|reflexivity|reflexivity].
        rewrite !bind_Ok; cbv beta. by rewrite <- app_assoc.
      * intros c' Hc'. apply not_elem_of_singleton_keys. by intros ->.
    + intros c' Hc'. unfold mkeys. rewrite fmap_app, not_elem_of_app. split.
      * apply Hfresh. by apply list_elem_of_further.
      * apply not_elem_of_singleton_keys. by intros ->.
Qed.

Lemma score_step_keys (s : list Z) (r : gomap F) :
  NoDup s → foldM step s [] = Ok r → mkeys r = s.
Proof.
  revert r. induction s as [|c s IH]; intros r Hnd.
  - cbn [foldM]. by intros [= <-].
  - apply NoDup_cons in Hnd as [Hc Hnd]. rewrite score_step_cons.
    destruct (scoreItem ds userRatings itemIndex c metric neighborK) as [sc| |];
      [|done|done].
    rewrite bind_Ok; cbv beta. cbn [mset].
    rewrite (score_step_fresh s [(c, sc)] Hnd).
    2:{ intros c' Hc'. apply not_elem_of_singleton_keys. by intros ->. }
    destruct (foldM step s []) as [r'| |] eqn:Hr'; [|done|done].
    rewrite bind_Ok; cbv beta. intros [= <-]. cbn [app]. unfold mkeys.
    rewrite fmap_cons. cbn [fst]. f_equal. by apply IH.
Qed.

(** Merging a partial map whose keys the result does not hold yet appends
    it. *)
Lemma merge_fresh (part m0 : gomap F) :
  wf_map part → (∀ c, c ∈ mkeys part → c ∉ mkeys m0) →
  fold_left (λ scores e, mset scores (fst e) (snd e)) part m0 = m0 ++ part.
Proof.
  revert m0. induction part as [|[k v] part IH]; intros m0 Hwf Hfresh; simpl.
  - by rewrite app_nil_r.
  - apply NoDup_cons in Hwf as [Hk Hwf].
    rewrite mset_fresh by (apply Hfresh, list_elem_of_here).
    rewrite IH; [by rewrite <- app_assoc | done |].
    intros c Hc. unfold mkeys. rewrite fmap_app, not_elem_of_app. split.
    + apply Hfresh. by apply list_elem_of_further.
    + intros Hin. apply list_elem_of_singleton in Hin. simpl in Hin. subst c.
      apply Hk. exact Hc.
Qed.

(** The workers and the merge, slice after slice, do what one loop over all
    the slices does. *)
Lemma partials_merge (slices : list (list Z)) (partials : list (gomap F)) :
  NoDup (concat slices) →
  (∀ c, c ∈ concat slices → c ∉ mkeys (merge_partials partials)) →
  (ps ← foldM (λ partials s,
                 part ← worker_partial ds userRatings itemIndex metric neighborK s;
                 Ok (partials ++ [part])) slices partials;
   Ok (merge_partials ps))
  = foldM step (concat slices) (merge_partials partials).
Proof.
  revert partials. induction slices as [|s slices IH]; intros partials Hnd Hfresh.
  - reflexivity.
  - simpl in *. apply NoDup_app in Hnd as (Hs & Hdisj & Hrest).
    unfold worker_partial.
    assert (Hsplit : ∀ m0, foldM step (s ++ concat slices) m0
              = (m1 ← foldM step s m0; foldM step (concat slices) m1)).
    { intros m0. destruct (foldM step s m0) as [m1| |] eqn:Hm1.
      - by rewrite (foldM_app _ _ _ _ _ Hm1).
      - clear -Hm1. revert m0 Hm1. induction s as [|c s IHs]; intros m0; simpl; [done|].
        destruct (step m0 c); simpl; [apply IHs | done | done].
      - clear -Hm1. revert m0 Hm1. induction s as [|c s IHs]; intros m0; simpl; [done|].
        destruct (step m0 c); simpl; [apply IHs | done | done]. }
    rewrite Hsplit.
    rewrite (score_step_fresh s (merge_partials partials) Hs).
    2:{ intros c Hc. apply Hfresh. apply elem_of_app. by left. }
    destruct (foldM step s []) as [part| |] eqn:Hpart; [|done|done].
    rewrite !bind_Ok; cbv beta.
    pose proof (score_step_keys s part Hs Hpart) as Hkeys.
    assert (Hmerge : merge_partials (partials ++ [part])
                     = merge_partials partials ++ part).
    { unfold merge_partials. rewrite fold_left_app. simpl.
      apply merge_fresh.
      - unfold wf_map. by rewrite Hkeys.
      - rewrite Hkeys. intros c Hc. apply Hfresh. apply elem_of_app. by left. }
    rewrite IH; [by rewrite Hmerge | done |].
    intros c Hc. rewrite Hmerge. unfold mkeys. rewrite fmap_app, not_elem_of_app.
    split.
    + apply Hfresh. apply elem_of_app. by right.
    + fold (mkeys part). rewrite Hkeys. intros Hcs. by apply (Hdisj c).
Qed.

End Agreement.

(** When [neighborK] is positive and the number of candidates is a multiple
    of the number of workers, which is not greater, the parallel recommender
    returns what the sequential one returns: the two differ by the
    candidates that the slices miss, by the panics of the slices, and by the
    guard on [neighborK] only. *)
Lemma parallel_agrees_on_multiples {F} `{Float64 F} (ds : Dataset F)
    (user topK : Z) (metric : SimMetric) (neighborK workers : Z) :
  (∀ x y : F, fsub x y = fadd x (fneg y)) →
  0 < neighborK → 1 ≤ workers →
  (∀ userRatings, mget (UserRatings ds) user = Some userRatings →
     let len := Z.of_nat (length (candidates_of userRatings (BuildItemIndex ds))) in
     workers ≤ len ∧ Z.rem len workers = 0) →
  RecommendItemBasedParallel ds user topK metric neighborK workers
  = RecommendItemBased ds user topK metric neighborK.
Proof.
  intros Hsub HK HW Hlen. unfold RecommendItemBasedParallel, RecommendItemBased.
  destruct (mget (UserRatings ds) user) as [userRatings|]; [|done].
  destruct (Hlen userRatings eq_refl) as [Hle Hrem]. clear Hlen.
  set (itemIndex := BuildItemIndex ds).
  set (candidates := candidates_of userRatings itemIndex) in *.
  destruct (worker_slices_cover_multiple candidates workers HW Hle Hrem)
    as (slices & -> & Hcat).
  rewrite bind_Ok; cbv beta.
  assert (Hnd : NoDup candidates).
  { apply candidates_of_NoDup, BuildItemIndex_wf. }
  rewrite (foldM_ext _ (score_step ds userRatings itemIndex metric neighborK));
    [|intros; by apply candidate_score_step].
  rewrite <- Hcat in Hnd |- *.
  pose proof (partials_merge ds userRatings itemIndex metric neighborK slices []
                Hnd) as Hpm.
  change (merge_partials []) with ([] : gomap F) in Hpm.
  rewrite <- Hpm; [|intros; apply not_elem_of_nil].
  by destruct (foldM _ slices []).
Qed.

(** In binary64 [x - y] is [x + (-y)]. *)
Module FloatSub.
Import SpecFloat.

Lemma cond_Zopp_negb (s : bool) (z : Z) :
  cond_Zopp (negb s) z = (- cond_Zopp s z)%Z.
Proof. destruct s; simpl; lia. Qed.

Lemma SFsub_add_opp (prec emax : Z) (x y : spec_float) :
  SFsub prec emax x y = SFadd prec emax x (SFopp y).
Proof.
  destruct x as [[]|[]| |sx mx ex], y as [[]|[]| |sy my ey]; try reflexivity.
  unfold SFsub, SFadd, SFopp. cbv zeta. f_equal.
  rewrite cond_Zopp_negb. lia.
Qed.

Lemma float_sub_add_neg (x y : PrimFloat.float) :
  fsub x y = fadd x (fneg y).
Proof.
  cbn [fsub fadd fneg float_Float64]. apply FloatAxioms.Prim2SF_inj.
  rewrite FloatAxioms.sub_spec, FloatAxioms.add_spec, FloatAxioms.opp_spec.
  apply SFsub_add_opp.
Qed.

End FloatSub.

(** With three workers for the three candidates of the example the two
    recommenders agree. *)
Lemma parallel_agrees_on_multiples_example :
  RecommendItemBasedParallel Inputs.ds_three 1 10 CosineSim 2 3
  = RecommendItemBased Inputs.ds_three 1 10 CosineSim 2.
Proof.
  apply parallel_agrees_on_multiples.
  - apply FloatSub.float_sub_add_neg.
  - lia.
  - lia.
  - intros userRatings Hu. vm_compute in Hu. injection Hu as <-.
    vm_compute. by split.
Qed.

(** C1 fails on the code: with three candidates and two workers the chunk
    is 1, the slices are the first two candidates, whichever they are, and
    the third one gets no score. *)
Theorem parallel_drops_remainder :
  candidates_of (mread_map (UserRatings Inputs.ds_three) 1)
                (BuildItemIndex Inputs.ds_three) = [20; 30; 40]
  ∧ (∀ c1 c2 c3 : Z, worker_slices [c1; c2; c3] 2 = Ok [[c1]; [c2]])
  ∧ RecommendItemBasedParallel Inputs.ds_three 1 10 CosineSim 2 2
    = Ok [Inputs.item 20 PrimFloat.one; Inputs.item 30 Binary64.half].
Proof.
  split; [vm_compute; reflexivity|].
  split; [intros; reflexivity|].
  vm_compute; reflexivity.
Qed.

(** C2 fails on the code: on the same input the sequential recommender
    ranks the three candidates, 40 before 30, and the parallel one with two
    workers ranks two of them only; asked for the best two, the first
    returns 20 and 40 and the second 20 and 30.  With five workers the
    parallel recommender panics, and so it does with [neighborK = 0]. *)
Theorem parallel_differs_from_sequential :
  ∃ s40 : PrimFloat.float,
    PrimFloat.ltb Binary64.half s40 = true
    ∧ RecommendItemBased Inputs.ds_three 1 10 CosineSim 2
      = Ok [Inputs.item 20 PrimFloat.one; Inputs.item 40 s40;
            Inputs.item 30 Binary64.half]
    ∧ RecommendItemBasedParallel Inputs.ds_three 1 10 CosineSim 2 2
      = Ok [Inputs.item 20 PrimFloat.one; Inputs.item 30 Binary64.half]
    ∧ RecommendItemBased Inputs.ds_three 1 2 CosineSim 2
      = Ok [Inputs.item 20 PrimFloat.one; Inputs.item 40 s40]
    ∧ RecommendItemBasedParallel Inputs.ds_three 1 2 CosineSim 2 2
      = Ok [Inputs.item 20 PrimFloat.one; Inputs.item 30 Binary64.half]
    ∧ RecommendItemBasedParallel Inputs.ds_three 1 10 CosineSim 2 5
      = Panic slice_bounds_out_of_range
    ∧ RecommendItemBased Inputs.ds_three 1 10 CosineSim 0
      = Ok [Inputs.item 20 PrimFloat.one; Inputs.item 40 s40;
            Inputs.item 30 Binary64.half]
    ∧ RecommendItemBasedParallel Inputs.ds_three 1 10 CosineSim 0 3
      = Panic index_out_of_range.
Proof.
  eexists. split; [|repeat split; vm_compute; reflexivity].
  vm_compute. reflexivity.
Qed.

(** ** The similarity matrices *)

Section MatrixFacts.
Context {F : Type} `{Float64 F}.

Lemma mat_set_spec (n : nat) (M : list (list F)) (i j : nat) (v : F) :
  shaped n M → (i < n)%nat → (j < n)%nat →
  ∃ M', mat_set M i j v = Ok M' ∧ shaped n M'
        ∧ ∀ a b, cell M' a b = if decide (a = i ∧ b = j) then Some v else cell M a b.
Proof.
  intros [Hlen Hrows] Hi Hj. unfold mat_set, index.
  destruct (lookup_lt_is_Some_2 M i ltac:(lia)) as [row Hrow].
  rewrite Hrow. ok_step. pose proof (Hrows i row Hrow) as Hr.
  destruct (Nat.ltb_spec j (length row)); [|lia].
  eexists. split; [reflexivity|]. split.
  - split; [by rewrite length_insert|].
    intros a r. destruct (decide (i = a)) as [->|Hne].
    + rewrite list_lookup_insert_eq by lia. intros [= Hr'].
      rewrite <- Hr'. by rewrite length_insert.
    + rewrite list_lookup_insert_ne by done. apply Hrows.
  - intros a b. unfold cell. destruct (decide (i = a)) as [->|Hne].
    + rewrite list_lookup_insert_eq by lia. rewrite Hrow.
      destruct (decide (j = b)) as [->|Hne].
      * rewrite list_lookup_insert_eq by lia. by rewrite decide_True.
      * rewrite list_lookup_insert_ne by done.
        rewrite decide_False; [done|]. intros [_ ->]. done.
    + rewrite list_lookup_insert_ne by done.
      rewrite decide_False; [done|]. intros [-> _]. done.
Qed.

Lemma cell_mat_get (n : nat) (M : list (list F)) (i j : nat) :
  shaped n M → (i < n)%nat → (j < n)%nat →
  ∃ x, cell M i j = Some x ∧ mat_get M i j = Ok x.
Proof.
  intros [Hlen Hrows] Hi Hj. unfold cell, mat_get, index.
  destruct (lookup_lt_is_Some_2 M i ltac:(lia)) as [row Hrow].
  rewrite Hrow. simpl. pose proof (Hrows i row Hrow) as Hr.
  destruct (lookup_lt_is_Some_2 row j ltac:(lia)) as [x Hx].
  rewrite Hx. by exists x.
Qed.


Lemma write_diagonal_inv (n : nat) (M : list (list F)) (i : nat) :
  matrix_inv n i M → (i < n)%nat →
  ∃ M', mat_set M i i fone = Ok M' ∧ matrix_inv n (S i) M'.
Proof.
  intros (Hsh & Hsym & Hdiag) Hi.
  destruct (mat_set_spec n M i i fone Hsh Hi Hi) as (M' & -> & Hsh' & Hcell).
  exists M'. split; [done|]. split; [done|]. split.
  - intros a b. rewrite !Hcell.
    destruct (decide (a = i ∧ b = i)) as [[-> ->]|Hn].
    + by rewrite decide_True.
    + rewrite decide_False by (intros [-> ->]; by apply Hn). apply Hsym.
  - intros a Ha. rewrite Hcell. destruct (decide (a = i ∧ a = i)); [done|].
    apply Hdiag. lia.
Qed.

Lemma write_pair_inv (sim : User F → User F → result F) (users : list (User F))
    (k : nat) (M : list (list F)) (i j : nat) :
  (∀ u1 u2, ∃ r, sim u1 u2 = Ok r) →
  matrix_inv (length users) k M →
  (i < j < length users)%nat →
  ∃ M', write_pair sim users M (i, j) = Ok M' ∧ matrix_inv (length users) k M'.
Proof.
  intros Hsim (Hsh & Hsym & Hdiag) Hij. unfold write_pair, index.
  destruct (lookup_lt_is_Some_2 users i ltac:(lia)) as [ui ->].
  destruct (lookup_lt_is_Some_2 users j ltac:(lia)) as [uj ->]. simpl.
  destruct (Hsim ui uj) as [s ->]. simpl.
  destruct (mat_set_spec _ M i j s Hsh ltac:(lia) ltac:(lia)) as (M1 & -> & Hsh1 & Hc1).
  simpl.
  destruct (mat_set_spec _ M1 j i s Hsh1 ltac:(lia) ltac:(lia)) as (M2 & -> & Hsh2 & Hc2).
  exists M2. split; [done|]. split; [done|]. split.
  - intros a b. rewrite !Hc2, !Hc1.
    destruct (decide (a = j ∧ b = i)) as [[-> ->]|Hn1].
    + rewrite decide_False by lia. by rewrite decide_True.
    + destruct (decide (a = i ∧ b = j)) as [[-> ->]|Hn2].
      * by rewrite decide_True.
      * rewrite decide_False by (intros [-> ->]; by apply Hn2).
        rewrite decide_False by (intros [-> ->]; by apply Hn1). apply Hsym.
  - intros a Ha. rewrite Hc2, Hc1.
    rewrite decide_False by lia. rewrite decide_False by lia. by apply Hdiag.
Qed.

Lemma alloc_rows_eq (n : nat) : alloc_rows n = replicate n (replicate n fzero).
Proof.
  unfold alloc_rows.
  assert (Hgen : ∀ k, (k ≤ n)%nat →
    fold_left (λ M i, <[i := replicate n fzero]> M) (seq 0 k) (replicate n [])
    = replicate k (replicate n fzero) ++ replicate (n - k) []).
  { induction k as [|k IH]; intros Hk.
    - simpl. by rewrite Nat.sub_0_r.
    - rewrite seq_S, fold_left_app, IH by lia. cbn [fold_left Nat.add].
      replace (n - k)%nat with (S (n - S k)) by lia.
      rewrite insert_app_r_alt by (rewrite length_replicate; lia).
      rewrite length_replicate, Nat.sub_diag.
      rewrite (replicate_S_end k (replicate n fzero)), <- app_assoc. reflexivity. }
  rewrite Hgen by lia. by rewrite Nat.sub_diag, app_nil_r.
Qed.

Lemma alloc_rows_inv (n : nat) : matrix_inv n 0 (alloc_rows n).
Proof.
  rewrite alloc_rows_eq. split; [|split].
  - split; [by rewrite length_replicate|].
    intros i row Hrow. apply lookup_replicate in Hrow as [-> _].
    by rewrite length_replicate.
  - assert (Hcell : ∀ i j, cell (replicate n (replicate n fzero)) i j
        = if decide (i < n ∧ j < n)%nat then Some fzero else None).
    { intros i j. unfold cell.
      destruct (decide (i < n)%nat) as [Hi|Hi].
      - rewrite lookup_replicate_2 by done.
        destruct (decide (j < n)%nat) as [Hj|Hj].
        + rewrite lookup_replicate_2 by done. by rewrite decide_True.
        + assert (Hn : replicate n (fzero : F) !! j = None)
            by (apply lookup_replicate_None; lia).
          rewrite Hn. rewrite decide_False; [done|lia].
      - assert (Hn : replicate n (replicate n (fzero : F)) !! i = None)
          by (apply lookup_replicate_None; lia).
        rewrite Hn. rewrite decide_False; [done|lia]. }
    intros i j. rewrite !Hcell.
    destruct (decide (i < n ∧ j < n)%nat).
    + rewrite decide_True; [done|lia].
    + rewrite decide_False; [done|lia].
  - intros i Hi. lia.
Qed.

End MatrixFacts.

Section Builders.
Context {F : Type} `{Float64 F}.
Variable sim : User F → User F → result F.
Hypothesis sim_total : ∀ u1 u2, ∃ r, sim u1 u2 = Ok r.



Lemma concurrent_init_spec (n : nat) :
  ∃ M, concurrent_init n = Ok M ∧ matrix_inv n n M.
Proof.
  unfold concurrent_init.
  destruct (foldM_seq_invariant (init_inv n)
              (λ M i, mat_set (<[i := replicate n fzero]> M) i i fone) 0 n
              (replicate n [])) as (M & HM & Hlen & Hrows & _).
  - intros k M Hk (Hlen & Hlow & Hhigh). unfold mat_set, index.
    rewrite list_lookup_insert_eq by lia. ok_step.
    rewrite length_replicate. destruct (Nat.ltb_spec k n); [|lia].
    eexists. split; [reflexivity|]. rewrite list_insert_insert_eq.
    split; [by rewrite length_insert|]. split.
    + intros i Hi. destruct (decide (k = i)) as [->|Hne].
      * by rewrite list_lookup_insert_eq by lia.
      * rewrite list_lookup_insert_ne by done. apply Hlow. lia.
    + intros i Hi. rewrite list_lookup_insert_ne by lia. apply Hhigh. lia.
  - split; [by rewrite length_replicate|]. split; [lia|].
    intros i Hi. apply lookup_replicate_2. lia.
  - exists M. split; [done|]. simpl in Hrows.
    assert (Hcell : ∀ i j, cell M i j
        = if decide (i < n ∧ j < n)%nat
          then Some (if decide (i = j) then fone else fzero) else None).
    { intros i j. unfold cell. destruct (decide (i < n)%nat) as [Hi|Hi].
      - rewrite Hrows by done. destruct (decide (j < n)%nat) as [Hj|Hj].
        + rewrite decide_True by done. destruct (decide (i = j)) as [->|Hne].
          * rewrite list_lookup_insert_eq; [done|]. by rewrite length_replicate.
          * rewrite list_lookup_insert_ne by done. by apply lookup_replicate_2.
        + rewrite decide_False by lia. apply lookup_ge_None.
          rewrite length_insert, length_replicate. lia.
      - rewrite decide_False by lia.
        assert (Hn : M !! i = None) by (apply lookup_ge_None; lia).
        by rewrite Hn. }
    split; [|split].
    + split; [done|]. intros i row Hrow.
      assert (Hi : (i < n)%nat) by (apply lookup_lt_Some in Hrow; lia).
      rewrite Hrows in Hrow by done. injection Hrow as <-.
      by rewrite length_insert, length_replicate.
    + intros i j. rewrite !Hcell.
      repeat case_decide; subst; try done; lia.
    + intros i Hi. rewrite Hcell.
      repeat case_decide; subst; try done; lia.
Qed.

Lemma jobs_elem (n i j : nat) : (i, j) ∈ jobs n → (i < j < n)%nat.
Proof.
  intros Hin. apply list_elem_of_In in Hin. unfold jobs in Hin.
  apply in_flat_map in Hin as (i' & Hi' & Hin).
  apply in_map_iff in Hin as (j' & [= -> ->] & Hj').
  apply in_seq in Hi'. apply in_seq in Hj'. lia.
Qed.

End Builders.

(** ** The goroutines of the concurrent builders *)

Section ConcurrentFacts.
Context {F : Type} `{Float64 F}.
Variable sim : User F → User F → result F.
Hypothesis sim_total : ∀ u1 u2, ∃ r, sim u1 u2 = Ok r.
Variable users : list (User F).
Variable numWorkers : Z.

Local Abbreviation n := (length users).
Local Abbreviation exec := (concurrent_exec sim users numWorkers).
Local Abbreviation prog := (similarity_concurrent sim users numWorkers).
Local Abbreviation inv := (builder_inv sim users numWorkers).

Lemma write_pair_compute (M : list (list F)) (i j : nat) :
  write_pair sim users M (i, j) = (v ← compute sim users i j; store M i j v).
Proof.
  unfold write_pair, compute, store.
  destruct (index users i) as [ui| |]; [|done|done].
  destruct (index users j) as [uj| |]; [|done|done].
  rewrite !bind_Ok; cbv beta. by destruct (sim ui uj).
Qed.

Lemma compute_ok (i j : nat) :
  (i, j) ∈ jobs n → ∃ v, compute sim users i j = Ok v.
Proof using sim_total.
  intros Hij. apply jobs_elem in Hij. unfold compute, index.
  destruct (lookup_lt_is_Some_2 users i ltac:(lia)) as [ui ->].
  destruct (lookup_lt_is_Some_2 users j ltac:(lia)) as [uj ->].
  rewrite !bind_Ok; cbv beta. apply sim_total.
Qed.

(** The results stored so far leave a matrix with unit diagonal, equal to
    its transpose. *)
Lemma collected_inv (M0 : list (list F)) (applied : list (nat * nat)) :
  matrix_inv n n M0 → applied ⊆ jobs n →
  ∃ M, foldM (write_pair sim users) applied M0 = Ok M ∧ matrix_inv n n M.
Proof using sim_total.
  intros Hinv0 Hsub.
  apply (foldM_invariant (matrix_inv n n) (λ ij, (ij.1 < ij.2 < n)%nat)); [| |done].
  - apply Forall_forall. intros [i j] Hij. apply Hsub in Hij.
    by apply jobs_elem in Hij.
  - intros M [i j] Hij Hinv. by apply write_pair_inv.
Qed.

Lemma held_insert (ws : list (worker F)) (k : nat) (w w' : worker F) :
  ws !! k = Some w →
  held (<[k := w']> ws) ++ job_of w ≡ₚ held ws ++ job_of w'.
Proof.
  intros Hk. rewrite insert_take_drop by (by eapply lookup_lt_Some).
  rewrite <- (take_drop_middle ws k w Hk) at 3.
  unfold held. rewrite !bind_app, !bind_cons. solve_Permutation.
Qed.

Lemma live_insert (ws : list (worker F)) (k : nat) (w w' : worker F) :
  ws !! k = Some w →
  (live (<[k := w']> ws) + alive w = live ws + alive w')%nat.
Proof.
  intros Hk. rewrite insert_take_drop by (by eapply lookup_lt_Some).
  rewrite <- (take_drop_middle ws k w Hk) at 3.
  unfold live. rewrite !sum_list_with_app. simpl. lia.
Qed.

Lemma live_zero (ws : list (worker F)) :
  live ws = 0%nat ↔ Forall exited ws.
Proof.
  unfold live. induction ws as [|w ws IH]; simpl.
  - split; [by constructor | done].
  - rewrite Forall_cons. destruct w; simpl; rewrite <- ?IH; split; try lia; tauto.
Qed.

Lemma concurrent_start_ok :
  chan_size_ok (bufferSize n numWorkers) →
  ∃ s0, concurrent_start users numWorkers = Ok s0.
Proof.
  intros [Hpos Hfit]. unfold concurrent_start, makechan.
  destruct (concurrent_init_spec n) as (M0 & -> & _). rewrite bind_Ok; cbv beta.
  destruct (Z.ltb_spec (bufferSize n numWorkers) 0); [lia|].
  destruct (Z.ltb_spec (maxAlloc - hchanSize) (16 * bufferSize n numWorkers)); [lia|].
  destruct (Z.ltb_spec (maxAlloc - hchanSize) (24 * bufferSize n numWorkers)); [lia|].
  cbn [orb]. rewrite !bind_Ok. by eexists.
Qed.

Lemma concurrent_start_negative :
  bufferSize n numWorkers < 0 →
  concurrent_start users numWorkers = Panic makechan_size_out_of_range.
Proof.
  intros Hneg. unfold concurrent_start, makechan.
  destruct (concurrent_init_spec n) as (M0 & -> & _). rewrite bind_Ok; cbv beta.
  by destruct (Z.ltb_spec (bufferSize n numWorkers) 0); [|lia].
Qed.

Lemma concurrent_start_inv (s0 : builder F) :
  concurrent_start users numWorkers = Ok s0 →
  ∃ M0, concurrent_init n = Ok M0 ∧ matrix_inv n n M0 ∧ inv M0 [] s0.
Proof.
  unfold concurrent_start. destruct (concurrent_init_spec n) as (M0 & -> & Hinv0).
  rewrite bind_Ok; cbv beta.
  destruct (makechan 16 _) as [[]| |]; [|done|done].
  destruct (makechan 24 _) as [[]| |]; [|done|done].
  rewrite !bind_Ok; cbv beta. intros [= <-].
  exists M0. split; [done|]. split; [done|]. split; cbn; try done.
  - repeat split; try done; unfold started; lia.
  - right. constructor.
Qed.

Ltac simpl_state :=
  cbn [main workers wg sender closer jobs_chan results_chan similarity
       set_main set_workers set_sender set_closer set_jobs set_results
       set_similarity buf closed] in *.

Lemma store_applied (M0 M : list (list F)) (applied : list (nat * nat))
    (i j : nat) (v : F) :
  matrix_inv n n M0 → foldM (write_pair sim users) applied M0 = Ok M →
  applied ⊆ jobs n → (i, j) ∈ jobs n → compute sim users i j = Ok v →
  ∃ M', store M i j v = Ok M'
        ∧ foldM (write_pair sim users) (applied ++ [(i, j)]) M0 = Ok M'.
Proof using sim_total.
  intros Hinv0 HM Hsub Hij Hv.
  destruct (collected_inv M0 (applied ++ [(i, j)]) Hinv0) as (M' & HM' & _).
  { intros ij Hin. apply elem_of_app in Hin as [Hin|Hin]; [by apply Hsub|].
    apply list_elem_of_singleton in Hin. by subst. }
  exists M'. split; [|done].
  rewrite (foldM_app _ _ _ _ _ HM) in HM'. cbn [foldM] in HM'.
  rewrite write_pair_compute, Hv, bind_Ok in HM'.
  by destruct (store M i j v).
Qed.

Lemma applied_sub (M0 : list (list F)) (applied : list (nat * nat)) (s : builder F) :
  inv M0 applied s → applied ⊆ jobs n.
Proof.
  intros Hinv ij Hin. rewrite (inv_jobs _ _ _ _ _ _ Hinv).
  apply elem_of_app. by left.
Qed.

Lemma in_flight_sub (M0 : list (list F)) (applied : list (nat * nat)) (s : builder F)
    (ij : nat * nat) :
  inv M0 applied s → ij ∈ in_flight users s → ij ∈ jobs n.
Proof.
  intros Hinv Hin. rewrite (inv_jobs _ _ _ _ _ _ Hinv).
  apply elem_of_app. by right.
Qed.

Lemma exec_Call (M0 : list (list F)) (applied : list (nat * nat)) (s : builder F)
    (c' : result (builder F)) :
  matrix_inv n n M0 → inv M0 applied s → exec Call s = Some c' →
  ∃ applied' s', c' = Ok s' ∧ inv M0 applied' s'
                 ∧ (weight users numWorkers s' < weight users numWorkers s)%nat.
Proof using sim_total.
  intros Hinv0 Hinv. pose proof (inv_phase _ _ _ _ _ _ Hinv) as Hph.
  pose proof (inv_results _ _ _ _ _ _ Hinv) as Hres.
  unfold concurrent_exec, phase in *.
  destruct (main s) as [w| | | |] eqn:Hmain.
  - destruct Hph as (Hw0 & Hlen & Hsd & Hcl).
    destruct (Z.ltb_spec w numWorkers) as [Hlt|Hge]; intros [= <-];
      destruct Hinv as [Hm Hj Hr Hw Hwg _ Hs He Hc Hn].
    + exists applied. eexists. split; [done|]. split.
      * split; simpl_state; try done.
        -- unfold in_flight, unsent, held in *. simpl_state.
           rewrite bind_app. cbn. by rewrite !app_nil_r.
        -- apply Forall_app. split; [done|]. by repeat constructor.
        -- unfold live in *. rewrite sum_list_with_app. simpl. lia.
        -- unfold phase. simpl_state. rewrite length_app. simpl.
           unfold started in *. repeat split; try done; lia.
        -- destruct He as [He|He]; [by left|]. right.
           apply Forall_app. split; [done|]. by repeat constructor.
        -- intros Hcr. destruct (Hc Hcr) as [Hcl' _]. congruence.
        -- intros Hnil. by apply app_eq_nil in Hnil as [_ ?].
      * unfold weight, unsent, held, live in *. simpl_state. rewrite Hmain.
        rewrite bind_app, sum_list_with_app, !length_app. simpl.
        unfold started in *. lia.
    + exists applied. eexists. split; [done|]. split.
      * split; simpl_state; try done.
        unfold phase. simpl_state. unfold started in *. repeat split; try done; lia.
      * unfold weight, unsent in *. simpl_state. rewrite Hmain. simpl. lia.
  - destruct Hph as (Hlen & Hsd & Hcl). intros [= <-].
    destruct Hinv as [Hm Hj Hr Hw Hwg _ Hs He Hc Hn].
    exists applied. eexists. split; [done|]. split.
    + split; simpl_state; try done.
      * unfold in_flight, unsent in *. simpl_state. by rewrite Hsd in Hj.
      * intros Hcj. specialize (Hs Hcj). congruence.
    + unfold weight, unsent in *. simpl_state. rewrite Hmain, Hsd. simpl. lia.
  - destruct Hph as (Hlen & Hsd & Hcl). intros [= <-].
    destruct Hinv as [Hm Hj Hr Hw Hwg _ Hs He Hc Hn].
    exists applied. eexists. split; [done|]. split.
    + split; simpl_state; try done.
      intros Hcr. destruct (Hc Hcr) as [Hcl' _]. congruence.
    + unfold weight, unsent in *. simpl_state. rewrite Hmain. simpl. lia.
  - destruct Hph as (Hlen & Hsd & Hcl).
    destruct (buf (results_chan s)) as [|[[i j] v] rest] eqn:Hbuf.
    + destruct (closed (results_chan s)) eqn:Hcr; [|done]. intros [= <-].
      destruct Hinv as [Hm Hj Hr Hw Hwg _ Hs He Hc Hn].
      exists applied. eexists. split; [done|]. split.
      * split; simpl_state; try done.
        all: unfold phase; simpl_state; by rewrite ?Hbuf, ?Hcr.
      * unfold weight, unsent in *. simpl_state. rewrite Hmain. simpl. lia.
    + apply Forall_cons in Hres as [Hv Hres]. cbn [fst snd] in Hv.
      assert (Hij : (i, j) ∈ jobs n).
      { apply (in_flight_sub M0 applied s); [done|].
        unfold in_flight. rewrite Hbuf. cbn. apply list_elem_of_here. }
      destruct (store_applied M0 (similarity s) applied i j v Hinv0
                  (inv_matrix _ _ _ _ _ _ Hinv)
                  (applied_sub _ _ _ Hinv) Hij Hv) as (M' & HM' & Happ).
      rewrite HM', bind_Ok. intros [= <-].
      destruct Hinv as [Hm Hj Hr Hw Hwg _ Hs He Hc Hn].
      exists (applied ++ [(i, j)]). eexists. split; [done|]. split.
      * split; simpl_state; try done.
        -- rewrite Hj. unfold in_flight. simpl_state. rewrite Hbuf.
           cbn [fmap list_fmap fst]. solve_Permutation.
        -- unfold phase. simpl_state. by rewrite Hmain.
        -- intros Hnil. destruct (Hn Hnil) as [_ Hb]. by rewrite Hbuf in Hb.
      * unfold weight, unsent, open_weight in *. simpl_state. rewrite Hbuf. cbn [length]. lia.
  - done.
Qed.

Lemma exited_lookup (ws : list (worker F)) (k : nat) (w : worker F) :
  Forall exited ws → ws !! k = Some w → w = Exited.
Proof.
  intros Hall Hk. apply (Forall_lookup_1 _ _ _ _ Hall) in Hk. by destruct w.
Qed.

Lemma held_lookup (ws : list (worker F)) (k i j : nat) (v : F) :
  ws !! k = Some (Sending i j v) → (i, j) ∈ held ws.
Proof.
  intros Hk. unfold held. apply list_elem_of_bind.
  exists (Sending i j v). split; [apply list_elem_of_here|].
  by apply list_elem_of_lookup_2 in Hk.
Qed.

Lemma insert_not_nil {A} (l : list A) (k : nat) (x y : A) :
  l !! k = Some x → <[k := y]> l ≠ [].
Proof.
  intros Hk Hnil. apply (f_equal length) in Hnil.
  rewrite length_insert in Hnil. apply lookup_lt_Some in Hk. simpl in Hnil. lia.
Qed.

Lemma exec_CallTakes (M0 : list (list F)) (applied : list (nat * nat)) (s : builder F)
    (k : nat) (c' : result (builder F)) :
  matrix_inv n n M0 → inv M0 applied s → exec (CallTakes k) s = Some c' →
  ∃ applied' s', c' = Ok s' ∧ inv M0 applied' s'
                 ∧ (weight users numWorkers s' < weight users numWorkers s)%nat.
Proof using sim_total.
  intros Hinv0 Hinv. pose proof (inv_phase _ _ _ _ _ _ Hinv) as Hph.
  unfold concurrent_exec, phase in *.
  destruct (main s) eqn:Hmain; try done.
  destruct (buf (results_chan s)) eqn:Hbuf; [|done].
  destruct (workers s !! k) as [[|i j v|]|] eqn:Hk; try done.
  destruct (closed (results_chan s)) eqn:Hopen; [done|].
  assert (Hv : compute sim users i j = Ok v).
  { apply (Forall_lookup_1 _ _ _ _ (inv_workers _ _ _ _ _ _ Hinv) Hk). }
  assert (Hij : (i, j) ∈ jobs n).
  { apply (in_flight_sub M0 applied s); [done|]. unfold in_flight.
    rewrite !elem_of_app. right. left. by apply (held_lookup _ k i j v). }
  destruct (store_applied M0 (similarity s) applied i j v Hinv0
              (inv_matrix _ _ _ _ _ _ Hinv)
              (applied_sub _ _ _ Hinv) Hij Hv) as (M' & HM' & Happ).
  rewrite HM', bind_Ok. intros [= <-].
  destruct Hinv as [Hm Hj Hr Hw Hwg _ Hs He Hc Hn].
  destruct Hph as (Hlen & Hsd & Hcl).
  pose proof (held_insert (workers s) k _ Receiving Hk) as Hheld.
  pose proof (live_insert (workers s) k _ Receiving Hk) as Hlive.
  cbn [job_of alive] in Hheld, Hlive. rewrite app_nil_r in Hheld.
  exists (applied ++ [(i, j)]). eexists. split; [done|]. split.
  - split; simpl_state; try done.
    + rewrite Hj. unfold in_flight. simpl_state. rewrite <- Hheld.
      solve_Permutation.
    + by apply Forall_insert.
    + rewrite Hwg. f_equal. lia.
    + unfold phase. simpl_state. by rewrite Hmain, length_insert.
    + destruct He as [He|He]; [by left|]. right. by apply Forall_insert.
    + intros Hcr. destruct (Hc Hcr) as [_ Hex].
      by pose proof (exited_lookup _ _ _ Hex Hk).
    + intros Hnil. by eapply insert_not_nil in Hnil.
  - apply Permutation_length in Hheld. rewrite length_app in Hheld. simpl in Hheld.
    unfold weight, unsent, open_weight in *. simpl_state. lia.
Qed.

Lemma exec_Send (M0 : list (list F)) (applied : list (nat * nat)) (s : builder F)
    (c' : result (builder F)) :
  inv M0 applied s → exec Send s = Some c' →
  ∃ s', c' = Ok s' ∧ inv M0 applied s'
        ∧ (weight users numWorkers s' < weight users numWorkers s)%nat.
Proof.
  intros Hinv. pose proof (inv_phase _ _ _ _ _ _ Hinv) as Hph.
  unfold concurrent_exec.
  destruct (sender s) as [[|job rest]|] eqn:Hsd; [| |done].
  - destruct (closed (jobs_chan s)) eqn:Hcj; [done|]. intros [= <-].
    destruct Hinv as [Hm Hj Hr Hw Hwg _ Hs He Hc Hn].
    eexists. split; [done|]. split.
    + split; simpl_state; try done.
      destruct He as [[He _]|He]; [congruence | by right].
    + unfold weight, unsent, open_weight in *. simpl_state. rewrite Hcj, Hsd. lia.
  - destruct (closed (jobs_chan s)) eqn:Hopen.
    { pose proof (inv_sender _ _ _ _ _ _ Hinv Hopen). congruence. }
    destruct (Z.ltb_spec (Z.of_nat (length (buf (jobs_chan s))))
                (bufferSize n numWorkers)); [|done].
    intros [= <-].
    destruct Hinv as [Hm Hj Hr Hw Hwg _ Hs He Hc Hn].
    eexists. split; [done|]. split.
    + split; simpl_state; try done.
      * rewrite Hj. unfold in_flight, unsent. simpl_state. rewrite Hsd.
        solve_Permutation.
      * unfold phase in *. simpl_state. rewrite Hsd in Hph.
        destruct (main s); intuition congruence.
      * destruct He as [[He _]|He]; [congruence | by right].
    + unfold weight, unsent, open_weight in *. simpl_state.
      rewrite Hsd, Hopen, length_app. cbn [length]. lia.
Qed.

Lemma exec_SendTo (M0 : list (list F)) (applied : list (nat * nat)) (s : builder F)
    (k : nat) (c' : result (builder F)) :
  inv M0 applied s → exec (SendTo k) s = Some c' →
  ∃ s', c' = Ok s' ∧ inv M0 applied s'
        ∧ (weight users numWorkers s' < weight users numWorkers s)%nat.
Proof using sim_total.
  intros Hinv. pose proof (inv_phase _ _ _ _ _ _ Hinv) as Hph.
  unfold concurrent_exec.
  destruct (sender s) as [[|[i j] rest]|] eqn:Hsd; try done.
  destruct (buf (jobs_chan s)) eqn:Hbuf; [|done].
  destruct (workers s !! k) as [[|i' j' v'|]|] eqn:Hk; try done.
  destruct (closed (jobs_chan s)) eqn:Hopen; [done|].
  assert (Hij : (i, j) ∈ jobs n).
  { apply (in_flight_sub M0 applied s); [done|]. unfold in_flight, unsent.
    rewrite Hsd, !elem_of_app. do 3 right. apply list_elem_of_here. }
  destruct (compute_ok i j Hij) as [v Hv]. rewrite Hv, bind_Ok. intros [= <-].
  destruct Hinv as [Hm Hj Hr Hw Hwg _ Hs He Hc Hn].
  pose proof (held_insert (workers s) k _ (Sending i j v) Hk) as Hheld.
  pose proof (live_insert (workers s) k _ (Sending i j v) Hk) as Hlive.
  cbn [job_of alive] in Hheld, Hlive. rewrite app_nil_r in Hheld.
  eexists. split; [done|]. split.
  - split; simpl_state; try done.
    + rewrite Hj. unfold in_flight, unsent. simpl_state. rewrite Hsd, Hheld, Hbuf.
      solve_Permutation.
    + by apply Forall_insert.
    + rewrite Hwg. f_equal. lia.
    + unfold phase in *. simpl_state. rewrite Hsd in Hph. rewrite length_insert.
      destruct (main s); intuition congruence.
    + intros Hcj. congruence.
    + destruct He as [[He _]|He]; [congruence|]. right. by apply Forall_insert.
    + intros Hcr. destruct (Hc Hcr) as [_ Hex].
      by pose proof (exited_lookup _ _ _ Hex Hk).
    + intros Hnil. by eapply insert_not_nil in Hnil.
  - apply Permutation_length in Hheld. rewrite length_app in Hheld. simpl in Hheld.
    unfold weight, unsent, open_weight in *. simpl_state.
    rewrite Hsd. cbn [length]. lia.
Qed.

Lemma exec_Work (M0 : list (list F)) (applied : list (nat * nat)) (s : builder F)
    (k : nat) (c' : result (builder F)) :
  inv M0 applied s → exec (Work k) s = Some c' →
  ∃ s', c' = Ok s' ∧ inv M0 applied s'
        ∧ (weight users numWorkers s' < weight users numWorkers s)%nat.
Proof using sim_total.
  intros Hinv. pose proof (inv_phase _ _ _ _ _ _ Hinv) as Hph.
  unfold concurrent_exec.
  destruct (workers s !! k) as [[|i j v|]|] eqn:Hk; try done.
  - destruct (buf (jobs_chan s)) as [|[i j] rest] eqn:Hbuf.
    + destruct (closed (jobs_chan s)) eqn:Hcj; [|done]. intros [= <-].
      destruct Hinv as [Hm Hj Hr Hw Hwg _ Hs He Hc Hn].
      pose proof (held_insert (workers s) k _ Exited Hk) as Hheld.
      pose proof (live_insert (workers s) k _ Exited Hk) as Hlive.
      cbn [job_of alive] in Hheld, Hlive. rewrite !app_nil_r in Hheld.
      eexists. split; [done|]. split.
      * split; simpl_state; try done.
        -- rewrite Hj. unfold in_flight, unsent. simpl_state. by rewrite Hheld.
        -- by apply Forall_insert.
        -- rewrite Hwg. lia.
        -- unfold phase in *. simpl_state. rewrite length_insert.
           destruct (main s); intuition congruence.
        -- left. by rewrite Hbuf.
        -- intros Hcr. destruct (Hc Hcr) as [_ Hex].
           by pose proof (exited_lookup _ _ _ Hex Hk).
        -- intros Hnil. by eapply insert_not_nil in Hnil.
      * apply Permutation_length in Hheld.
        unfold weight, unsent, open_weight in *. simpl_state. lia.
    + assert (Hij : (i, j) ∈ jobs n).
      { apply (in_flight_sub M0 applied s); [done|]. unfold in_flight.
        rewrite Hbuf, !elem_of_app. right. right. left. apply list_elem_of_here. }
      destruct (compute_ok i j Hij) as [v Hv]. rewrite Hv, bind_Ok. intros [= <-].
      destruct Hinv as [Hm Hj Hr Hw Hwg _ Hs He Hc Hn].
      pose proof (held_insert (workers s) k _ (Sending i j v) Hk) as Hheld.
      pose proof (live_insert (workers s) k _ (Sending i j v) Hk) as Hlive.
      cbn [job_of alive] in Hheld, Hlive. rewrite app_nil_r in Hheld.
      eexists. split; [done|]. split.
      * split; simpl_state; try done.
        -- rewrite Hj. unfold in_flight, unsent. simpl_state. rewrite Hheld, Hbuf.
           solve_Permutation.
        -- by apply Forall_insert.
        -- rewrite Hwg. f_equal. lia.
        -- unfold phase in *. simpl_state. rewrite length_insert.
           destruct (main s); intuition congruence.
        -- destruct He as [[_ He]|He]; [congruence|]. right. by apply Forall_insert.
        -- intros Hcr. destruct (Hc Hcr) as [_ Hex].
           by pose proof (exited_lookup _ _ _ Hex Hk).
        -- intros Hnil. by eapply insert_not_nil in Hnil.
      * apply Permutation_length in Hheld. rewrite length_app in Hheld.
        simpl in Hheld.
        unfold weight, unsent, open_weight in *. simpl_state.
        rewrite Hbuf. cbn [length]. lia.
  - destruct (closed (results_chan s)) eqn:Hopen.
    { destruct (inv_close _ _ _ _ _ _ Hinv Hopen) as [_ Hex].
      by pose proof (exited_lookup _ _ _ Hex Hk). }
    destruct (Z.ltb_spec (Z.of_nat (length (buf (results_chan s))))
                (bufferSize n numWorkers)); [|done].
    intros [= <-].
    assert (Hv : compute sim users i j = Ok v).
    { apply (Forall_lookup_1 _ _ _ _ (inv_workers _ _ _ _ _ _ Hinv) Hk). }
    destruct Hinv as [Hm Hj Hr Hw Hwg _ Hs He Hc Hn].
    pose proof (held_insert (workers s) k _ Receiving Hk) as Hheld.
    pose proof (live_insert (workers s) k _ Receiving Hk) as Hlive.
    cbn [job_of alive] in Hheld, Hlive. rewrite app_nil_r in Hheld.
    eexists. split; [done|]. split.
    + split; simpl_state; try done.
      * rewrite Hj. unfold in_flight, unsent. simpl_state. rewrite <- Hheld.
        rewrite fmap_app. cbn [fmap list_fmap fst]. solve_Permutation.
      * apply Forall_app. split; [done|]. by repeat constructor.
      * by apply Forall_insert.
      * rewrite Hwg. f_equal. lia.
      * unfold phase in *. simpl_state. rewrite length_insert.
        destruct (main s) eqn:Hmain; intuition congruence.
      * destruct He as [He|He]; [by left|]. right. by apply Forall_insert.
      * intros Hnil. by eapply insert_not_nil in Hnil.
    + apply Permutation_length in Hheld. rewrite length_app in Hheld.
      simpl in Hheld.
      unfold weight, unsent, open_weight in *. simpl_state.
      rewrite Hopen, length_app. cbn [length]. lia.
Qed.

Lemma exec_Close (M0 : list (list F)) (applied : list (nat * nat)) (s : builder F)
    (c' : result (builder F)) :
  inv M0 applied s → exec Close s = Some c' →
  ∃ s', c' = Ok s' ∧ inv M0 applied s'
        ∧ (weight users numWorkers s' < weight users numWorkers s)%nat.
Proof.
  intros Hinv. pose proof (inv_phase _ _ _ _ _ _ Hinv) as Hph.
  unfold concurrent_exec.
  destruct (closer s) eqn:Hcl; [|done].
  destruct (Z.eqb_spec (wg s) 0) as [Hwg0|]; [|done].
  destruct (closed (results_chan s)) eqn:Hcr; [done|]. intros [= <-].
  destruct Hinv as [Hm Hj Hr Hw Hwg _ Hs He Hc Hn].
  eexists. split; [done|]. split.
  - split; simpl_state; try done.
    + unfold phase in *. simpl_state.
      destruct (main s); intuition congruence.
    + intros _. split; [done|]. apply live_zero. lia.
  - unfold weight, unsent, open_weight in *. simpl_state. rewrite Hcr. lia.
Qed.

(** Every step keeps the invariant and leaves less work. *)
Lemma exec_inv (M0 : list (list F)) (applied : list (nat * nat)) (s : builder F)
    (a : action) (c' : result (builder F)) :
  matrix_inv n n M0 → inv M0 applied s → exec a s = Some c' →
  ∃ applied' s', c' = Ok s' ∧ inv M0 applied' s'
                 ∧ (weight users numWorkers s' < weight users numWorkers s)%nat.
Proof using sim_total.
  intros Hinv0 Hinv Hexec. destruct a as [|k| |k|k|].
  - by apply (exec_Call M0 applied s).
  - by apply (exec_CallTakes M0 applied s k).
  - destruct (exec_Send M0 applied s c' Hinv Hexec) as (s' & ? & ? & ?).
    by exists applied, s'.
  - destruct (exec_SendTo M0 applied s k c' Hinv Hexec) as (s' & ? & ? & ?).
    by exists applied, s'.
  - destruct (exec_Work M0 applied s k c' Hinv Hexec) as (s' & ? & ? & ?).
    by exists applied, s'.
  - destruct (exec_Close M0 applied s c' Hinv Hexec) as (s' & ? & ? & ?).
    by exists applied, s'.
Qed.

Lemma workers_cases (ws : list (worker F)) :
  (∃ k i j v, ws !! k = Some (Sending i j v))
  ∨ (∃ k, ws !! k = Some Receiving)
  ∨ Forall exited ws.
Proof.
  induction ws as [|w ws IH].
  - right. right. constructor.
  - destruct w as [|i j v|].
    + right. left. by exists 0%nat.
    + left. by exists 0%nat, i, j, v.
    + destruct IH as [(k & i & j & v & Hk)|[(k & Hk)|Hall]].
      * left. by exists (S k), i, j, v.
      * right. left. by exists (S k).
      * right. right. by constructor.
Qed.

(** Before the return, some goroutine can take a step. *)
Lemma exec_progress (M0 : list (list F)) (applied : list (nat * nat)) (s : builder F) :
  inv M0 applied s → main s ≠ Returned → ∃ a c', exec a s = Some c'.
Proof.
  intros [Hm Hj Hr Hw Hwg Hph Hs He Hc Hn] Hmain.
  unfold phase in Hph.
  destruct (main s) as [w| | | |] eqn:Hm'; [| | | |done].
  - exists Call. unfold concurrent_exec. rewrite Hm'. destruct (w <? numWorkers); by eexists.
  - exists Call. unfold concurrent_exec. rewrite Hm'. by eexists.
  - exists Call. unfold concurrent_exec. rewrite Hm'. by eexists.
  - destruct Hph as (Hlen & Hsd & Hcl).
    destruct (buf (results_chan s)) as [|[[i j] v] rest] eqn:Hbuf.
    2: { exists Call. unfold concurrent_exec. rewrite Hm', Hbuf. by eexists. }
    destruct (closed (results_chan s)) eqn:Hcr.
    { exists Call. unfold concurrent_exec. rewrite Hm', Hbuf, Hcr. by eexists. }
    destruct (workers_cases (workers s)) as [(k & i & j & v & Hk)|[(k & Hk)|Hall]].
    + exists (CallTakes k). unfold concurrent_exec. rewrite Hm', Hbuf, Hk, Hcr. by eexists.
    + destruct (buf (jobs_chan s)) as [|[i j] rest] eqn:Hjb.
      2: { exists (Work k). unfold concurrent_exec. rewrite Hk, Hjb. by eexists. }
      destruct (closed (jobs_chan s)) eqn:Hcj.
      { exists (Work k). unfold concurrent_exec. rewrite Hk, Hjb, Hcj. by eexists. }
      destruct (sender s) as [[|[i j] rest]|] eqn:Hsender; [| |done].
      * exists Send. unfold concurrent_exec. rewrite Hsender, Hcj. by eexists.
      * exists (SendTo k). unfold concurrent_exec. rewrite Hsender, Hjb, Hk, Hcj. by eexists.
    + assert (Hz : wg s = 0) by (apply live_zero in Hall; lia).
      exists Close. unfold concurrent_exec. rewrite Hcl, Hcr, Hz. by eexists.
Qed.

Lemma held_exited (ws : list (worker F)) : Forall exited ws → held ws = [].
Proof.
  unfold held. induction 1 as [|w ws Hw _ IH]; [done|].
  rewrite bind_cons, IH. by destruct w.
Qed.

(** At the return every job has been stored, when there is a worker, and
    none otherwise. *)
Lemma returned_applied (M0 : list (list F)) (applied : list (nat * nat))
    (s : builder F) :
  inv M0 applied s → main s = Returned →
  (1 ≤ numWorkers → jobs n ≡ₚ applied) ∧ (numWorkers ≤ 0 → applied = []).
Proof.
  intros [Hm Hj Hr Hw Hwg Hph Hs He Hc Hn] Hmain.
  unfold phase in Hph. rewrite Hmain in Hph.
  destruct Hph as (Hlen & Hsd & Hcl & Hcr & Hbuf).
  destruct (Hc Hcr) as [_ Hex]. unfold started in Hlen. split.
  - intros HW. destruct (workers s) as [|w ws] eqn:Hws; [simpl in Hlen; lia|].
    apply Forall_cons in Hex as [Hw0 Hex]. destruct w; try done.
    destruct He as [[Hcj Hjb]|He]; [|by apply Forall_cons in He as [? _]].
    rewrite Hj. unfold in_flight, unsent.
    rewrite Hbuf, Hjb, (Hs Hcj), Hws, held_exited by (by constructor).
    by rewrite !app_nil_r.
  - intros HW. apply Hn. destruct (workers s); [done | simpl in Hlen; lia].
Qed.

Lemma nsteps_inv (M0 : list (list F)) (k : nat) (c c' : result (builder F)) :
  matrix_inv n n M0 → nsteps (step prog) k c c' →
  ∀ applied s, c = Ok s → inv M0 applied s →
  ∃ applied' s', c' = Ok s' ∧ inv M0 applied' s'
                 ∧ (k + weight users numWorkers s' ≤ weight users numWorkers s)%nat.
Proof using sim_total.
  intros Hinv0. induction 1 as [c|k c c1 c' Hstep _ IH]; intros applied s -> Hinv.
  - exists applied, s. split; [done|]. split; [done|]. lia.
  - destruct Hstep as (a & s0 & [= <-] & Hexec).
    destruct (exec_inv M0 applied s a c1 Hinv0 Hinv Hexec) as (applied1 & s1 & -> & Hinv1 & Hlt).
    destruct (IH applied1 s1 eq_refl Hinv1) as (applied' & s' & -> & Hinv' & Hle).
    exists applied', s'. split; [done|]. split; [done|]. lia.
Qed.

(** A concurrent builder whose channels can be made returns under every
    schedule, and it returns the matrix in which the results of all the
    jobs are stored, in some order, when it has a worker, and the matrix
    of its first loop when it has none. *)
Lemma concurrent_returns (P : list (list F) → Prop) :
  chan_size_ok (bufferSize n numWorkers) →
  (∀ M0 applied M, concurrent_init n = Ok M0 →
     foldM (write_pair sim users) applied M0 = Ok M →
     (1 ≤ numWorkers → jobs n ≡ₚ applied) → (numWorkers ≤ 0 → applied = []) →
     P M) →
  always_returns prog P.
Proof using sim_total.
  intros Hsize HP.
  destruct (concurrent_start_ok Hsize) as [s0 Hstart].
  destruct (concurrent_start_inv s0 Hstart)
    as (M0 & Hinit & Hinv0 & Hinv).
  unfold always_returns. cbn [start similarity_concurrent]. rewrite Hstart.
  split.
  - exists (weight users numWorkers s0). intros k c Hsteps.
    destruct (nsteps_inv M0 k _ _ Hinv0 Hsteps [] s0 eq_refl Hinv)
      as (applied' & s' & _ & _ & Hle). lia.
  - intros c Hrtc. apply rtc_nsteps_1 in Hrtc as [k Hsteps].
    destruct (nsteps_inv M0 k _ _ Hinv0 Hsteps [] s0 eq_refl Hinv)
      as (applied' & s' & -> & Hinv' & _).
    exists s'. split; [done|]. split.
    + intros Hret. destruct (returned_applied M0 applied' s' Hinv' Hret) as [H1 H2].
      apply (HP M0 applied' _ Hinit (inv_matrix _ _ _ _ _ _ Hinv') H1 H2).
    + intros Hnot. destruct (exec_progress M0 applied' s' Hinv' Hnot) as (a & c' & Hexec).
      exists c', a, s'. by split.
Qed.


End ConcurrentFacts.

Lemma pure_total {F} `{Float64 F} (f : User F → User F → F) (u1 u2 : User F) :
  ∃ r, (λ u1 u2, Ok (f u1 u2)) u1 u2 = Ok r.
Proof. by eexists. Qed.




(** * Further properties of the code *)

(** ** The selector on arbitrary scores

    The operations of [container/heap] on a [minHeap] return and keep the
    elements of the heap, whatever [Less] answers. *)

Section HeapShape.
Context {F : Type} `{Float64 F}.

(** [up] moves the element at [j] towards the root by swaps: it returns,
    and the heap keeps its elements. *)
Lemma up_loop_shape (fuel : nat) (h : minHeap F) (j : nat) :
  (j < fuel)%nat → (j < length h)%nat →
  ∃ h', up_loop fuel h j = Ok h' ∧ h' ≡ₚ h.
Proof.
  revert h j. induction fuel as [|fuel IH]; intros h j Hfuel Hj; [lia|].
  rewrite up_loop_S. destruct (Nat.eqb_spec ((j - 1) / 2) j) as [Heq|Hne].
  { by exists h. }
  assert (Hpj : ((j - 1) / 2 < j)%nat) by lia_div.
  destruct (lookup_lt_is_Some_2 h j Hj) as [x Hx].
  destruct (lookup_lt_is_Some_2 h ((j - 1) / 2) ltac:(lia)) as [y Hy].
  rewrite (Less_spec h j _ x y Hx Hy). rewrite bind_Ok; cbv beta.
  destruct (flt (score x) (score y)); cbn [negb]; [|by exists h].
  rewrite (Swap_spec h _ j y x Hy Hx). rewrite bind_Ok; cbv beta.
  pose proof (swap_Permutation h _ j y x Hy Hx) as Hperm.
  destruct (IH _ ((j - 1) / 2)%nat ltac:(lia)
              ltac:(rewrite (Permutation_length Hperm); lia)) as (h' & -> & Hperm').
  exists h'. split; [done|]. by rewrite Hperm'.
Qed.

Lemma down_loop_shape (fuel : nat) (h : minHeap F) (i n : nat) :
  (n - i < fuel)%nat → (n ≤ length h)%nat →
  ∃ h', down_loop fuel h i n = Ok h' ∧ h' ≡ₚ h
        ∧ ∀ k, (n ≤ k)%nat → h' !! k = h !! k.
Proof.
  revert h i. induction fuel as [|fuel IH]; intros h i Hfuel Hn; [lia|].
  rewrite down_loop_S. destruct (Nat.leb_spec n (2 * i + 1)) as [Hleaf|Hchild].
  { by exists h. }
  destruct (lookup_lt_is_Some_2 h i ltac:(lia)) as [hi Hhi].
  destruct (lookup_lt_is_Some_2 h (2 * i + 1) ltac:(lia)) as [c1 Hc1].
  assert (Hright : ∃ right : bool,
            (if Nat.ltb (2 * i + 1 + 1) n then Less h (2 * i + 1 + 1) (2 * i + 1)
             else Ok false) = Ok right
            ∧ (right = true → (2 * i + 1 + 1 < n)%nat)).
  { destruct (Nat.ltb_spec (2 * i + 1 + 1) n) as [Hlt|Hge].
    - destruct (lookup_lt_is_Some_2 h (2 * i + 1 + 1) ltac:(lia)) as [c2 Hc2].
      rewrite (Less_spec h _ _ c2 c1 Hc2 Hc1). by eexists.
    - exists false. by split. }
  destruct Hright as (right & -> & Hr). rewrite bind_Ok; cbv beta.
  set (j := (if right then 2 * i + 1 + 1 else 2 * i + 1)%nat).
  assert (Hj : (i < j < n)%nat).
  { subst j. destruct right; [specialize (Hr eq_refl)|]; lia. }
  destruct (lookup_lt_is_Some_2 h j ltac:(lia)) as [c Hc].
  rewrite (Less_spec h j i c hi Hc Hhi). rewrite bind_Ok; cbv beta.
  destruct (flt (score c) (score hi)); cbn [negb]; [|by exists h].
  rewrite (Swap_spec h i j hi c Hhi Hc). rewrite bind_Ok; cbv beta.
  pose proof (swap_Permutation h i j hi c Hhi Hc) as Hperm.
  destruct (IH (<[j := hi]> (<[i := c]> h)) j ltac:(lia)
              ltac:(rewrite (Permutation_length Hperm); lia))
    as (h' & -> & Hperm' & Hrest).
  exists h'. split; [done|]. split; [by rewrite Hperm'|].
  intros k Hk. rewrite Hrest by done.
  rewrite (swap_lookup h i j k hi c Hhi Hc).
  rewrite decide_False by lia. by rewrite decide_False by lia.
Qed.

Lemma heap_Push_shape (h : minHeap F) (x : neighbor F) :
  ∃ h', heap_Push h x = Ok h' ∧ h' ≡ₚ x :: h.
Proof.
  unfold heap_Push, minHeap_Push, up.
  destruct (up_loop_shape (S (length (h ++ [x]) - 1)) (h ++ [x])
              (length (h ++ [x]) - 1)) as (h' & -> & Hperm).
  - lia.
  - rewrite length_app. simpl. lia.
  - exists h'. split; [done|]. rewrite Hperm. by rewrite Permutation_app_comm.
Qed.

Lemma heap_Pop_shape (h : minHeap F) :
  h ≠ [] → ∃ r h', heap_Pop h = Ok (r, h') ∧ h ≡ₚ r :: h'.
Proof.
  intros Hne. unfold heap_Pop.
  destruct (length h) as [|n] eqn:Hlen; [by destruct h|].
  destruct (lookup_lt_is_Some_2 h 0 ltac:(lia)) as [r Hr].
  destruct (lookup_lt_is_Some_2 h n ltac:(lia)) as [l Hl].
  rewrite (Swap_spec h 0 n r l Hr Hl). rewrite bind_Ok; cbv beta.
  pose proof (swap_Permutation h 0 n r l Hr Hl) as Hperm1.
  unfold down.
  destruct (down_loop_shape (S n) (<[n := r]> (<[0%nat := l]> h)) 0 n)
    as (h2 & -> & Hperm2 & Hrest).
  - lia.
  - rewrite (Permutation_length Hperm1). lia.
  - rewrite bind_Ok; cbv beta. unfold minHeap_Pop.
    assert (Hlen2 : length h2 = S n).
    { by rewrite (Permutation_length Hperm2), (Permutation_length Hperm1). }
    rewrite Hlen2.
    destruct (lookup_lt_is_Some_2 h2 n ltac:(lia)) as [x Hx].
    unfold index. rewrite Hx. rewrite bind_Ok; cbv beta.
    exists x, (take n h2). split; [done|].
    rewrite <- Hperm1, <- Hperm2.
    rewrite <- (take_drop n h2) at 1.
    rewrite (drop_S h2 x n Hx).
    rewrite drop_ge by lia. by rewrite Permutation_app_comm.
Qed.

End HeapShape.

Section SelectorShape.
Context {F : Type} `{Float64 F}.

Lemma topN_offer_shape (n : Z) (seen : list (neighbor F)) (h : minHeap F)
    (e : Z * F) :
  1 ≤ n → length h = Nat.min (Z.to_nat n) (length seen) → h ⊆+ seen →
  ∃ h', topN_offer n h e = Ok h'
        ∧ length h' = Nat.min (Z.to_nat n) (S (length seen))
        ∧ h' ⊆+ seen ++ [{| id := fst e; score := snd e |}].
Proof.
  intros Hn Hlen Hsub. destruct e as [k sc]. unfold topN_offer. cbn [fst snd].
  set (x := {| id := k; score := sc |}).
  destruct (Z.ltb_spec (Z.of_nat (length h)) n) as [Hroom|Hfull].
  - destruct (heap_Push_shape h x) as (h' & -> & Hperm).
    exists h'. split; [done|]. split.
    + rewrite (Permutation_length Hperm). simpl. lia.
    + rewrite Hperm, <- Permutation_cons_append. by apply submseteq_skip.
  - destruct (lookup_lt_is_Some_2 h 0 ltac:(lia)) as [top Htop].
    unfold index. rewrite Htop. rewrite bind_Ok; cbv beta.
    destruct (fgt sc (score top)).
    + destruct (heap_Pop_shape h) as (r & h1 & -> & Hperm1); [by intros ->|].
      rewrite bind_Ok; cbv beta. cbn [snd].
      destruct (heap_Push_shape h1 x) as (h2 & -> & Hperm2).
      exists h2. split; [done|].
      pose proof (Permutation_length Hperm1) as Hl1. simpl in Hl1. split.
      * rewrite (Permutation_length Hperm2). simpl. lia.
      * rewrite Hperm2, <- Permutation_cons_append. apply submseteq_skip.
        rewrite <- Hsub, Hperm1. by apply submseteq_cons.
    + exists h. split; [done|]. split; [lia|].
      rewrite <- Permutation_cons_append. by apply submseteq_cons.
Qed.

Lemma topN_loop_shape (n : Z) (scores : gomap F) (seen : list (neighbor F))
    (h : minHeap F) :
  1 ≤ n → length h = Nat.min (Z.to_nat n) (length seen) → h ⊆+ seen →
  ∃ h', foldM (topN_offer n) scores h = Ok h'
        ∧ length h' = Nat.min (Z.to_nat n) (length seen + length scores)
        ∧ h' ⊆+ seen ++ neighbors_of scores.
Proof.
  intros Hn. revert seen h.
  induction scores as [|e scores IH]; intros seen h Hlen Hsub; simpl.
  - exists h. split; [done|]. rewrite Nat.add_0_r, app_nil_r. by split.
  - destruct (topN_offer_shape n seen h e Hn Hlen Hsub) as (h1 & -> & Hlen1 & Hsub1).
    rewrite bind_Ok; cbv beta.
    destruct (IH (seen ++ [{| id := fst e; score := snd e |}]) h1) as (h' & -> & Hlen' & Hsub').
    + rewrite length_app. simpl. rewrite Hlen1. lia.
    + done.
    + exists h'. split; [done|]. split.
      * rewrite Hlen', length_app. simpl. lia.
      * by rewrite <- app_assoc in Hsub'.
Qed.

Lemma topN_drain_shape (m : nat) (h : minHeap F) (res : list (neighbor F)) :
  length h = m → (m ≤ length res)%nat →
  ∃ res', foldM topN_drain (rev (seq 0 m)) (h, res) = Ok ([], res')
          ∧ length res' = length res
          ∧ drop 0 res' ≡ₚ h ++ drop m res.
Proof.
  revert h res. induction m as [|m IH]; intros h res Hlen Hres.
  - apply length_zero_iff_nil in Hlen. subst h. by exists res.
  - rewrite seq_S, rev_app_distr. cbn [rev app foldM Nat.add].
    unfold topN_drain at 2.
    destruct (heap_Pop_shape h) as (r & h1 & -> & Hperm1); [by intros ->|].
    rewrite bind_Ok; cbv beta. cbn [fst snd].
    destruct (Nat.ltb_spec m (length res)); [|lia].
    rewrite bind_Ok; cbv beta.
    pose proof (Permutation_length Hperm1) as Hl1. simpl in Hl1.
    destruct (IH h1 (<[m := r]> res)) as (res' & -> & Hlen' & Hperm').
    + lia.
    + rewrite length_insert. lia.
    + exists res'. split; [done|]. split; [by rewrite Hlen', length_insert|].
      rewrite Hperm', Hperm1.
      rewrite (drop_S _ r m) by (by apply list_lookup_insert_eq).
      rewrite drop_insert_lt by lia. solve_Permutation.
Qed.

Lemma topN_shape (scores : gomap F) (n : Z) :
  1 ≤ n →
  ∃ res, topNneighborsFromScores scores n = Ok res
         ∧ length res = Nat.min (Z.to_nat n) (length scores)
         ∧ res ⊆+ neighbors_of scores.
Proof.
  intros Hn. unfold topNneighborsFromScores.
  assert (Hinit : heap_Init ([] : minHeap F) = Ok []) by reflexivity.
  rewrite Hinit. rewrite bind_Ok; cbv beta.
  destruct (topN_loop_shape n scores [] [] Hn) as (h & -> & Hlen & Hsub).
  { simpl. lia. }
  { done. }
  rewrite bind_Ok; cbv beta. rewrite length_replicate.
  destruct (topN_drain_shape (length h) h
              (replicate (length h) {| id := 0; score := fzero |}))
    as (res & -> & Hlen' & Hperm); [done | by rewrite length_replicate |].
  rewrite bind_Ok; cbv beta. cbn [snd].
  rewrite drop_0, drop_ge, app_nil_r in Hperm by (rewrite length_replicate; lia).
  exists res. split; [done|]. split.
  - by rewrite (Permutation_length Hperm), Hlen.
  - by rewrite Hperm.
Qed.

End SelectorShape.

(** For every [N >= 1] and every map of scores, NaN scores included, the
    selector returns without a panic [min(N, number of candidates)] of the
    candidates, none of them more often than the map holds it. *)
Theorem topNneighborsFromScores_any_scores {F} `{Float64 F} (scores : gomap F)
    (n : Z) :
  1 ≤ n →
  ∃ res, topNneighborsFromScores scores n = Ok res
         ∧ length res = Nat.min (Z.to_nat n) (length scores)
         ∧ res ⊆+ neighbors_of scores.
Proof. intros Hn. by apply topN_shape. Qed.

Lemma topNneighborsFromScores_any_scores_witness :
  ∃ res, topNneighborsFromScores Inputs.nan_scores 2 = Ok res
         ∧ length res = Nat.min (Z.to_nat 2) (length Inputs.nan_scores)
         ∧ res ⊆+ neighbors_of Inputs.nan_scores.
Proof. apply (topNneighborsFromScores_any_scores Inputs.nan_scores 2). lia. Defined.

(** With a bound [N <= 0] the selector returns the empty sequence on the
    empty map and panics on every other map: no candidate is pushed, and
    the first one is compared with the element 0 of the empty heap. *)
Theorem topNneighborsFromScores_nonpositive {F} `{Float64 F} (scores : gomap F)
    (n : Z) :
  n ≤ 0 →
  topNneighborsFromScores scores n
  = match scores with
    | [] => Ok []
    | _ :: _ => Panic index_out_of_range
    end.
Proof.
  intros Hn. destruct scores as [|e scores]; [reflexivity|].
  by apply topN_nonpositive_panics.
Qed.

Lemma topNneighborsFromScores_nonpositive_witness :
  topNneighborsFromScores Inputs.five_scores (-1) = Panic index_out_of_range.
Proof.
  apply (topNneighborsFromScores_nonpositive Inputs.five_scores (-1)). lia.
Defined.

(** ** Reading a map after a write *)

Lemma mget_mset {V} (m : gomap V) (k k' : Z) (v : V) :
  mget (mset m k v) k' = if Z.eqb k k' then Some v else mget m k'.
Proof.
  induction m as [|[k0 v0] m IH]; simpl.
  - done.
  - destruct (Z.eqb_spec k0 k) as [->|Hne]; simpl.
    + by destruct (Z.eqb_spec k k').
    + rewrite IH. destruct (Z.eqb_spec k0 k') as [->|Hne'].
      * by destruct (Z.eqb_spec k k'); [congruence|].
      * done.
Qed.

Lemma mkeys_mset_elem {V} (m : gomap V) (k k' : Z) (v : V) :
  k' ∈ mkeys (mset m k v) ↔ k' = k ∨ k' ∈ mkeys m.
Proof.
  rewrite mkeys_mset. destruct (decide (k ∈ mkeys m)) as [Hin|Hin].
  - split; [by right | by intros [->|?]].
  - rewrite elem_of_app, list_elem_of_singleton. tauto.
Qed.

(** ** The ranking of topKFromMap *)

Lemma sort_insert_Permutation {A} (less : A → A → bool) (x : A) (l : list A) :
  sort_insert less x l ≡ₚ x :: l.
Proof.
  induction l as [|y l IH]; simpl; [done|].
  destruct (less y x); [|done]. rewrite IH. apply perm_swap.
Qed.

Lemma sort_Slice_Permutation {A} (less : A → A → bool) (l : list A) :
  sort_Slice less l ≡ₚ l.
Proof.
  induction l as [|x l IH]; simpl; [done|].
  change (sort_Slice less (x :: l)) with (sort_insert less x (sort_Slice less l)).
  by rewrite sort_insert_Permutation, IH.
Qed.

Section Ranking.
Context {F : Type} `{Float64 F} (valid : F → Prop) `{!ScoreOrder F valid}.

Lemma sort_insert_ranked (x : ItemScore F) (l : list (ItemScore F)) :
  valid (Score x) → Forall (λ y, valid (Score y)) l → ranked l →
  ranked (sort_insert (λ x y, fgt (Score x) (Score y)) x l).
Proof.
  intros Hx Hv Hs. induction Hs as [|y l Hs IH Hy]; simpl.
  - apply SSorted_cons; [apply SSorted_nil | apply Forall_nil_2].
  - apply Forall_cons in Hv as [Hvy Hv]. unfold fgt at 1.
    destruct (flt (Score x) (Score y)) eqn:Hlt.
    + apply SSorted_cons; [by apply IH|].
      rewrite sort_insert_Permutation. apply Forall_cons_2; [|done].
      by apply (flt_asym (valid := valid)).
    + apply SSorted_cons; [by apply SSorted_cons|].
      apply Forall_cons_2; [done|].
      rewrite Forall_forall in Hy, Hv |- *. intros z Hz.
      apply (flt_negtrans (valid := valid) _ (Score y)); auto.
Qed.

Lemma sort_Slice_ranked (l : list (ItemScore F)) :
  Forall (λ y, valid (Score y)) l →
  ranked (sort_Slice (λ x y, fgt (Score x) (Score y)) l).
Proof.
  induction l as [|x l IH]; intros Hv.
  - apply SSorted_nil.
  - apply Forall_cons in Hv as [Hx Hv].
    change (sort_Slice ?f (x :: l)) with (sort_insert f x (sort_Slice f l)).
    apply sort_insert_ranked; [done | | by apply IH].
    by rewrite sort_Slice_Permutation.
Qed.

End Ranking.

Lemma StronglySorted_app_inv {A} (R : A → A → Prop) (l1 l2 : list A) :
  StronglySorted R (l1 ++ l2) →
  StronglySorted R l1 ∧ StronglySorted R l2 ∧ ∀ x y, x ∈ l1 → y ∈ l2 → R x y.
Proof.
  induction l1 as [|a l1 IH]; simpl; intros Hs.
  - split; [apply SSorted_nil|]. split; [done|]. intros x y Hx. by apply elem_of_nil in Hx.
  - apply StronglySorted_inv in Hs as [Hs Ha].
    destruct (IH Hs) as (H1 & H2 & H12). rewrite Forall_app in Ha. destruct Ha as [Ha1 Ha2].
    split; [by apply SSorted_cons|]. split; [done|].
    intros x y Hx Hy. apply elem_of_cons in Hx as [->|Hx]; [|by apply H12].
    rewrite Forall_forall in Ha2. by apply Ha2.
Qed.

Lemma topKFromMap_take {F} `{Float64 F} (scores : gomap F) (k : Z) :
  0 ≤ k →
  topKFromMap scores k
  = Ok (take (Z.to_nat k) (sort_Slice (λ x y, fgt (Score x) (Score y)) (items_of scores))).
Proof.
  intros Hk. unfold topKFromMap, items_of.
  change (map ?f scores) with (f <$> scores).
  set (top := sort_Slice _ _).
  destruct (Z.gtb_spec (Z.of_nat (length top)) k) as [Hgt|Hle].
  - rewrite slice_spec by lia. rewrite drop_0. do 2 f_equal. lia.
  - by rewrite take_ge by lia.
Qed.

Lemma topKFromMap_negative {F} `{Float64 F} (scores : gomap F) (k : Z) :
  k < 0 → topKFromMap scores k = Panic slice_bounds_out_of_range.
Proof.
  intros Hk. unfold topKFromMap.
  destruct (Z.gtb_spec (Z.of_nat (length (sort_Slice (λ x y, fgt (Score x) (Score y))
     (map (λ e, {| MovieID := fst e; Score := snd e |}) scores)))) k) as [Hgt|Hle]; [|lia].
  unfold slice. destruct (Z.leb_spec 0 k); [lia|]. done.
Qed.

(** For every [k >= 0] and every map of scores that [<] orders,
    topKFromMap returns [min(k, number of scores)] items in descending
    order of score, and they are a top-k of the map: the items of the map
    are the returned ones and a remainder, and no item of the remainder has
    a score greater than a returned one. *)
Theorem topKFromMap_top_K {F} `{Float64 F} (valid : F → Prop)
    (order : ScoreOrder F valid) (scores : gomap F) (k : Z) :
  0 ≤ k → Forall (λ e, valid (snd e)) scores →
  ∃ top rest, topKFromMap scores k = Ok top
    ∧ length top = Nat.min (Z.to_nat k) (length scores)
    ∧ ranked top
    ∧ items_of scores ≡ₚ top ++ rest
    ∧ ∀ r c, r ∈ top → c ∈ rest → flt (Score r) (Score c) = false.
Proof.
  intros Hk Hv. rewrite topKFromMap_take by done.
  set (sorted := sort_Slice _ _).
  assert (Hperm : sorted ≡ₚ items_of scores) by apply sort_Slice_Permutation.
  assert (Hs : ranked sorted).
  { apply (sort_Slice_ranked valid). unfold items_of. rewrite Forall_fmap.
    eapply Forall_impl; [exact Hv|]. done. }
  exists (take (Z.to_nat k) sorted), (drop (Z.to_nat k) sorted).
  split; [done|]. rewrite take_drop.
  unfold ranked in Hs. rewrite <- (take_drop (Z.to_nat k) sorted) in Hs.
  apply StronglySorted_app_inv in Hs as (Hs1 & _ & Hs12).
  split.
  { rewrite length_take, (Permutation_length Hperm). unfold items_of.
    by rewrite length_fmap. }
  split; [done|]. split; [done|]. exact Hs12.
Qed.

Lemma topKFromMap_top_K_witness :
  ∃ top rest, topKFromMap Inputs.five_scores 3 = Ok top
    ∧ length top = Nat.min (Z.to_nat 3) (length Inputs.five_scores)
    ∧ ranked top
    ∧ items_of Inputs.five_scores ≡ₚ top ++ rest
    ∧ ∀ r c, r ∈ top → c ∈ rest → flt (Score r) (Score c) = false.
Proof.
  apply (topKFromMap_top_K not_nan FloatOrder.float_ScoreOrder Inputs.five_scores 3).
  - lia.
  - repeat (apply Forall_cons_2 || apply Forall_nil_2); vm_compute; reflexivity.
Defined.

(** ** The index of the items *)

Section ItemIndex.
Context {F : Type} `{Float64 F}.

Lemma mread_map_mset (m : gomap (gomap F)) (k k' : Z) (v : gomap F) :
  mread_map (mset m k v) k' = if Z.eqb k k' then v else mread_map m k'.
Proof. unfold mread_map. rewrite mget_mset. by destruct (Z.eqb k k'). Qed.

Lemma BuildItemIndex_item_entry (u : Z) (idx : gomap (gomap F)) (itm : Z) (r : F)
    (itm' u' : Z) :
  index_entry (BuildItemIndex_item u idx (itm, r)) itm' u'
  = if Z.eqb itm itm' && Z.eqb u u' then Some r else index_entry idx itm' u'.
Proof.
  unfold index_entry, BuildItemIndex_item.
  rewrite mread_map_mset. destruct (Z.eqb_spec itm itm') as [<-|Hne]; simpl.
  - rewrite mget_mset.
    assert (Hsame : mread_map (if mhas idx itm then idx else mset idx itm []) itm
                    = mread_map idx itm).
    { unfold mhas. destruct (mget idx itm) eqn:Hg; [done|].
      rewrite mread_map_mset, Z.eqb_refl. unfold mread_map. by rewrite Hg. }
    by rewrite Hsame.
  - destruct (mhas idx itm); [done|].
    rewrite mread_map_mset. by destruct (Z.eqb_spec itm itm').
Qed.

Lemma BuildItemIndex_item_keys (u : Z) (idx : gomap (gomap F)) (itm : Z) (r : F)
    (k : Z) :
  k ∈ mkeys (BuildItemIndex_item u idx (itm, r)) ↔ k = itm ∨ k ∈ mkeys idx.
Proof.
  unfold BuildItemIndex_item. rewrite mkeys_mset_elem.
  destruct (mhas idx itm); [done|]. rewrite mkeys_mset_elem. tauto.
Qed.

Lemma BuildItemIndex_user_entry (u : Z) (items : gomap F) (idx : gomap (gomap F))
    (itm' u' : Z) :
  wf_map items →
  index_entry (fold_left (BuildItemIndex_item u) items idx) itm' u'
  = if Z.eqb u u'
    then match mget items itm' with
         | Some r => Some r
         | None => index_entry idx itm' u'
         end
    else index_entry idx itm' u'.
Proof.
  revert idx. induction items as [|[itm r] items IH]; intros idx Hwf.
  - simpl. by destruct (Z.eqb u u').
  - apply NoDup_cons in Hwf as [Hfresh Hwf]. cbn [fold_left].
    rewrite (IH _ Hwf). rewrite BuildItemIndex_item_entry. cbn [mget].
    destruct (Z.eqb u u'); [|by rewrite andb_false_r].
    rewrite andb_true_r.
    destruct (Z.eqb_spec itm itm') as [Heq|Hne']; [|done].
    subst itm'. cbn [fst] in Hfresh. apply mget_None_iff in Hfresh. by rewrite Hfresh.
Qed.

Lemma BuildItemIndex_user_keys (u : Z) (items : gomap F) (idx : gomap (gomap F))
    (k : Z) :
  k ∈ mkeys (fold_left (BuildItemIndex_item u) items idx)
  ↔ k ∈ mkeys items ∨ k ∈ mkeys idx.
Proof.
  revert idx. induction items as [|[itm r] items IH]; intros idx; cbn [fold_left].
  - split; [by right | intros [Hk|?]; [by apply elem_of_nil in Hk | done]].
  - rewrite IH, BuildItemIndex_item_keys. unfold mkeys. rewrite fmap_cons, elem_of_cons.
    cbn [fst]. tauto.
Qed.

End ItemIndex.

Section ItemIndex2.
Context {F : Type} `{Float64 F}.

Lemma BuildItemIndex_fold_entry (l : gomap (gomap F)) (idx : gomap (gomap F))
    (itm u : Z) :
  wf_map l → Forall (λ e, wf_map (snd e)) l →
  index_entry (fold_left (λ itemIndex e,
                            fold_left (BuildItemIndex_item (fst e)) (snd e) itemIndex)
                         l idx) itm u
  = match mget l u with
    | Some items => match mget items itm with
                    | Some r => Some r
                    | None => index_entry idx itm u
                    end
    | None => index_entry idx itm u
    end.
Proof.
  revert idx. induction l as [|[u0 items] l IH]; intros idx Hwf Hall; [done|].
  apply NoDup_cons in Hwf as [Hfresh Hwf]. apply Forall_cons in Hall as [Hitems Hall].
  cbn [fold_left fst snd mget]. rewrite (IH _ Hwf Hall).
  rewrite BuildItemIndex_user_entry by done.
  destruct (Z.eqb_spec u0 u) as [Heq|Hne]; [|done].
  subst u0. cbn [fst] in Hfresh. apply mget_None_iff in Hfresh. by rewrite Hfresh.
Qed.

Lemma BuildItemIndex_fold_keys (l : gomap (gomap F)) (idx : gomap (gomap F))
    (k : Z) :
  k ∈ mkeys (fold_left (λ itemIndex e,
                          fold_left (BuildItemIndex_item (fst e)) (snd e) itemIndex)
                       l idx)
  ↔ (∃ e, e ∈ l ∧ k ∈ mkeys (snd e)) ∨ k ∈ mkeys idx.
Proof.
  revert idx. induction l as [|e l IH]; intros idx; cbn [fold_left].
  - split; [by right | intros [(e & He & _)|?]; [by apply elem_of_nil in He | done]].
  - rewrite IH, BuildItemIndex_user_keys. split.
    + intros [(e' & He' & Hk)|[Hk|Hk]].
      * left. exists e'. split; [by apply list_elem_of_further | done].
      * left. exists e. split; [apply list_elem_of_here | done].
      * by right.
    + intros [(e' & He' & Hk)|Hk].
      * apply elem_of_cons in He' as [->|He']; [right; by left|].
        left. by exists e'.
      * right. by right.
Qed.

Lemma BuildItemIndex_keys (ds : Dataset F) (k : Z) :
  k ∈ mkeys (BuildItemIndex ds) ↔ ∃ e, e ∈ UserRatings ds ∧ k ∈ mkeys (snd e).
Proof.
  unfold BuildItemIndex. rewrite BuildItemIndex_fold_keys. split.
  - intros [?|Hk]; [done | by apply elem_of_nil in Hk].
  - by left.
Qed.

End ItemIndex2.

(** BuildItemIndex transposes the ratings: the index holds at item [itm]
    and user [u] the rating that the dataset holds at user [u] and item
    [itm], and it has an entry for the items that some user has rated, and
    for no other. *)
Theorem BuildItemIndex_transposes {F} `{Float64 F} (ds : Dataset F) :
  wf_dataset ds →
  (∀ itm u, mget (mread_map (BuildItemIndex ds) itm) u
            = mget (mread_map (UserRatings ds) u) itm)
  ∧ (∀ itm, mhas (BuildItemIndex ds) itm = true
            ↔ ∃ u, mhas (mread_map (UserRatings ds) u) itm = true)
  ∧ wf_map (BuildItemIndex ds).
Proof.
  intros [Hwf Hall]. split; [|split; [|apply BuildItemIndex_wf]].
  - intros itm u. unfold BuildItemIndex.
    pose proof (BuildItemIndex_fold_entry (UserRatings ds) [] itm u Hwf Hall) as He.
    unfold index_entry in He. rewrite He. unfold mread_map at 3.
    destruct (mget (UserRatings ds) u) as [items|]; [|done].
    by destruct (mget items itm).
  - intros itm. rewrite mhas_true_iff, BuildItemIndex_keys. split.
    + intros ([u items] & He & Hk). exists u. unfold mread_map.
      rewrite (mget_elem _ _ _ Hwf He). by apply mhas_true_iff.
    + intros (u & Hu). unfold mread_map in Hu.
      destruct (mget (UserRatings ds) u) as [items|] eqn:Hg; [|done].
      exists (u, items). split; [by apply mget_Some_elem|]. by apply mhas_true_iff.
Qed.

Lemma BuildItemIndex_transposes_witness :
  (∀ itm u, mget (mread_map (BuildItemIndex Inputs.ds_three) itm) u
            = mget (mread_map (UserRatings Inputs.ds_three) u) itm)
  ∧ (∀ itm, mhas (BuildItemIndex Inputs.ds_three) itm = true
            ↔ ∃ u, mhas (mread_map (UserRatings Inputs.ds_three) u) itm = true)
  ∧ wf_map (BuildItemIndex Inputs.ds_three).
Proof.
  apply (BuildItemIndex_transposes Inputs.ds_three). split.
  - apply (bool_decide_unpack _). vm_compute. reflexivity.
  - repeat (apply Forall_cons_2 || apply Forall_nil_2);
      apply (bool_decide_unpack _); vm_compute; reflexivity.
Defined.

(** ** What the recommenders return *)

Lemma submseteq_NoDup {A} (l k : list A) : l ⊆+ k → NoDup k → NoDup l.
Proof.
  intros Hsub Hnd. apply submseteq_sublist_l in Hsub as (l2 & Hsl & Hperm).
  apply (sublist_NoDup _ l2); [|done]. by rewrite Hperm.
Qed.

Section RecommenderShape.
Context {F : Type} `{Float64 F}.

Lemma candidates_of_filter (userRatings : gomap F) (itemIndex : gomap (gomap F)) :
  candidates_of userRatings itemIndex
  = filter (λ k, mhas userRatings k = false) (mkeys itemIndex).
Proof.
  unfold candidates_of, mkeys.
  assert (Hgen : ∀ acc,
    fold_left (λ candidates e, if mhas userRatings (fst e) then candidates
                               else candidates ++ [fst e]) itemIndex acc
    = acc ++ filter (λ k, mhas userRatings k = false) (fst <$> itemIndex)).
  { induction itemIndex as [|[k v] idx IH]; intros acc; simpl.
    - by rewrite app_nil_r.
    - rewrite IH, filter_cons. simpl.
      destruct (mhas userRatings k).
      + by rewrite decide_False.
      + rewrite decide_True by done. by rewrite <- app_assoc. }
  by rewrite Hgen.
Qed.

Lemma RecommendItemBased_candidate_ok (userRatings : gomap F)
    (itemIndex : gomap (gomap F)) (metric : SimMetric) (neighborK : Z)
    (scores : gomap F) (itemV : Z) :
  ∃ v, RecommendItemBased_candidate userRatings itemIndex metric neighborK
         scores itemV = Ok (mset scores itemV v).
Proof.
  unfold RecommendItemBased_candidate.
  set (simScores := simScores_of userRatings itemIndex itemV metric).
  assert (Hnb : ∃ neighbors,
    (if neighborK >? 0 then topNneighborsFromScores simScores neighborK
     else Ok (fold_left (λ neighbors e,
                           neighbors ++ [{| id := fst e; score := snd e |}])
                        simScores [])) = Ok neighbors).
  { destruct (Z.gtb_spec neighborK 0) as [Hpos|Hnp]; [|by eexists].
    destruct (topN_shape simScores neighborK ltac:(lia)) as (res & -> & _).
    by eexists. }
  destruct Hnb as (neighbors & ->). rewrite bind_Ok; cbv beta.
  destruct (fold_left _ neighbors (fzero, fzero)) as [num den].
  destruct (negb (feq den fzero)); by eexists.
Qed.

Lemma RecommendItemBased_scores (userRatings : gomap F)
    (itemIndex : gomap (gomap F)) (metric : SimMetric) (neighborK : Z)
    (candidates : list Z) (acc : gomap F) :
  NoDup (mkeys acc ++ candidates) →
  ∃ scores, foldM (RecommendItemBased_candidate userRatings itemIndex metric
                     neighborK) candidates acc = Ok scores
            ∧ mkeys scores = mkeys acc ++ candidates.
Proof.
  revert acc. induction candidates as [|c candidates IH]; intros acc Hnd; simpl.
  - exists acc. by rewrite app_nil_r.
  - destruct (RecommendItemBased_candidate_ok userRatings itemIndex metric
                neighborK acc c) as (v & ->).
    rewrite bind_Ok; cbv beta.
    assert (Hc : c ∉ mkeys acc).
    { apply NoDup_app in Hnd as (_ & Hdisj & _). intros Hin.
      apply (Hdisj c Hin), list_elem_of_here. }
    rewrite mset_fresh by done.
    destruct (IH (acc ++ [(c, v)])) as (scores & -> & Hkeys).
    + unfold mkeys. rewrite fmap_app. simpl. by rewrite <- app_assoc.
    + exists scores. split; [done|]. rewrite Hkeys. unfold mkeys.
      rewrite fmap_app. simpl. by rewrite <- app_assoc.
Qed.

Lemma topKFromMap_shape (scores : gomap F) (k : Z) :
  0 ≤ k →
  ∃ top, topKFromMap scores k = Ok top
         ∧ length top = Nat.min (Z.to_nat k) (length scores)
         ∧ top ⊆+ items_of scores.
Proof.
  intros Hk. rewrite topKFromMap_take by done. eexists. split; [done|]. split.
  - rewrite length_take, (Permutation_length (sort_Slice_Permutation _ _)).
    unfold items_of. by rewrite length_fmap.
  - rewrite <- (sort_Slice_Permutation (λ x y, fgt (Score x) (Score y)) (items_of scores))
      at 2.
    apply submseteq_take.
Qed.

Lemma MovieID_items_of (scores : gomap F) : MovieID <$> items_of scores = mkeys scores.
Proof. unfold items_of, mkeys. rewrite <- list_fmap_compose. done. Qed.

End RecommenderShape.

(** RecommendItemBased returns for every target of the dataset and every
    [topK >= 0]: it recommends [min(topK, number of candidates)] items, no
    item twice, none that the target has rated, and none that no user has
    rated. *)
Theorem RecommendItemBased_recommends {F} `{Float64 F} (ds : Dataset F)
    (user topK : Z) (metric : SimMetric) (neighborK : Z) (userRatings : gomap F) :
  mget (UserRatings ds) user = Some userRatings → 0 ≤ topK →
  ∃ recs, RecommendItemBased ds user topK metric neighborK = Ok recs
    ∧ length recs
      = Nat.min (Z.to_nat topK)
                (length (candidates_of userRatings (BuildItemIndex ds)))
    ∧ NoDup (MovieID <$> recs)
    ∧ ∀ r, r ∈ recs →
           mhas userRatings (MovieID r) = false
           ∧ ∃ e, e ∈ UserRatings ds ∧ mhas (snd e) (MovieID r) = true.
Proof.
  intros Huser HK. unfold RecommendItemBased. rewrite Huser.
  set (itemIndex := BuildItemIndex ds).
  set (candidates := candidates_of userRatings itemIndex).
  assert (Hnd : NoDup candidates) by apply candidates_of_NoDup, BuildItemIndex_wf.
  destruct (RecommendItemBased_scores userRatings itemIndex metric neighborK
              candidates []) as (scores & -> & Hkeys); [done|].
  rewrite bind_Ok; cbv beta. simpl in Hkeys.
  destruct (topKFromMap_shape scores topK HK) as (top & -> & Hlen & Hsub).
  exists top. split; [done|].
  assert (Hids : MovieID <$> top ⊆+ candidates).
  { rewrite <- Hkeys, <- MovieID_items_of. by apply fmap_submseteq. }
  split.
  { rewrite Hlen. f_equal. rewrite <- Hkeys. unfold mkeys. by rewrite length_fmap. }
  split; [by apply (submseteq_NoDup _ candidates)|].
  intros r Hr.
  assert (Hc : MovieID r ∈ candidates).
  { apply (elem_of_submseteq (MovieID <$> top)); [|done].
    apply list_elem_of_fmap. by exists r. }
  subst candidates. rewrite candidates_of_filter in Hc.
  apply list_elem_of_filter in Hc as [Hnew Hkey]. split; [done|].
  apply BuildItemIndex_keys in Hkey as (e & He & Hk).
  exists e. split; [done|]. by apply mhas_true_iff.
Qed.

Lemma RecommendItemBased_recommends_witness :
  ∃ recs, RecommendItemBased Inputs.ds_three 1 2 CosineSim 2 = Ok recs
    ∧ length recs
      = Nat.min (Z.to_nat 2)
                (length (candidates_of Inputs.ratings_1
                           (BuildItemIndex Inputs.ds_three)))
    ∧ NoDup (MovieID <$> recs)
    ∧ ∀ r, r ∈ recs →
           mhas Inputs.ratings_1 (MovieID r) = false
           ∧ ∃ e, e ∈ UserRatings Inputs.ds_three
                  ∧ mhas (snd e) (MovieID r) = true.
Proof.
  apply (RecommendItemBased_recommends Inputs.ds_three 1 2 CosineSim 2
           Inputs.ratings_1).
  - reflexivity.
  - lia.
Defined.

(** A negative [topK] makes RecommendItemBased panic, for every target of
    the dataset. *)
Theorem RecommendItemBased_negative_topK {F} `{Float64 F} (ds : Dataset F)
    (user topK : Z) (metric : SimMetric) (neighborK : Z) :
  mhas (UserRatings ds) user = true → topK < 0 →
  RecommendItemBased ds user topK metric neighborK
  = Panic slice_bounds_out_of_range.
Proof.
  intros Huser HK. unfold RecommendItemBased. unfold mhas in Huser.
  destruct (mget (UserRatings ds) user) as [userRatings|]; [|done].
  destruct (RecommendItemBased_scores userRatings (BuildItemIndex ds) metric
              neighborK (candidates_of userRatings (BuildItemIndex ds)) [])
    as (scores & -> & _).
  { apply candidates_of_NoDup, BuildItemIndex_wf. }
  rewrite bind_Ok; cbv beta. by apply topKFromMap_negative.
Qed.

Lemma RecommendItemBased_negative_topK_witness :
  RecommendItemBased Inputs.ds_three 1 (-1) CosineSim 2
  = Panic slice_bounds_out_of_range.
Proof.
  apply (RecommendItemBased_negative_topK Inputs.ds_three 1 (-1) CosineSim 2).
  - reflexivity.
  - lia.
Defined.

Section UserBasedShape.
Context {F : Type} `{Float64 F}.

Lemma RecommendUserBased_sims_keys (user : Z) (targetRatings : gomap F)
    (metric : SimMetric) (l : gomap (gomap F)) (acc : gomap F) (k : Z) :
  k ∈ mkeys (fold_left (RecommendUserBased_sims user targetRatings metric) l acc) →
  k ∈ mkeys acc ∨ (k ∈ mkeys l ∧ k ≠ user).
Proof.
  revert acc. induction l as [|[other ratings] l IH]; intros acc; cbn [fold_left].
  - by left.
  - intros Hk. apply IH in Hk as [Hk|[Hk Hne]].
    + unfold RecommendUserBased_sims in Hk.
      destruct (Z.eqb_spec other user) as [Heq|Hne]; [by left|].
      assert (Hk' : k ∈ mkeys (mset acc other (simBetween targetRatings ratings metric))).
      { by destruct (flt _ fthreshold). }
      apply mkeys_mset_elem in Hk' as [->|Hk']; [|by left].
      right. split; [apply list_elem_of_here | done].
    + right. split; [by apply list_elem_of_further | done].
Qed.

Lemma candidatesMap_of_keys (ds : Dataset F) (targetRatings : gomap F)
    (neighbors : list (neighbor F)) (k : Z) :
  k ∈ mkeys (candidatesMap_of ds targetRatings neighbors) →
  mhas targetRatings k = false
  ∧ ∃ nb, nb ∈ neighbors ∧ k ∈ mkeys (mread_map (UserRatings ds) (id nb)).
Proof.
  unfold candidatesMap_of.
  assert (Hinner : ∀ (items : gomap F) (acc : gomap unit),
    k ∈ mkeys (fold_left (λ candidatesMap e,
                            if mhas targetRatings (fst e) then candidatesMap
                            else mset candidatesMap (fst e) tt) items acc) →
    k ∈ mkeys acc ∨ (mhas targetRatings k = false ∧ k ∈ mkeys items)).
  { induction items as [|[it r] items IH]; intros acc; cbn [fold_left fst].
    - by left.
    - intros Hk. apply IH in Hk as [Hk|[Hk1 Hk2]].
      + destruct (mhas targetRatings it) eqn:Hseen; [by left|].
        apply mkeys_mset_elem in Hk as [->|Hk]; [|by left].
        right. split; [done | apply list_elem_of_here].
      + right. split; [done | by apply list_elem_of_further]. }
  assert (Hgen : ∀ (acc : gomap unit),
    k ∈ mkeys (fold_left (λ candidatesMap nb,
                 fold_left (λ candidatesMap e,
                              if mhas targetRatings (fst e) then candidatesMap
                              else mset candidatesMap (fst e) tt)
                           (mread_map (UserRatings ds) (id nb)) candidatesMap)
               neighbors acc) →
    k ∈ mkeys acc
    ∨ (mhas targetRatings k = false
       ∧ ∃ nb, nb ∈ neighbors ∧ k ∈ mkeys (mread_map (UserRatings ds) (id nb)))).
  { induction neighbors as [|nb neighbors IH]; intros acc; cbn [fold_left].
    - by left.
    - intros Hk. apply IH in Hk as [Hk|(Hk1 & nb' & Hnb' & Hk2)].
      + apply Hinner in Hk as [Hk|[Hk1 Hk2]]; [by left|].
        right. split; [done|]. exists nb. split; [apply list_elem_of_here | done].
      + right. split; [done|]. exists nb'. split; [by apply list_elem_of_further | done]. }
  intros Hk. apply Hgen in Hk as [Hk|Hk]; [by apply elem_of_nil in Hk | done].
Qed.

Lemma fold_left_keys {V} (m : gomap V) (acc : list Z) :
  fold_left (λ c e, c ++ [fst e]) m acc = acc ++ mkeys m.
Proof.
  revert acc. induction m as [|e m IH]; intros acc; simpl.
  - by rewrite app_nil_r.
  - rewrite IH. by rewrite <- app_assoc.
Qed.

Lemma RecommendUserBased_candidate_ok (ds : Dataset F)
    (neighbors : list (neighbor F)) (scores : gomap F) (it : Z) :
  ∃ v, RecommendUserBased_candidate ds neighbors scores it = mset scores it v.
Proof.
  unfold RecommendUserBased_candidate.
  destruct (fold_left _ neighbors (fzero, fzero)) as [num den].
  destruct (negb (feq den fzero)); by eexists.
Qed.

Lemma RecommendUserBased_scores (ds : Dataset F) (neighbors : list (neighbor F))
    (candidates : list Z) (acc : gomap F) :
  wf_map acc →
  wf_map (fold_left (RecommendUserBased_candidate ds neighbors) candidates acc)
  ∧ ∀ k, k ∈ mkeys (fold_left (RecommendUserBased_candidate ds neighbors)
                      candidates acc) → k ∈ mkeys acc ∨ k ∈ candidates.
Proof.
  revert acc. induction candidates as [|c candidates IH]; intros acc Hwf;
    cbn [fold_left].
  - split; [done|]. by left.
  - destruct (RecommendUserBased_candidate_ok ds neighbors acc c) as (v & ->).
    destruct (IH (mset acc c v) ltac:(by apply mset_wf)) as [Hwf' Hkeys].
    split; [done|]. intros k Hk. apply Hkeys in Hk as [Hk|Hk].
    + apply mkeys_mset_elem in Hk as [->|Hk]; [right; apply list_elem_of_here | by left].
    + right. by apply list_elem_of_further.
Qed.

End UserBasedShape.

(** RecommendUserBased returns for every target of the dataset, every
    [neighborK >= 1] and every [topK >= 0]: it recommends at most [topK]
    items, no item twice, none that the target has rated, and each of them
    rated by a user other than the target. *)
Theorem RecommendUserBased_recommends {F} `{Float64 F} (ds : Dataset F)
    (user topK : Z) (metric : SimMetric) (neighborK : Z) :
  mhas (UserRatings ds) user = true → 1 ≤ neighborK → 0 ≤ topK →
  ∃ recs, RecommendUserBased ds user topK metric neighborK = Ok recs
    ∧ (length recs ≤ Z.to_nat topK)%nat
    ∧ NoDup (MovieID <$> recs)
    ∧ ∀ r, r ∈ recs →
           mhas (mread_map (UserRatings ds) user) (MovieID r) = false
           ∧ ∃ e, e ∈ UserRatings ds ∧ fst e ≠ user
                  ∧ mhas (snd e) (MovieID r) = true.
Proof.
  intros Huser HnK HK. unfold RecommendUserBased, mread_map. unfold mhas in Huser.
  destruct (mget (UserRatings ds) user) as [targetRatings|]; [|done].
  set (userSims := fold_left _ (UserRatings ds) []).
  unfold RecommendUserBased_rest.
  destruct (topN_shape userSims neighborK HnK) as (neighbors & -> & _ & Hsub).
  rewrite bind_Ok; cbv beta.
  destruct (Nat.eqb_spec (length neighbors) 0) as [Hzero|Hpos].
  { exists []. split; [done|]. split; [simpl; lia|]. split; [apply NoDup_nil_2|].
    intros r Hr. by apply elem_of_nil in Hr. }
  rewrite fold_left_keys, app_nil_l.
  set (candidatesMap := candidatesMap_of ds targetRatings neighbors).
  set (scores := fold_left _ (mkeys candidatesMap) []).
  destruct (RecommendUserBased_scores ds neighbors (mkeys candidatesMap) [])
    as [Hwf Hkeys]; [apply NoDup_nil_2|]. fold scores in Hwf, Hkeys.
  destruct (topKFromMap_shape scores topK HK) as (top & -> & Hlen & Htop).
  exists top. split; [done|]. split; [lia|].
  assert (Hids : MovieID <$> top ⊆+ mkeys scores).
  { rewrite <- MovieID_items_of. by apply fmap_submseteq. }
  split; [by apply (submseteq_NoDup _ (mkeys scores))|].
  intros r Hr.
  assert (Hk : MovieID r ∈ mkeys candidatesMap).
  { destruct (Hkeys (MovieID r)) as [Hk|Hk]; [|by apply elem_of_nil in Hk | done].
    apply (elem_of_submseteq (MovieID <$> top)); [|done].
    apply list_elem_of_fmap. by exists r. }
  apply candidatesMap_of_keys in Hk as (Hnew & nb & Hnb & Hitem).
  split; [done|].
  assert (Hid : id nb ∈ mkeys userSims).
  { apply (elem_of_submseteq _ _ _ Hnb) in Hsub.
    unfold neighbors_of in Hsub. apply list_elem_of_fmap in Hsub as (e & -> & He).
    apply list_elem_of_fmap. by exists e. }
  apply RecommendUserBased_sims_keys in Hid as [Hid|[_ Hne]];
    [by apply elem_of_nil in Hid|].
  unfold mread_map in Hitem.
  destruct (mget (UserRatings ds) (id nb)) as [items|] eqn:Hg;
    [|by apply elem_of_nil in Hitem].
  exists (id nb, items). split; [by apply mget_Some_elem|]. split; [done|].
  by apply mhas_true_iff.
Qed.

Lemma RecommendUserBased_recommends_witness :
  ∃ recs, RecommendUserBased Inputs.ds_three 1 10 CosineSim 2 = Ok recs
    ∧ (length recs ≤ Z.to_nat 10)%nat
    ∧ NoDup (MovieID <$> recs)
    ∧ ∀ r, r ∈ recs →
           mhas (mread_map (UserRatings Inputs.ds_three) 1) (MovieID r) = false
           ∧ ∃ e, e ∈ UserRatings Inputs.ds_three ∧ fst e ≠ 1
                  ∧ mhas (snd e) (MovieID r) = true.
Proof.
  apply (RecommendUserBased_recommends Inputs.ds_three 1 10 CosineSim 2).
  - reflexivity.
  - lia.
  - lia.
Defined.

(** ** The parallel recommender and its worker count *)

(** The worker counts on which RecommendItemBasedParallel panics, for every
    target of the dataset: 0 (division by zero in the chunk size), a
    negative count (the size of the channel), and, when [neighborK] is
    positive, so that no worker panics, a count that exceeds the number of
    candidates by two or more (the slice of a worker starts beyond the
    candidates) and that [make] accepts as the size of the channel. *)
Theorem RecommendItemBasedParallel_worker_panics {F} `{Float64 F} (ds : Dataset F)
    (user topK : Z) (metric : SimMetric) (neighborK workers : Z)
    (userRatings : gomap F) :
  mget (UserRatings ds) user = Some userRatings →
  let len := Z.of_nat (length (candidates_of userRatings (BuildItemIndex ds))) in
  (workers = 0 →
     RecommendItemBasedParallel ds user topK metric neighborK workers
     = Panic integer_divide_by_zero)
  ∧ (workers < 0 →
     RecommendItemBasedParallel ds user topK metric neighborK workers
     = Panic makechan_size_out_of_range)
  ∧ (0 < neighborK → len + 2 ≤ workers → workers ≤ max_chan_of_maps →
     RecommendItemBasedParallel ds user topK metric neighborK workers
     = Panic slice_bounds_out_of_range).
Proof.
  intros Huser len. unfold RecommendItemBasedParallel. rewrite Huser.
  split; [|split].
  - intros ->. reflexivity.
  - intros Hneg. unfold worker_slices.
    destruct (Z.eqb_spec workers 0); [lia|].
    destruct (Z.ltb_spec workers 0); [done | lia].
  - intros _ Hmany _. by rewrite worker_slices_too_many_workers.
Qed.

Lemma RecommendItemBasedParallel_worker_panics_witness :
  RecommendItemBasedParallel Inputs.ds_three 1 10 CosineSim 2 0
  = Panic integer_divide_by_zero
  ∧ RecommendItemBasedParallel Inputs.ds_three 1 10 CosineSim 2 (-1)
    = Panic makechan_size_out_of_range
  ∧ RecommendItemBasedParallel Inputs.ds_three 1 10 CosineSim 2 5
    = Panic slice_bounds_out_of_range.
Proof.
  split; [|split].
  - apply (RecommendItemBasedParallel_worker_panics Inputs.ds_three 1 10 CosineSim
             2 0 Inputs.ratings_1); reflexivity.
  - apply (RecommendItemBasedParallel_worker_panics Inputs.ds_three 1 10 CosineSim
             2 (-1) Inputs.ratings_1); [reflexivity | lia].
  - apply (RecommendItemBasedParallel_worker_panics Inputs.ds_three 1 10 CosineSim
             2 5 Inputs.ratings_1); [reflexivity | lia | | ].
    + vm_compute. discriminate.
    + vm_compute. discriminate.
Defined.

Lemma scoreItem_ok {F} `{Float64 F} (ds : Dataset F) (userRatings : gomap F)
    (itemIndex : gomap (gomap F)) (itemV : Z) (metric : SimMetric) (neighborK : Z) :
  1 ≤ neighborK →
  ∃ sc, scoreItem ds userRatings itemIndex itemV metric neighborK = Ok sc.
Proof.
  intros HK. unfold scoreItem.
  destruct (topN_shape (simScores_of userRatings itemIndex itemV metric) neighborK HK)
    as (neighbors & -> & _).
  rewrite bind_Ok; cbv beta.
  destruct (fold_left _ neighbors (fzero, fzero)) as [num den].
  destruct (feq den fzero); by eexists.
Qed.

Lemma score_steps_ok {F} `{Float64 F} (ds : Dataset F) (userRatings : gomap F)
    (itemIndex : gomap (gomap F)) (metric : SimMetric) (neighborK : Z)
    (s : list Z) (m : gomap F) :
  1 ≤ neighborK →
  ∃ r, foldM (score_step ds userRatings itemIndex metric neighborK) s m = Ok r.
Proof.
  intros HK. revert m. induction s as [|c s IH]; intros m.
  - by exists m.
  - rewrite score_step_cons.
    destruct (scoreItem_ok ds userRatings itemIndex c metric neighborK HK) as [sc ->].
    rewrite bind_Ok; cbv beta. apply IH.
Qed.

(** With a positive [neighborK], [topK >= 0] and at most one worker more
    than there are candidates, RecommendItemBasedParallel returns: it
    recommends [min(topK, covered)] items, where [covered] is the number of
    candidates in the slices of the workers, [workers * chunk] and at most
    all of them; no item twice, none that the target has rated, and none
    that no user has rated. *)
Theorem RecommendItemBasedParallel_recommends {F} `{Float64 F}
    (ds : Dataset F) (user topK : Z) (metric : SimMetric)
    (neighborK workers : Z) (userRatings : gomap F) :
  mget (UserRatings ds) user = Some userRatings →
  0 ≤ topK → 0 < neighborK → 1 ≤ workers →
  let candidates := candidates_of userRatings (BuildItemIndex ds) in
  let len := Z.of_nat (length candidates) in
  let covered := Z.min len (workers * chunk_of len workers) in
  workers ≤ len + 1 →
  ∃ recs, RecommendItemBasedParallel ds user topK metric neighborK workers = Ok recs
    ∧ length recs = Nat.min (Z.to_nat topK) (Z.to_nat covered)
    ∧ NoDup (MovieID <$> recs)
    ∧ ∀ r, r ∈ recs →
           mhas userRatings (MovieID r) = false
           ∧ ∃ e, e ∈ UserRatings ds ∧ mhas (snd e) (MovieID r) = true.
Proof.
  intros Huser HtopK HK HW candidates len covered Hfit.
  assert (Hchunk : 1 ≤ chunk_of len workers
                   ∧ (workers - 1) * chunk_of len workers ≤ len).
  { unfold chunk_of. pose proof (Z.quot_rem' len workers) as Hqr.
    assert (0 ≤ len) by lia.
    pose proof (Z.rem_bound_pos len workers ltac:(lia) ltac:(lia)) as Hb.
    pose proof (Z.quot_pos len workers ltac:(lia) ltac:(lia)) as Hq.
    destruct (Z.eqb_spec (Z.quot len workers) 0); nia. }
  destruct Hchunk as [Hc1 Hc2].
  unfold RecommendItemBasedParallel. rewrite Huser. fold candidates.
  destruct (worker_slices_spec candidates workers HW Hc2) as (slices & -> & _ & Hcat).
  rewrite bind_Ok; cbv beta. fold len in Hcat.
  assert (Hnd : NoDup candidates) by apply candidates_of_NoDup, BuildItemIndex_wf.
  assert (Hnds : NoDup (concat slices)).
  { rewrite Hcat. apply (sublist_NoDup _ candidates); [done | apply sublist_take]. }
  pose proof (partials_merge ds userRatings (BuildItemIndex ds) metric neighborK
                slices [] Hnds) as Hpm.
  change (merge_partials []) with ([] : gomap F) in Hpm.
  specialize (Hpm ltac:(intros; apply not_elem_of_nil)).
  destruct (score_steps_ok ds userRatings (BuildItemIndex ds) metric neighborK
              (concat slices) [] ltac:(lia)) as [scores Hscores].
  rewrite Hscores in Hpm.
  destruct (foldM _ slices []) as [partials| |]; [|done|done].
  rewrite bind_Ok in Hpm; rewrite bind_Ok; cbv beta in Hpm |- *. injection Hpm as ->.
  pose proof (score_step_keys ds userRatings (BuildItemIndex ds) metric neighborK
                (concat slices) scores Hnds Hscores) as Hkeys.
  destruct (topKFromMap_shape scores topK HtopK) as (top & -> & Hlen & Hsub).
  exists top. split; [done|].
  assert (Hids : MovieID <$> top ⊆+ candidates).
  { transitivity (concat slices).
    - rewrite <- Hkeys, <- MovieID_items_of. by apply fmap_submseteq.
    - rewrite Hcat. apply sublist_submseteq, sublist_take. }
  split.
  { rewrite Hlen. f_equal.
    rewrite <- (length_fmap fst scores). fold (mkeys scores).
    rewrite Hkeys, Hcat, length_take. subst covered len. lia. }
  split; [by apply (submseteq_NoDup _ candidates)|].
  intros r Hr.
  assert (Hc : MovieID r ∈ candidates).
  { apply (elem_of_submseteq (MovieID <$> top)); [|done].
    apply list_elem_of_fmap. by exists r. }
  subst candidates. rewrite candidates_of_filter in Hc.
  apply list_elem_of_filter in Hc as [Hnew Hkey]. split; [done|].
  apply BuildItemIndex_keys in Hkey as (e & He & Hk).
  exists e. split; [done|]. by apply mhas_true_iff.
Qed.

Lemma RecommendItemBasedParallel_recommends_witness :
  let candidates := candidates_of Inputs.ratings_1 (BuildItemIndex Inputs.ds_three) in
  let len := Z.of_nat (length candidates) in
  let covered := Z.min len (2 * chunk_of len 2) in
  ∃ recs, RecommendItemBasedParallel Inputs.ds_three 1 10 CosineSim 2 2 = Ok recs
    ∧ length recs = Nat.min (Z.to_nat 10) (Z.to_nat covered)
    ∧ NoDup (MovieID <$> recs)
    ∧ ∀ r, r ∈ recs →
           mhas Inputs.ratings_1 (MovieID r) = false
           ∧ ∃ e, e ∈ UserRatings Inputs.ds_three
                  ∧ mhas (snd e) (MovieID r) = true.
Proof.
  apply (RecommendItemBasedParallel_recommends Inputs.ds_three 1 10 CosineSim
           2 2 Inputs.ratings_1).
  - reflexivity.
  - lia.
  - lia.
  - lia.
  - vm_compute. discriminate.
Defined.

(** The first worker gets the first [chunk] candidates. *)
Lemma worker_slices_first (candidates : list Z) (workers : Z) :
  1 ≤ workers → workers ≤ Z.of_nat (length candidates) + 1 →
  ∃ slices, worker_slices candidates workers
            = Ok (take (Z.to_nat (chunk_of (Z.of_nat (length candidates)) workers))
                       candidates :: slices).
Proof.
  intros HW Hfit. unfold worker_slices.
  destruct (Z.eqb_spec workers 0); [lia|].
  set (len := Z.of_nat (length candidates)) in *.
  set (chunk := chunk_of len workers).
  assert (Hchunk : 1 ≤ chunk ∧ (workers - 1) * chunk ≤ len).
  { subst chunk. unfold chunk_of. pose proof (Z.quot_rem' len workers) as Hqr.
    assert (0 ≤ len) by lia.
    pose proof (Z.rem_bound_pos len workers ltac:(lia) ltac:(lia)) as Hb.
    pose proof (Z.quot_pos len workers ltac:(lia) ltac:(lia)) as Hq.
    destruct (Z.eqb_spec (Z.quot len workers) 0); nia. }
  destruct Hchunk as [Hc1 Hc2].
  destruct (Z.ltb_spec workers 0); [lia|].
  replace (Z.to_nat workers) with (1 + (Z.to_nat workers - 1))%nat by lia.
  rewrite seq_app. cbn [seq Nat.add app foldM].
  rewrite (worker_slice_spec candidates chunk 0) by lia.
  rewrite !bind_Ok; cbv beta. cbn [Nat.mul app]. rewrite drop_0.
  assert (Hrest : ∀ k start acc,
    (Z.of_nat (start + k) - 1) * chunk ≤ len →
    ∃ slices', foldM (λ slices w, s ← worker_slice candidates chunk (Z.of_nat w);
                                  Ok (slices ++ [s])) (seq start k) acc
               = Ok (acc ++ slices')).
  { induction k as [|k IH]; intros start acc Hk.
    - exists []. by rewrite app_nil_r.
    - cbn [seq foldM]. rewrite worker_slice_spec by lia.
      rewrite !bind_Ok; cbv beta.
      destruct (IH (S start) (acc ++ [take (Z.to_nat chunk)
                                        (drop (start * Z.to_nat chunk) candidates)]))
        as (slices' & ->); [lia|].
      eexists. by rewrite <- app_assoc. }
  destruct (Hrest (Z.to_nat workers - 1)%nat 1%nat
              [take (Z.to_nat chunk) candidates]) as (slices' & ->); [lia|].
  by exists slices'.
Qed.

(** With [neighborK <= 0] RecommendItemBasedParallel panics for every
    target that has rated an item and has a candidate, for every worker
    count from 1 to one more than the number of candidates: the first
    worker applies the selector to its first candidate. *)
Theorem RecommendItemBasedParallel_nonpositive_panics {F} `{Float64 F}
    (ds : Dataset F) (user topK : Z) (metric : SimMetric)
    (neighborK workers : Z) (userRatings : gomap F) :
  mget (UserRatings ds) user = Some userRatings →
  neighborK ≤ 0 → userRatings ≠ [] →
  candidates_of userRatings (BuildItemIndex ds) ≠ [] →
  1 ≤ workers →
  workers ≤ Z.of_nat (length (candidates_of userRatings (BuildItemIndex ds))) + 1 →
  RecommendItemBasedParallel ds user topK metric neighborK workers
  = Panic index_out_of_range.
Proof.
  intros Huser HK Hrated Hcand HW Hfit. unfold RecommendItemBasedParallel.
  rewrite Huser.
  destruct (worker_slices_first _ workers HW Hfit) as (slices & ->).
  rewrite bind_Ok; cbv beta.
  destruct (candidates_of userRatings (BuildItemIndex ds)) as [|c candidates] eqn:Hc;
    [done|].
  assert (Hchunk : 1 ≤ chunk_of (Z.of_nat (length (c :: candidates))) workers).
  { unfold chunk_of.
    pose proof (Z.quot_pos (Z.of_nat (length (c :: candidates))) workers
                  ltac:(lia) ltac:(lia)).
    destruct (Z.eqb_spec (Z.quot (Z.of_nat (length (c :: candidates))) workers) 0); lia. }
  replace (Z.to_nat (chunk_of (Z.of_nat (length (c :: candidates))) workers))
    with (S (Z.to_nat (chunk_of (Z.of_nat (length (c :: candidates))) workers) - 1))
    by lia.
  cbn [take foldM].
  assert (Hpart : ∀ s, worker_partial ds userRatings (BuildItemIndex ds) metric
                         neighborK (c :: s) = Panic index_out_of_range).
  { intros s. unfold worker_partial. rewrite score_step_cons.
    by rewrite scoreItem_nonpositive_panics. }
  by rewrite Hpart.
Qed.

Lemma RecommendItemBasedParallel_nonpositive_panics_witness :
  RecommendItemBasedParallel Inputs.ds_three 1 10 CosineSim 0 2
  = Panic index_out_of_range.
Proof.
  apply (RecommendItemBasedParallel_nonpositive_panics Inputs.ds_three 1 10
           CosineSim 0 2 Inputs.ratings_1).
  - reflexivity.
  - lia.
  - discriminate.
  - vm_compute. discriminate.
  - lia.
  - vm_compute. discriminate.
Defined.
(** ** The heap of the selector as a priority queue *)

(** A [minHeap] under [container/heap] is a priority queue on the scores:
    on a heap in heap order, [heap.Push] keeps the heap order and adds its
    argument, and [heap.Pop] on a heap that is not empty returns an element
    of least score and keeps the heap order of the rest. *)
Theorem minHeap_priority_queue {F} `{Float64 F} (valid : F → Prop)
    (order : ScoreOrder F valid) (h : minHeap F) (x : neighbor F) :
  is_heap h → Forall (nvalid valid) h → nvalid valid x →
  (∃ h', heap_Push h x = Ok h' ∧ is_heap h' ∧ h' ≡ₚ x :: h)
  ∧ (h ≠ [] →
     ∃ r h', heap_Pop h = Ok (r, h') ∧ is_heap h' ∧ h ≡ₚ r :: h'
             ∧ ∀ y, y ∈ h → flt (score y) (score r) = false).
Proof.
  intros Hheap Hv Hx. split; [by apply (heap_Push_spec valid)|].
  intros Hne.
  destruct (heap_Pop_spec valid h Hne Hheap Hv) as (r & h' & Hpop & Hr & Hheap' & Hperm).
  exists r, h'. split; [done|]. split; [done|]. split; [done|].
  intros y Hy. by apply (heap_root_min valid h r).
Qed.

Lemma minHeap_priority_queue_witness :
  (∃ h', heap_Push (neighbors_of [(1, Binary64.half); (2, PrimFloat.one)])
           {| id := 3; score := Inputs.f025 |} = Ok h'
         ∧ is_heap h'
         ∧ h' ≡ₚ {| id := 3; score := Inputs.f025 |}
                 :: neighbors_of [(1, Binary64.half); (2, PrimFloat.one)])
  ∧ (neighbors_of [(1, Binary64.half); (2, PrimFloat.one)] ≠ [] →
     ∃ r h', heap_Pop (neighbors_of [(1, Binary64.half); (2, PrimFloat.one)])
             = Ok (r, h')
             ∧ is_heap h'
             ∧ neighbors_of [(1, Binary64.half); (2, PrimFloat.one)] ≡ₚ r :: h'
             ∧ ∀ y, y ∈ neighbors_of [(1, Binary64.half); (2, PrimFloat.one)] →
                    flt (score y) (score r) = false).
Proof.
  apply (minHeap_priority_queue not_nan FloatOrder.float_ScoreOrder).
  - intros k a b Hk Ha Hb. cbn [length neighbors_of fmap list_fmap] in Hk.
    assert (k = 1)%nat as -> by lia. cbn in Ha, Hb.
    injection Ha as <-. injection Hb as <-. vm_compute. reflexivity.
  - repeat (apply Forall_cons_2 || apply Forall_nil_2); vm_compute; reflexivity.
  - vm_compute. reflexivity.
Defined.

(** ** The entries of the similarity matrices *)


Section MatrixEntries.
Context {F : Type} `{Float64 F}.
Variable sim : User F → User F → result F.
Hypothesis sim_total : ∀ u1 u2, ∃ r, sim u1 u2 = Ok r.
Variable users : list (User F).

Local Abbreviation n := (length users).

Lemma write_pair_cells (M : list (list F)) (i j : nat) :
  shaped n M → (i < j < n)%nat →
  ∃ ui uj s M', users !! i = Some ui ∧ users !! j = Some uj ∧ sim ui uj = Ok s
    ∧ write_pair sim users M (i, j) = Ok M' ∧ shaped n M'
    ∧ ∀ a b, cell M' a b
             = if decide ((a = i ∧ b = j) ∨ (a = j ∧ b = i)) then Some s
               else cell M a b.
Proof using sim_total.
  intros Hsh Hij. unfold write_pair, index.
  destruct (lookup_lt_is_Some_2 users i ltac:(lia)) as [ui Hui].
  destruct (lookup_lt_is_Some_2 users j ltac:(lia)) as [uj Huj].
  rewrite Hui, Huj. rewrite !bind_Ok; cbv beta.
  destruct (sim_total ui uj) as [s Hs]. rewrite Hs. rewrite bind_Ok; cbv beta.
  destruct (mat_set_spec _ M i j s Hsh ltac:(lia) ltac:(lia)) as (M1 & -> & Hsh1 & Hc1).
  rewrite bind_Ok; cbv beta.
  destruct (mat_set_spec _ M1 j i s Hsh1 ltac:(lia) ltac:(lia)) as (M2 & -> & Hsh2 & Hc2).
  exists ui, uj, s, M2. repeat (split; [done|]).
  intros a b. rewrite Hc2, Hc1. repeat case_decide; try done; tauto.
Qed.

Lemma write_pair_written (k : nat) (M : list (list F)) (i j : nat)
    (P : nat → nat → Prop) :
  matrix_inv n k M → (i < j < n)%nat →
  (∀ a b, P a b → (a < b)%nat ∧ pair_written sim users M a b) →
  ∃ M', write_pair sim users M (i, j) = Ok M' ∧ matrix_inv n k M'
        ∧ ∀ a b, P a b ∨ (a = i ∧ b = j) →
                 (a < b)%nat ∧ pair_written sim users M' a b.
Proof using sim_total.
  intros Hinv Hij HP.
  destruct (write_pair_inv sim users k M i j sim_total Hinv Hij) as (M' & HM' & Hinv').
  destruct Hinv as (Hsh & _).
  destruct (write_pair_cells M i j Hsh Hij)
    as (ui & uj & s & M'' & Hui & Huj & Hs & HM'' & _ & Hcell).
  rewrite HM' in HM''. injection HM'' as <-.
  exists M'. split; [done|]. split; [done|].
  intros a b [Hab|[-> ->]].
  - destruct (HP a b Hab) as [Hlt Hw]. split; [done|].
    intros ua ub s' Hua Hub Hs'. rewrite !Hcell.
    destruct (decide (a = i ∧ b = j)) as [[-> ->]|Hne].
    + rewrite decide_True by tauto. rewrite decide_True by tauto.
      rewrite Hui in Hua. rewrite Huj in Hub. injection Hua as <-. injection Hub as <-.
      rewrite Hs in Hs'. by injection Hs' as <-.
    + rewrite decide_False by lia. rewrite decide_False by lia.
      by apply (Hw ua ub).
  - split; [lia|]. intros ua ub s' Hua Hub Hs'. rewrite !Hcell.
    rewrite decide_True by tauto. rewrite decide_True by tauto.
    rewrite Hui in Hua. rewrite Huj in Hub. injection Hua as <-. injection Hub as <-.
    rewrite Hs in Hs'. by injection Hs' as <-.
Qed.

End MatrixEntries.

Section BuildersEntries.
Context {F : Type} `{Float64 F}.
Variable sim : User F → User F → result F.
Hypothesis sim_total : ∀ u1 u2, ∃ r, sim u1 u2 = Ok r.
Variable users : list (User F).

Local Abbreviation n := (length users).

Lemma write_diagonal_written (M : list (list F)) (i : nat) (P : nat → nat → Prop) :
  matrix_inv n i M → (i < n)%nat →
  (∀ a b, P a b → (a < b)%nat ∧ pair_written sim users M a b) →
  ∃ M', mat_set M i i fone = Ok M' ∧ matrix_inv n (S i) M'
        ∧ ∀ a b, P a b → (a < b)%nat ∧ pair_written sim users M' a b.
Proof.
  intros Hinv Hi HP.
  destruct (write_diagonal_inv n M i Hinv Hi) as (M' & HM' & Hinv').
  destruct Hinv as (Hsh & _).
  destruct (mat_set_spec n M i i fone Hsh Hi Hi) as (M'' & HM'' & _ & Hcell).
  rewrite HM' in HM''. injection HM'' as <-.
  exists M'. split; [done|]. split; [done|].
  intros a b Hab. destruct (HP a b Hab) as [Hlt Hw]. split; [done|].
  intros ua ub s Hua Hub Hs. rewrite !Hcell.
  rewrite decide_False by lia. rewrite decide_False by lia. by apply (Hw ua ub).
Qed.

Lemma sequential_row_written (M : list (list F)) (i : nat) :
  (i < n)%nat → matrix_inv n i M →
  (∀ a b, (a < i)%nat → (a < b < n)%nat → pair_written sim users M a b) →
  ∃ M', sequential_row sim users n M i = Ok M' ∧ matrix_inv n (S i) M'
        ∧ ∀ a b, (a < S i)%nat → (a < b < n)%nat → pair_written sim users M' a b.
Proof using sim_total.
  intros Hi Hinv Hw. unfold sequential_row.
  destruct (write_diagonal_written M i (λ a b, (a < i)%nat ∧ (a < b < n)%nat) Hinv Hi)
    as (M1 & -> & Hinv1 & Hw1).
  { intros a b [Ha Hb]. split; [lia|]. by apply Hw. }
  rewrite bind_Ok; cbv beta.
  destruct (foldM_seq_invariant
              (λ j M, matrix_inv n (S i) M
                      ∧ ∀ a b, ((a < i)%nat ∧ (a < b < n)%nat)
                               ∨ (a = i ∧ (i < b < j)%nat) →
                               (a < b)%nat ∧ pair_written sim users M a b)
              (λ M j, write_pair sim users M (i, j))
              (i + 1) (n - (i + 1)) M1) as (M' & -> & Hinv' & Hw').
  - intros j M2 Hj [Hinv2 Hw2].
    destruct (write_pair_written sim sim_total users (S i) M2 i j
                (λ a b, ((a < i)%nat ∧ (a < b < n)%nat) ∨ (a = i ∧ (i < b < j)%nat))
                Hinv2 ltac:(lia) Hw2) as (M3 & -> & Hinv3 & Hw3).
    exists M3. split; [done|]. split; [done|].
    intros a b Hab. apply Hw3. destruct Hab as [Hab|[-> Hb]]; [by left; left|].
    destruct (decide (b = j)) as [->|Hne]; [by right|].
    left. right. split; [done | lia].
  - split; [done|]. intros a b [Hab|[-> Hb]]; [by apply Hw1 | lia].
  - exists M'. split; [done|]. split; [done|].
    intros a b Ha Hb. apply Hw'.
    destruct (decide (a = i)) as [->|Hne]; [right; split; [done | lia]|].
    left. split; [lia | done].
Qed.

Lemma similarity_sequential_written :
  ∃ M, similarity_sequential sim users = Ok M ∧ holds_similarities sim users M.
Proof using sim_total.
  unfold similarity_sequential.
  destruct (foldM_seq_invariant
              (λ k M, matrix_inv n k M
                      ∧ ∀ a b, (a < k)%nat → (a < b < n)%nat →
                               pair_written sim users M a b)
              (sequential_row sim users n) 0 n (alloc_rows n))
    as (M & HM & Hinv & Hw).
  - intros k M Hk [Hinv Hw]. apply sequential_row_written; [lia | done | done].
  - split; [apply alloc_rows_inv|]. intros a b Ha. lia.
  - exists M. split; [done|]. split; [done|].
    intros a b Hab. apply Hw; lia.
Qed.


Lemma holds_similarities_entries (M : list (list F)) :
  holds_similarities sim users M → similarity_entries sim users M.
Proof.
  intros [(Hsh & _) Hw] i j ui uj s Hij Hui Huj Hs.
  pose proof (lookup_lt_Some _ _ _ Huj) as Hj.
  destruct (Hw i j ltac:(lia) ui uj s Hui Huj Hs) as [H1 H2].
  destruct (cell_mat_get n M i j Hsh ltac:(lia) Hj) as (x & Hx & ->).
  destruct (cell_mat_get n M j i Hsh Hj ltac:(lia)) as (y & Hy & ->).
  rewrite H1 in Hx. rewrite H2 in Hy. by injection Hx as <-; injection Hy as <-.
Qed.

End BuildersEntries.

(** The entries of the matrices of the four sequential builders: for every
    pair of users [i < j], the entries [(i, j)] and [(j, i)] are both the
    similarity of the user [i] and the user [j], computed once with the
    user [i] as first argument. *)
Theorem sequential_builders_entries {F} `{Float64 F} (users : list (User F)) :
  (∃ M, CosineSequential users = Ok M
        ∧ similarity_entries (λ u1 u2, Ok (cosineSimilarity u1 u2)) users M)
  ∧ (∃ M, PearsonSequential users = Ok M
          ∧ similarity_entries pearsonCorrelation users M)
  ∧ (∃ M, JaccardSequential users = Ok M
          ∧ similarity_entries (λ u1 u2, Ok (jaccardIndex u1 u2)) users M)
  ∧ (∃ M, JaccardWeightedSequential users = Ok M
          ∧ similarity_entries (λ u1 u2, Ok (JaccardWeighted u1 u2)) users M).
Proof.
  assert (Hpure : ∀ f : User F → User F → F,
            ∀ u1 u2, ∃ r, (λ u1 u2, Ok (f u1 u2)) u1 u2 = Ok r).
  { intros f u1 u2. by eexists. }
  assert (Hany : ∀ sim : User F → User F → result F,
            (∀ u1 u2, ∃ r, sim u1 u2 = Ok r) →
            ∃ M, similarity_sequential sim users = Ok M
                 ∧ similarity_entries sim users M).
  { intros sim Hsim.
    destruct (similarity_sequential_written sim Hsim users) as (M & HM & Hw).
    exists M. split; [done|]. by apply holds_similarities_entries. }
  split; [|split; [|split]].
  - apply Hany, Hpure.
  - apply Hany, pearsonCorrelation_total.
  - apply Hany, Hpure.
  - apply Hany, Hpure.
Qed.

Section ConcurrentEntries.
Context {F : Type} `{Float64 F}.
Variable sim : User F → User F → result F.
Hypothesis sim_total : ∀ u1 u2, ∃ r, sim u1 u2 = Ok r.
Variable users : list (User F).
Variable numWorkers : Z.

Local Abbreviation n := (length users).
Local Abbreviation prog := (similarity_concurrent sim users numWorkers).


Lemma concurrent_init_unit (M0 : list (list F)) :
  concurrent_init n = Ok M0 → unit_matrix n M0.
Proof.
  unfold concurrent_init. intros HM0.
  destruct (foldM_seq_invariant (init_inv n)
              (λ M i, mat_set (<[i := replicate n fzero]> M) i i fone) 0 n
              (replicate n [])) as (M & HM & Hlen & Hrows & _).
  - intros k M Hk (Hlen & Hlow & Hhigh). unfold mat_set, index.
    rewrite list_lookup_insert_eq by lia. rewrite bind_Ok; cbv beta.
    rewrite length_replicate. destruct (Nat.ltb_spec k n); [|lia].
    eexists. split; [reflexivity|]. rewrite list_insert_insert_eq.
    split; [by rewrite length_insert|]. split.
    + intros i Hi. destruct (decide (k = i)) as [->|Hne].
      * by rewrite list_lookup_insert_eq by lia.
      * rewrite list_lookup_insert_ne by done. apply Hlow. lia.
    + intros i Hi. rewrite list_lookup_insert_ne by lia. apply Hhigh. lia.
  - split; [by rewrite length_replicate|]. split; [lia|].
    intros i Hi. apply lookup_replicate_2. lia.
  - rewrite HM0 in HM. injection HM as <-. split; [done|].
    intros i j Hi Hj. unfold mat_get, index. cbn [Nat.add] in Hrows.
    rewrite Hrows by done. rewrite bind_Ok; cbv beta.
    destruct (decide (i = j)) as [->|Hne].
    + rewrite list_lookup_insert_eq; [done|]. by rewrite length_replicate.
    + rewrite list_lookup_insert_ne by done. by rewrite lookup_replicate_2.
Qed.


(** Without a worker, it is the matrix of the first loop. *)
Lemma similarity_concurrent_unit :
  chan_size_ok (bufferSize n numWorkers) → numWorkers ≤ 0 →
  always_returns prog (unit_matrix n).
Proof using sim_total.
  intros Hsize HW. apply (concurrent_returns sim sim_total); [done|].
  intros M0 applied M Hinit HM _ Hnone.
  rewrite (Hnone HW) in HM. injection HM as <-. by apply concurrent_init_unit.
Qed.

End ConcurrentEntries.

Lemma wrap64_small (z : Z) : - 2 ^ 63 ≤ z < 2 ^ 63 → wrap64 z = z.
Proof. intros Hz. unfold wrap64. rewrite Z.mod_small; lia. Qed.

(** A negative number of workers whose hundredfold is an [int] makes the
    size of the channels negative. *)
Lemma bufferSize_negative (n : nat) (numWorkers : Z) :
  -92233720368547758 ≤ numWorkers < 0 → bufferSize n numWorkers < 0.
Proof.
  intros HW. unfold bufferSize, min_int. rewrite (wrap64_small (numWorkers * 100)) by lia.
  destruct (Z.ltb_spec (Z.quot (wrap64 (Z.of_nat n * (Z.of_nat n - 1))) 2)
              (numWorkers * 100)); lia.
Qed.

(** The sizes that [make] accepts: for the lists of users whose number of
    pairs is an [int], every number of workers from 0 to 117281240296. *)
Lemma bufferSize_ok (n : nat) (numWorkers : Z) :
  Z.of_nat n ≤ 3037000499 → 0 ≤ numWorkers ≤ 117281240296 →
  chan_size_ok (bufferSize n numWorkers).
Proof.
  intros Hn HW. unfold chan_size_ok, bufferSize, min_int, maxAlloc, hchanSize.
  rewrite (wrap64_small (numWorkers * 100)) by lia.
  rewrite (wrap64_small (Z.of_nat n * (Z.of_nat n - 1))) by nia.
  assert (0 ≤ Z.quot (Z.of_nat n * (Z.of_nat n - 1)) 2) by (apply Z.quot_pos; nia).
  destruct (Z.ltb_spec (Z.quot (Z.of_nat n * (Z.of_nat n - 1)) 2) (numWorkers * 100)); lia.
Qed.



(** The concurrent builders without a worker.  A negative number of workers
    whose hundredfold is an [int] makes the size of the channels negative,
    and [make] panics.  With any other number of workers that is not
    positive, 0 among them, a builder whose channels [make] accepts returns
    under every schedule the matrix of its first loop, with 1.0 on the
    diagonal and 0 elsewhere: no similarity is computed. *)
Theorem concurrent_builders_without_workers {F} `{Float64 F}
    (users : list (User F)) (numWorkers : Z) :
  numWorkers ≤ 0 →
  (-92233720368547758 ≤ numWorkers < 0 →
   Forall (λ p, start p = Panic makechan_size_out_of_range)
     [CosineConcurrent users numWorkers; PearsonConcurrent users numWorkers;
      JaccardConcurrent users numWorkers;
      JaccardWeightedConcurrent users numWorkers])
  ∧ (chan_size_ok (bufferSize (length users) numWorkers) →
     Forall (λ p, always_returns p (unit_matrix (length users)))
       [CosineConcurrent users numWorkers; PearsonConcurrent users numWorkers;
        JaccardConcurrent users numWorkers;
        JaccardWeightedConcurrent users numWorkers]).
Proof.
  intros HW. split.
  - intros Hneg. pose proof (bufferSize_negative (length users) numWorkers Hneg).
    repeat (apply Forall_cons_2 || apply Forall_nil_2);
      by apply concurrent_start_negative.
  - intros Hsize. repeat (apply Forall_cons_2 || apply Forall_nil_2).
    + apply similarity_concurrent_unit; [apply pure_total | done | done].
    + apply similarity_concurrent_unit; [apply pearsonCorrelation_total | done | done].
    + apply similarity_concurrent_unit; [apply pure_total | done | done].
    + apply similarity_concurrent_unit; [apply pure_total | done | done].
Qed.

Lemma concurrent_builders_without_workers_witness :
  Forall (λ p, start p = Panic makechan_size_out_of_range)
    [CosineConcurrent Inputs.two_users (-1); PearsonConcurrent Inputs.two_users (-1);
     JaccardConcurrent Inputs.two_users (-1);
     JaccardWeightedConcurrent Inputs.two_users (-1)]
  ∧ Forall (λ p, always_returns p (unit_matrix (length Inputs.two_users)))
      [CosineConcurrent Inputs.two_users 0; PearsonConcurrent Inputs.two_users 0;
       JaccardConcurrent Inputs.two_users 0;
       JaccardWeightedConcurrent Inputs.two_users 0]
  ∧ Forall (λ p, always_returns p (unit_matrix (length Inputs.two_users)))
      [CosineConcurrent Inputs.two_users (-92233720368547759);
       PearsonConcurrent Inputs.two_users (-92233720368547759);
       JaccardConcurrent Inputs.two_users (-92233720368547759);
       JaccardWeightedConcurrent Inputs.two_users (-92233720368547759)].
Proof.
  split; [|split].
  - apply (concurrent_builders_without_workers Inputs.two_users (-1)); lia.
  - apply (concurrent_builders_without_workers Inputs.two_users 0); [lia|].
    split; vm_compute; discriminate.
  - apply (concurrent_builders_without_workers Inputs.two_users
             (-92233720368547759)); [lia|].
    split; vm_compute; discriminate.
Defined.

(** A run of CosineConcurrent on two users with two workers. *)
Lemma CosineConcurrent_run :
  ∃ s, run (CosineConcurrent Inputs.two_users 2)
         [Call; Call; Call; Call; Call; Send; Work 0; Work 0; Call; Send;
          Work 0; Work 1; Close; Call]
         (start (CosineConcurrent Inputs.two_users 2)) = Some (Ok s)
       ∧ main s = Returned
       ∧ Ok (similarity s) = CosineSequential Inputs.two_users.
Proof. eexists. split; [by vm_compute|]. split; by vm_compute. Qed.

(** ** The loaders *)

Lemma elem_of_mset {V} (m : gomap V) (k : Z) (v : V) (e : Z * V) :
  wf_map m → e ∈ mset m k v → e = (k, v) ∨ (e ∈ m ∧ fst e ≠ k).
Proof.
  unfold wf_map, mkeys. induction m as [|[k' v'] m IH]; simpl; intros Hwf.
  - intros He. apply list_elem_of_singleton in He. by left.
  - apply NoDup_cons in Hwf as [Hfresh Hwf]. destruct (Z.eqb_spec k' k) as [->|Hne].
    + intros He. apply elem_of_cons in He as [->|He]; [by left|].
      right. split; [by apply list_elem_of_further|].
      intros Hk. apply Hfresh. apply list_elem_of_fmap. exists e. by split.
    + intros He. apply elem_of_cons in He as [->|He].
      * right. split; [apply list_elem_of_here | done].
      * destruct (IH Hwf He) as [->|[Hin Hk]]; [by left|].
        right. split; [by apply list_elem_of_further | done].
Qed.

Lemma mread_map_elem {F} (m : gomap (gomap F)) (k : Z) :
  mread_map m k = [] ∨ (k, mread_map m k) ∈ m.
Proof.
  unfold mread_map. destruct (mget m k) as [v|] eqn:Hg; [|by left].
  right. by apply mget_Some_elem.
Qed.

Section LoadDatasetFacts.
Context {F : Type} `{Float64 F}.
Variable Atoi : gostring → Z.
Variable ParseFloat : gostring → F.

Lemma LoadDataset_row_loaded (ds : Dataset F) (row : list gostring) :
  loaded ds → loaded (LoadDataset_row Atoi ParseFloat ds row).
Proof.
  intros ([Hwf Hwfs] & Hall & HU & HM).
  destruct row as [|r0 [|r1 [|r2 row]]]; try done.
  unfold LoadDataset_row.
  set (uid := Atoi r0). set (mid := Atoi r1).
  set (rating := fdiv (ParseFloat r2) (fof_int 5)).
  set (ur1 := if mhas (UserRatings ds) uid then UserRatings ds
              else mset (UserRatings ds) uid []).
  set (inner := mread_map ur1 uid).
  assert (Hwf1 : wf_map ur1).
  { subst ur1. destruct (mhas (UserRatings ds) uid); [done | by apply mset_wf]. }
  assert (Hur1 : ∀ e, e ∈ ur1 → e = (uid, []) ∨ e ∈ UserRatings ds).
  { intros e He. subst ur1. destruct (mhas (UserRatings ds) uid); [by right|].
    apply elem_of_mset in He as [->|[He _]]; [by left | by right | done]. }
  assert (Hinner : inner = [] ∨ (uid, inner) ∈ UserRatings ds).
  { destruct (mread_map_elem ur1 uid) as [Hnil|Hin]; [by left|].
    destruct (Hur1 _ Hin) as [[= Heq]|Hin']; [by left | by right]. }
  rewrite Forall_forall in Hwfs, Hall.
  assert (Hwf_inner : wf_map inner).
  { destruct Hinner as [->|Hin]; [apply NoDup_nil_2 | by apply (Hwfs _ Hin)]. }
  assert (Hnew : ∀ e, e ∈ mset ur1 uid (mset inner mid rating) →
                      e = (uid, mset inner mid rating) ∨ e ∈ UserRatings ds).
  { intros e He. apply elem_of_mset in He as [->|[He Hk]]; [by left | | done].
    destruct (Hur1 _ He) as [->|Hin]; [done | by right]. }
  assert (Hinner_bound : Forall (λ m, m ≤ Movies ds) (mkeys inner)).
  { destruct Hinner as [->|Hin]; [apply Forall_nil_2 | by apply (Hall _ Hin)]. }
  split; [|split]; cbn [UserRatings Users Movies].
  - split; [by apply mset_wf|]. apply Forall_forall. intros e He.
    destruct (Hnew e He) as [->|Hin]; [by apply mset_wf | by apply Hwfs].
  - apply Forall_forall. intros e He.
    destruct (Hnew e He) as [->|Hin]; cbn [fst snd].
    + split; [apply mset_not_nil|]. split.
      * destruct (Z.gtb_spec uid (Users ds)); lia.
      * apply Forall_forall. intros m Hm. apply mkeys_mset_elem in Hm as [->|Hm].
        -- destruct (Z.gtb_spec mid (Movies ds)); lia.
        -- rewrite Forall_forall in Hinner_bound. specialize (Hinner_bound m Hm).
           destruct (Z.gtb_spec mid (Movies ds)); lia.
    + destruct (Hall e Hin) as (Hne & Hu & Hm). split; [done|]. split.
      * destruct (Z.gtb_spec uid (Users ds)); lia.
      * eapply Forall_impl; [exact Hm|]. intros m Hle. simpl in Hle.
        destruct (Z.gtb_spec mid (Movies ds)); lia.
  - split.
    + destruct (Z.gtb_spec uid (Users ds)); lia.
    + destruct (Z.gtb_spec mid (Movies ds)); lia.
Qed.

Lemma LoadDataset_rows_loaded (rows : list (list gostring)) :
  loaded (LoadDataset_rows Atoi ParseFloat rows).
Proof.
  unfold LoadDataset_rows.
  assert (H0 : loaded ({| UserRatings := []; Users := 0; Movies := 0 |} : Dataset F)).
  { split; [split; [apply NoDup_nil_2 | apply Forall_nil_2]|]. split; [apply Forall_nil_2|done]. }
  revert H0. generalize ({| UserRatings := []; Users := 0; Movies := 0 |} : Dataset F).
  induction rows as [|row rows IH]; intros ds Hds; simpl; [done|].
  by apply IH, LoadDataset_row_loaded.
Qed.

Lemma LoadDataset_row_entry (ds : Dataset F) (r0 r1 r2 : gostring)
    (row : list gostring) (uid mid : Z) :
  index_entry (UserRatings (LoadDataset_row Atoi ParseFloat ds (r0 :: r1 :: r2 :: row)))
              uid mid
  = if Z.eqb (Atoi r0) uid && Z.eqb (Atoi r1) mid
    then Some (fdiv (ParseFloat r2) (fof_int 5))
    else index_entry (UserRatings ds) uid mid.
Proof.
  change (UserRatings (LoadDataset_row Atoi ParseFloat ds (r0 :: r1 :: r2 :: row)))
    with (BuildItemIndex_item (Atoi r1) (UserRatings ds)
            (Atoi r0, fdiv (ParseFloat r2) (fof_int 5))).
  apply BuildItemIndex_item_entry.
Qed.

End LoadDatasetFacts.

(** LoadDataset fails only when the file cannot be opened, and the dataset
    it returns has no key twice, no user without a rating, and [Users] and
    [Movies] at least as large as every user and item identifier it holds
    (and not negative), whatever the records and the parsed values are. *)
Theorem LoadDataset_loaded {F} `{Float64 F} (Atoi : gostring → Z)
    (ParseFloat : gostring → F) (file : option csv_reads) :
  match LoadDataset Atoi ParseFloat file with
  | Some ds => loaded ds
  | None => file = None
  end.
Proof.
  destruct file as [reads|]; [|done]. apply LoadDataset_rows_loaded.
Qed.

(** The rating that the loaded dataset holds for a user and an item is the
    fifth of the value of the last record read for them, and there is none
    when no record was read for them. *)
Theorem LoadDataset_last_rating {F} `{Float64 F} (Atoi : gostring → Z)
    (ParseFloat : gostring → F) (rows : list (list gostring)) (uid mid : Z) :
  mget (mread_map (UserRatings (LoadDataset_rows Atoi ParseFloat rows)) uid) mid
  = last_rating Atoi ParseFloat rows uid mid.
Proof.
  unfold LoadDataset_rows, last_rating.
  assert (Hgen : ∀ ds found, index_entry (UserRatings ds) uid mid = found →
    index_entry (UserRatings (fold_left (LoadDataset_row Atoi ParseFloat) rows ds))
                uid mid
    = fold_left (λ found row,
                   match row with
                   | r0 :: r1 :: r2 :: _ =>
                       if Z.eqb (Atoi r0) uid && Z.eqb (Atoi r1) mid
                       then Some (fdiv (ParseFloat r2) (fof_int 5))
                       else found
                   | _ => found
                   end) rows found).
  { induction rows as [|row rows IH]; intros ds found Hds; cbn [fold_left]; [done|].
    apply IH. destruct row as [|r0 [|r1 [|r2 row]]]; try done.
    rewrite LoadDataset_row_entry. by rewrite Hds. }
  by apply Hgen.
Qed.

(** On a dataset as LoadDataset builds it, a target that has rated nothing
    has no entry, and the three recommenders return the empty sequence for
    it. *)
Theorem loaded_ratingless_target {F} `{Float64 F} (ds : Dataset F)
    (user topK : Z) (metric : SimMetric) (neighborK workers : Z) :
  loaded ds → rated_nothing ds user →
  mget (UserRatings ds) user = None
  ∧ RecommendItemBased ds user topK metric neighborK = Ok []
  ∧ RecommendUserBased ds user topK metric neighborK = Ok []
  ∧ RecommendItemBasedParallel ds user topK metric neighborK workers = Ok [].
Proof.
  intros (_ & Hall & _) Hnothing. unfold rated_nothing in Hnothing.
  assert (Hnone : mget (UserRatings ds) user = None).
  { destruct (mget (UserRatings ds) user) as [userRatings|] eqn:Hg; [|done].
    apply mget_Some_elem in Hg. rewrite Forall_forall in Hall.
    destruct (Hall _ Hg) as (Hne & _). by subst. }
  unfold RecommendItemBased, RecommendUserBased, RecommendItemBasedParallel.
  by rewrite Hnone.
Qed.

Lemma loaded_ratingless_target_witness :
  mget (UserRatings Inputs.ds_two) 7 = None
  ∧ RecommendItemBased Inputs.ds_two 7 10 CosineSim 2 = Ok []
  ∧ RecommendUserBased Inputs.ds_two 7 10 CosineSim 2 = Ok []
  ∧ RecommendItemBasedParallel Inputs.ds_two 7 10 CosineSim 2 4 = Ok [].
Proof.
  apply (loaded_ratingless_target Inputs.ds_two 7 10 CosineSim 2 4).
  - split; [split|split; [|split]].
    + apply (bool_decide_unpack _). vm_compute. reflexivity.
    + repeat (apply Forall_cons_2 || apply Forall_nil_2);
        apply (bool_decide_unpack _); vm_compute; reflexivity.
    + repeat (apply Forall_cons_2 || apply Forall_nil_2); cbn [fst snd];
        (split; [discriminate|split; [vm_compute; discriminate|]]);
        repeat (apply Forall_cons_2 || apply Forall_nil_2); vm_compute; discriminate.
    + vm_compute. discriminate.
    + vm_compute. discriminate.
  - exact I.
Defined.

Section loadDatasetFacts.
Context {F : Type} `{Float64 F}.

Lemma userMap_get_elem (m : userMap F) (k : gostring) (u : User F) :
  userMap_get m k = Some u → (k, u) ∈ m.
Proof.
  induction m as [|[k' u'] m IH]; simpl; [done|].
  destruct (decide (k' = k)) as [->|Hne].
  - intros [= ->]. apply list_elem_of_here.
  - intros Hg. by apply list_elem_of_further, IH.
Qed.

Lemma userMap_get_None (m : userMap F) (k : gostring) :
  userMap_get m k = None → k ∉ fst <$> m.
Proof.
  induction m as [|[k' u'] m IH]; simpl.
  - intros _. apply not_elem_of_nil.
  - destruct (decide (k' = k)) as [->|Hne]; [done|].
    intros Hg. apply not_elem_of_cons. split; [done | by apply IH].
Qed.

Lemma userMap_set_keys (m : userMap F) (k : gostring) (u : User F) :
  fst <$> userMap_set m k u
  = if decide (k ∈ fst <$> m) then fst <$> m else (fst <$> m) ++ [k].
Proof.
  induction m as [|[k' u'] m IH]; cbn [userMap_set].
  - rewrite decide_False; [done | apply not_elem_of_nil].
  - destruct (decide (k' = k)) as [->|Hne]; rewrite !fmap_cons; cbn [fst].
    + rewrite decide_True; [done | apply list_elem_of_here].
    + rewrite IH. destruct (decide (k ∈ fst <$> m)) as [Hin|Hin].
      * rewrite decide_True; [done | by apply list_elem_of_further].
      * rewrite decide_False; [done|]. apply not_elem_of_cons. by split.
Qed.

Lemma userMap_set_elem (m : userMap F) (k : gostring) (u : User F)
    (e : gostring * User F) :
  e ∈ userMap_set m k u → e = (k, u) ∨ e ∈ m.
Proof.
  induction m as [|[k' u'] m IH]; simpl.
  - intros He. apply list_elem_of_singleton in He. by left.
  - destruct (decide (k' = k)).
    + intros He. apply elem_of_cons in He as [->|He]; [by left|].
      right. by apply list_elem_of_further.
    + intros He. apply elem_of_cons in He as [->|He]; [right; apply list_elem_of_here|].
      destruct (IH He) as [->|Hin]; [by left|]. right. by apply list_elem_of_further.
Qed.

Lemma userMap_set_inv (m : userMap F) (k : gostring) (u : User F) :
  userMap_inv m → SteamID u = k → Games u ≠ [] → wf_map (Games u) →
  userMap_inv (userMap_set m k u).
Proof.
  intros [Hnd Hall] Hid Hne Hwf. split.
  - rewrite userMap_set_keys. destruct (decide (k ∈ fst <$> m)); [done|].
    apply NoDup_app. split; [done|]. split; [|apply NoDup_singleton].
    intros x Hx Hx'. apply list_elem_of_singleton in Hx'. by subst.
  - apply Forall_forall. intros e He. apply userMap_set_elem in He as [->|He].
    + done.
    + rewrite Forall_forall in Hall. by apply Hall.
Qed.

Variable Atoi : gostring → option Z.
Variable ParseFloat : gostring → option F.

Lemma loadDataset_record_inv (m : userMap F) (record : list gostring) :
  userMap_inv m → userMap_inv (loadDataset_record Atoi ParseFloat m record).
Proof.
  intros Hinv. unfold loadDataset_record.
  destruct record as [|r0 [|r1 [|r2 [|r3 record]]]]; try done.
  destruct (Atoi r0) as [appID|]; [|done].
  destruct (ParseFloat r2) as [playtimeNorm|]; [|done].
  destruct (ParseFloat r3) as [rating|]; [|done].
  destruct (userMap_get m r1) as [user|] eqn:Hget.
  - apply userMap_get_elem in Hget. destruct Hinv as [Hnd Hall].
    pose proof Hall as Hall'. rewrite Forall_forall in Hall'.
    destruct (Hall' _ Hget) as (Hid & Hne & Hwf). cbn [fst snd] in *.
    apply userMap_set_inv; cbn [SteamID Games]; [done | done | | by apply mset_wf].
    apply mset_not_nil.
  - apply userMap_set_inv; cbn [SteamID Games]; [done | done | done |].
    apply NoDup_singleton.
Qed.

Lemma loadDataset_records_inv (records : list (list gostring)) (m : userMap F) :
  userMap_inv m → userMap_inv (fold_left (loadDataset_record Atoi ParseFloat) records m).
Proof.
  revert m. induction records as [|r records IH]; intros m Hm; simpl; [done|].
  by apply IH, loadDataset_record_inv.
Qed.

Lemma userMap_users (m : userMap F) (acc : list (User F)) :
  fold_left (λ users e, users ++ [snd e]) m acc = acc ++ (snd <$> m).
Proof.
  revert acc. induction m as [|e m IH]; intros acc; simpl.
  - by rewrite app_nil_r.
  - rewrite IH. by rewrite <- app_assoc.
Qed.

Lemma userMap_inv_users (m : userMap F) : userMap_inv m → users_loaded (snd <$> m).
Proof.
  intros [Hnd Hall]. split.
  - assert (Heq : SteamID <$> (snd <$> m) = fst <$> m).
    { clear Hnd. induction Hall as [|e m (Hid & _) Hall IH]; [done|].
      rewrite !fmap_cons. by rewrite Hid, IH. }
    by rewrite Heq.
  - rewrite Forall_fmap. eapply Forall_impl; [exact Hall|].
    intros e (_ & Hne & Hwf). by split.
Qed.

Lemma loadDataset_users (file : option csv_reads) (users : list (User F)) :
  loadDataset Atoi ParseFloat file = Some users → users_loaded users.
Proof.
  unfold loadDataset. destruct file as [[|[header|] reads]|]; try done.
  destruct (Z.of_nat (length header) <? 4); [done|].
  intros [= <-]. rewrite userMap_users, app_nil_l.
  apply userMap_inv_users, loadDataset_records_inv.
  split; [apply NoDup_nil_2 | apply Forall_nil_2].
Qed.

End loadDatasetFacts.

Lemma userMap_set_length {F} (m : userMap F) (k : gostring) (u : User F) :
  (length (userMap_set m k u) ≤ S (length m))%nat.
Proof.
  induction m as [|[k' u'] m IH]; simpl; [lia|].
  destruct (decide (k' = k)); simpl; lia.
Qed.

Lemma loadDataset_records_length {F} `{Float64 F} (Atoi : gostring → option Z)
    (ParseFloat : gostring → option F) (records : list (list gostring))
    (m : userMap F) :
  (length (fold_left (loadDataset_record Atoi ParseFloat) records m)
   ≤ length m + length records)%nat.
Proof.
  revert m. induction records as [|r records IH]; intros m; simpl; [lia|].
  etransitivity; [apply IH|].
  assert (Hstep : (length (loadDataset_record Atoi ParseFloat m r) ≤ S (length m))%nat).
  { unfold loadDataset_record.
    destruct r as [|r0 [|r1 [|r2 [|r3 r]]]]; try lia.
    destruct (Atoi r0); [|lia]. destruct (ParseFloat r2); [|lia].
    destruct (ParseFloat r3); [|lia].
    destruct (userMap_get m r1); apply userMap_set_length. }
  lia.
Qed.

Lemma records_until_error_length (reads : csv_reads) :
  (length (records_until_error reads) ≤ length reads)%nat.
Proof.
  induction reads as [|[record|] reads IH]; simpl; lia.
Qed.

(** loadDataset fails only when the file cannot be opened, its header
    cannot be read or has fewer than four columns.  The users it returns
    have pairwise different steam ids, each of them has at least one game
    and no game twice, and there are at most as many users as reads after
    the header. *)
Theorem loadDataset_users_loaded {F} `{Float64 F} (Atoi : gostring → option Z)
    (ParseFloat : gostring → option F) (file : option csv_reads) :
  match loadDataset Atoi ParseFloat file with
  | Some users =>
      users_loaded users
      ∧ ∃ header reads, file = Some (Some header :: reads)
                        ∧ (4 ≤ length header)%nat
                        ∧ (length users ≤ length reads)%nat
  | None =>
      ∀ header reads, file = Some (Some header :: reads) →
                      (length header < 4)%nat
  end.
Proof.
  destruct (loadDataset Atoi ParseFloat file) as [users|] eqn:Hload.
  - split; [by eapply loadDataset_users|].
    revert Hload. unfold loadDataset.
    destruct file as [[|[header|] reads]|]; try done.
    destruct (Z.ltb_spec (Z.of_nat (length header)) 4); [done|].
    intros [= <-]. exists header, reads. split; [done|]. split; [lia|].
    rewrite userMap_users, app_nil_l, length_fmap.
    pose proof (loadDataset_records_length Atoi ParseFloat
                  (records_until_error reads) []) as Hlen.
    pose proof (records_until_error_length reads). simpl in Hlen. lia.
  - intros header reads ->. revert Hload. unfold loadDataset.
    destruct (Z.ltb_spec (Z.of_nat (length header)) 4); [lia | done].
Qed.

(** ** The worker counts of the benchmark *)

(** The worker counts that [main] passes to the concurrent builders: on a
    machine with at least one CPU there is at least one count, every count
    is at least 2 and at most twice the number of CPUs, and the last one is
    twice that number. *)
Theorem adjustedWorkers_bounds (numCPU : Z) :
  1 ≤ numCPU →
  Forall (λ w, 2 ≤ w ≤ numCPU * 2) (adjustedWorkers numCPU)
  ∧ last (adjustedWorkers numCPU) = Some (numCPU * 2).
Proof.
  intros Hcpu. unfold adjustedWorkers. cbn [fold_left app]. split.
  - apply Forall_app. split; [|apply Forall_singleton; lia].
    destruct (Z.leb_spec 2 (numCPU * 2)), (Z.leb_spec 4 (numCPU * 2)),
             (Z.leb_spec 8 (numCPU * 2));
      cbn [app]; repeat (apply Forall_cons_2 || apply Forall_nil_2); lia.
  - by rewrite last_snoc.
Qed.

Lemma adjustedWorkers_bounds_witness :
  Forall (λ w, 2 ≤ w ≤ 2 * 2) (adjustedWorkers 2)
  ∧ last (adjustedWorkers 2) = Some (2 * 2).
Proof. apply (adjustedWorkers_bounds 2). lia. Defined.

(** ** The Jaccard indices *)

Lemma filter_mhas_keys {V W} (a : gomap V) (b : gomap W) :
  fst <$> filter (λ e, mhas b (fst e) = true) a
  = filter (λ k, k ∈ mkeys b) (mkeys a).
Proof.
  unfold mkeys. induction a as [|[k v] a IH]; [done|].
  rewrite fmap_cons, !filter_cons. cbn [fst].
  destruct (mhas b k) eqn:Hb.
  - rewrite decide_True by done.
    rewrite decide_True by (by apply mhas_true_iff). rewrite fmap_cons. by rewrite IH.
  - rewrite decide_False by done.
    rewrite decide_False; [done|]. intros Hin. apply mhas_true_iff in Hin. congruence.
Qed.

Lemma common_count_keys {V W} (a : gomap V) (b : gomap W) :
  common_count a b = Z.of_nat (length (filter (λ k, k ∈ mkeys b) (mkeys a))).
Proof.
  unfold common_count. by rewrite <- filter_mhas_keys, length_fmap.
Qed.

(** The common keys are counted alike from both sides. *)
Lemma common_count_sym {V W} (a : gomap V) (b : gomap W) :
  wf_map a → wf_map b → common_count a b = common_count b a.
Proof.
  intros Ha Hb. rewrite !common_count_keys. f_equal.
  apply Permutation_length. apply NoDup_Permutation.
  - by apply NoDup_filter.
  - by apply NoDup_filter.
  - intros k. rewrite !list_elem_of_filter. tauto.
Qed.

Lemma common_count_keys_eq {V W V' W'} (a : gomap V) (b : gomap W)
    (a' : gomap V') (b' : gomap W') :
  mkeys a' = mkeys a → mkeys b' = mkeys b → common_count a' b' = common_count a b.
Proof. intros Ha Hb. rewrite !common_count_keys. by rewrite Ha, Hb. Qed.

Lemma common_count_bounds {V W} (a : gomap V) (b : gomap W) :
  wf_map a → wf_map b →
  0 ≤ common_count a b ∧ common_count a b ≤ mlen a ∧ common_count a b ≤ mlen b.
Proof.
  intros Ha Hb. split; [unfold common_count; lia|]. split.
  - unfold common_count, mlen.
    pose proof (length_filter (λ e : Z * V, mhas b (fst e) = true) a). lia.
  - rewrite common_count_sym by done. unfold common_count, mlen.
    pose proof (length_filter (λ e : Z * W, mhas a (fst e) = true) b). lia.
Qed.

Lemma filter_all {A} (P : A → Prop) `{!∀ x, Decision (P x)} (l : list A) :
  (∀ x, x ∈ l → P x) → filter P l = l.
Proof.
  induction l as [|x l IH]; intros Hall; [done|].
  rewrite filter_cons, decide_True by apply Hall, list_elem_of_here.
  rewrite IH; [done|]. intros y Hy. by apply Hall, list_elem_of_further.
Qed.

Lemma common_count_self {V} (a : gomap V) : common_count a a = mlen a.
Proof.
  rewrite common_count_keys, filter_all by done.
  unfold mlen, mkeys. by rewrite length_fmap.
Qed.

Lemma filter_ext_elem {A} (P Q : A → Prop) `{!∀ x, Decision (P x)}
    `{!∀ x, Decision (Q x)} (l : list A) :
  (∀ x, x ∈ l → P x ↔ Q x) → filter P l = filter Q l.
Proof.
  induction l as [|x l IH]; intros Hext; [done|].
  rewrite !filter_cons.
  rewrite IH by (intros y Hy; by apply Hext, list_elem_of_further).
  pose proof (Hext x (list_elem_of_here _ _)) as Hx.
  destruct (decide (P x)), (decide (Q x)); tauto.
Qed.

(** The keys of a set that is filled in a loop. *)
Lemma fold_mset_keys {V} (ks : list Z) (v : V) (u : gomap V) :
  NoDup ks →
  mkeys (fold_left (λ u k, mset u k v) ks u)
  = mkeys u ++ filter (λ k, k ∉ mkeys u) ks.
Proof.
  revert u. induction ks as [|k ks IH]; intros u Hnd; cbn [fold_left].
  - by rewrite filter_nil, app_nil_r.
  - apply NoDup_cons in Hnd as [Hk Hnd]. rewrite (IH _ Hnd), mkeys_mset, filter_cons.
    destruct (decide (k ∈ mkeys u)) as [Hin|Hin].
    + by rewrite decide_False by tauto.
    + rewrite decide_True by done. rewrite <- app_assoc. cbn [app]. do 2 f_equal.
      apply filter_ext_elem. intros x Hx.
      rewrite elem_of_app, list_elem_of_singleton.
      split; [tauto|]. intros Hnx [?| ->]; tauto.
Qed.

Lemma fold_mset_entries {V W} (f : gomap W → Z * V → gomap W) (w : W)
    (l : gomap V) (u : gomap W) :
  (∀ u e, f u e = mset u (fst e) w) →
  fold_left f l u = fold_left (λ u k, mset u k w) (mkeys l) u.
Proof.
  intros Hf. revert u. induction l as [|e l IH]; intros u; simpl; [done|].
  by rewrite Hf, IH.
Qed.

Section JaccardFacts.
Context {F : Type} `{Float64 F}.

Lemma Jaccard_loop_a_fold (b l : gomap F) (n : Z) (u : gomap unit) :
  fold_left (Jaccard_loop_a b) l (n, u)
  = (n + common_count l b, fold_left (λ u k, mset u k tt) (mkeys l) u).
Proof.
  unfold common_count. revert n u. induction l as [|[k v] l IH]; intros n u.
  - simpl. f_equal. lia.
  - cbn [fold_left]. unfold Jaccard_loop_a at 2. cbn [fst].
    rewrite filter_cons. cbn [fst]. destruct (mhas b k) eqn:Hb.
    + rewrite IH, decide_True by done. cbn [length fmap list_fmap fold_left mkeys fst].
      f_equal. lia.
    + rewrite IH, decide_False by congruence. done.
Qed.

Lemma Jaccard_counts_spec (a b : gomap F) :
  wf_map a → wf_map b →
  ∃ union, Jaccard_counts a b = (common_count a b, union)
           ∧ mlen union = mlen a + mlen b - common_count a b.
Proof.
  intros Ha Hb. unfold Jaccard_counts. rewrite Jaccard_loop_a_fold.
  eexists. split; [by rewrite Z.add_0_l|].
  rewrite (fold_mset_entries Jaccard_loop_b tt) by done.
  set (union := fold_left (λ u k, mset u k tt) (mkeys b) _).
  assert (Hkeys : mkeys union = mkeys a ++ filter (λ k, k ∉ mkeys a) (mkeys b)).
  { subst union. rewrite !fold_mset_keys by done. cbn [mkeys fmap list_fmap app].
    by rewrite (filter_all (λ k, k ∉ [])) by (intros; apply not_elem_of_nil). }
  assert (Hlen : mlen union = Z.of_nat (length (mkeys union))).
  { unfold mlen, mkeys. by rewrite length_fmap. }
  rewrite Hlen, Hkeys, length_app.
  rewrite (common_count_sym a b) by done. rewrite common_count_keys.
  pose proof (filter_app_complement (λ k, k ∈ mkeys a) (mkeys b)) as Hperm.
  apply Permutation_length in Hperm. rewrite length_app in Hperm.
  unfold mlen. unfold mkeys in *. rewrite !length_fmap in *. lia.
Qed.

Lemma Jaccard_closed_form (a b : gomap F) :
  wf_map a → wf_map b →
  Jaccard a b = jaccard_of (mlen a) (mlen b) (common_count a b).
Proof.
  intros Ha Hb. unfold Jaccard, jaccard_of.
  destruct (Jaccard_counts_spec a b Ha Hb) as (union & -> & Hlen).
  rewrite Hlen.
  destruct (Z.eqb_spec (mlen a) 0) as [Ha0|Ha0],
           (Z.eqb_spec (mlen b) 0) as [Hb0|Hb0]; cbn [andb]; try done.
  pose proof (common_count_bounds a b Ha Hb).
  destruct (Z.eqb_spec (mlen a + mlen b - common_count a b) 0); [done | lia].
Qed.

Lemma jaccardIndex_closed_form (u1 u2 : User F) :
  jaccardIndex u1 u2
  = jaccard_of (mlen (Games u1)) (mlen (Games u2))
               (common_count (Games u1) (Games u2)).
Proof.
  unfold jaccardIndex, jaccard_of, jaccard_intersection, common_count.
  by rewrite fold_left_count, Z.add_0_l.
Qed.

End JaccardFacts.

Lemma jaccard_of_comm {F} `{Float64 F} (la lb i : Z) :
  jaccard_of la lb i = jaccard_of lb la i.
Proof. unfold jaccard_of. by rewrite (Z.add_comm la lb). Qed.

(** [Jaccard] does not depend on the order of its arguments, in any
    arithmetic. *)
Theorem Jaccard_symmetric {F} `{Float64 F} (a b : gomap F) :
  wf_map a → wf_map b → Jaccard a b = Jaccard b a.
Proof.
  intros Ha Hb. rewrite !Jaccard_closed_form by done.
  rewrite (common_count_sym b a) by done. apply jaccard_of_comm.
Qed.

Lemma Jaccard_symmetric_witness :
  Jaccard Inputs.vec_a Inputs.vec_b = Jaccard Inputs.vec_b Inputs.vec_a.
Proof.
  apply (Jaccard_symmetric Inputs.vec_a Inputs.vec_b);
    apply (bool_decide_unpack _); vm_compute; reflexivity.
Defined.

(** [jaccardIndex] does not depend on the order of its arguments, in any
    arithmetic. *)
Theorem jaccardIndex_symmetric {F} `{Float64 F} (u1 u2 : User F) :
  wf_map (Games u1) → wf_map (Games u2) → jaccardIndex u1 u2 = jaccardIndex u2 u1.
Proof.
  intros H1 H2. rewrite !jaccardIndex_closed_form.
  rewrite (common_count_sym (Games u2) (Games u1)) by done.
  apply jaccard_of_comm.
Qed.

Lemma jaccardIndex_symmetric_witness :
  jaccardIndex Inputs.user_a Inputs.user_b = jaccardIndex Inputs.user_b Inputs.user_a.
Proof.
  apply (jaccardIndex_symmetric Inputs.user_a Inputs.user_b);
    apply (bool_decide_unpack _); vm_compute; reflexivity.
Defined.

(** The two implementations of the index of Jaccard return the same value
    on the same key sets: [Jaccard] on two vectors and [jaccardIndex] on two
    users whose games are the keys of the vectors. *)
Theorem Jaccard_jaccardIndex_agree {F} `{Float64 F} (a b : gomap F)
    (u1 u2 : User F) :
  wf_map a → wf_map b →
  mkeys (Games u1) = mkeys a → mkeys (Games u2) = mkeys b →
  jaccardIndex u1 u2 = Jaccard a b.
Proof.
  intros Ha Hb H1 H2. rewrite jaccardIndex_closed_form, Jaccard_closed_form by done.
  rewrite (common_count_keys_eq a b (Games u1) (Games u2)) by done.
  assert (Hlen : ∀ V W (m : gomap V) (m' : gomap W), mkeys m = mkeys m' → mlen m = mlen m').
  { intros V W m m' Hk. unfold mlen. rewrite <- (length_fmap fst m), <- (length_fmap fst m').
    unfold mkeys in Hk. by rewrite Hk. }
  by rewrite (Hlen _ _ _ _ H1), (Hlen _ _ _ _ H2).
Qed.

Lemma Jaccard_jaccardIndex_agree_witness :
  jaccardIndex Inputs.user_a Inputs.user_b
  = Jaccard Inputs.weights_a Inputs.weights_b.
Proof.
  apply (Jaccard_jaccardIndex_agree Inputs.weights_a Inputs.weights_b
           Inputs.user_a Inputs.user_b).
  - apply (bool_decide_unpack _). vm_compute. reflexivity.
  - apply (bool_decide_unpack _). vm_compute. reflexivity.
  - reflexivity.
  - reflexivity.
Defined.

Lemma jaccard_of_range (la lb i : Z) :
  0 ≤ i → i ≤ la → i ≤ lb → (0 <= jaccard_of (F := R) la lb i <= 1)%R.
Proof.
  intros Hi Hla Hlb. unfold jaccard_of.
  destruct (Z.eqb_spec (la + lb - i) 0) as [|Hne]; [unfold_R; lra|]. unfold_R.
  assert (Hu : (0 < IZR (la + lb - i))%R) by (apply IZR_lt; lia).
  assert (Hi' : (0 <= IZR i)%R) by (apply IZR_le; lia).
  assert (Hle : (IZR i <= IZR (la + lb - i))%R) by (apply IZR_le; lia).
  split.
  - apply Rmult_le_reg_r with (IZR (la + lb - i)); [exact Hu|].
    unfold Rdiv. rewrite Rmult_assoc, Rinv_l by lra. lra.
  - apply Rmult_le_reg_r with (IZR (la + lb - i)); [exact Hu|].
    unfold Rdiv. rewrite Rmult_assoc, Rinv_l by lra. lra.
Qed.

Lemma jaccard_of_self (l : Z) : 0 < l → jaccard_of (F := R) l l l = 1%R.
Proof.
  intros Hl. unfold jaccard_of. replace (l + l - l) with l by lia.
  destruct (Z.eqb_spec l 0); [lia|]. unfold_R.
  apply Rinv_r. apply not_0_IZR. lia.
Qed.

(** In exact arithmetic both indices of Jaccard are between 0 and 1, and
    the index of a non-empty set with itself is 1. *)
Theorem Jaccard_unit_interval (a b : gomap R) (u1 u2 : User R) :
  wf_map a → wf_map b → wf_map (Games u1) → wf_map (Games u2) →
  (0 <= Jaccard a b <= 1)%R
  ∧ (a ≠ [] → Jaccard a a = 1%R)
  ∧ (0 <= jaccardIndex u1 u2 <= 1)%R
  ∧ (Games u1 ≠ [] → jaccardIndex u1 u1 = 1%R).
Proof.
  intros Ha Hb H1 H2.
  assert (Hpos : ∀ V (m : gomap V), m ≠ [] → 0 < mlen m).
  { intros V m Hne. unfold mlen. destruct m; [done | simpl; lia]. }
  split; [|split; [|split]].
  - rewrite Jaccard_closed_form by done.
    destruct (common_count_bounds a b Ha Hb) as (? & ? & ?). by apply jaccard_of_range.
  - intros Hne. rewrite Jaccard_closed_form, common_count_self by done.
    by apply jaccard_of_self, Hpos.
  - rewrite jaccardIndex_closed_form.
    destruct (common_count_bounds (Games u1) (Games u2) H1 H2) as (? & ? & ?).
    by apply jaccard_of_range.
  - intros Hne. rewrite jaccardIndex_closed_form, common_count_self.
    by apply jaccard_of_self, Hpos.
Qed.

Lemma Jaccard_unit_interval_witness :
  (0 <= Jaccard Inputs.vec_r Inputs.vec_r2 <= 1)%R
  ∧ (Inputs.vec_r ≠ [] → Jaccard Inputs.vec_r Inputs.vec_r = 1%R)
  ∧ (0 <= jaccardIndex Inputs.user_r Inputs.user_r2 <= 1)%R
  ∧ (Games Inputs.user_r ≠ [] → jaccardIndex Inputs.user_r Inputs.user_r = 1%R).
Proof.
  apply (Jaccard_unit_interval Inputs.vec_r Inputs.vec_r2 Inputs.user_r Inputs.user_r2);
    apply (bool_decide_unpack _); vm_compute; reflexivity.
Defined.
